(** * Fixed-point decimal engine (package [decimal]): shallow embedding

    The Go package keeps a decimal as a pair of an arbitrary-precision
    magnitude ([*big.Int], possibly [nil]) and a 32-bit signed exponent:
    [number = value * 10 ^ exp].  The embedding below follows the source
    function by function.  Machine integers are integers of [Z] with the
    wrap-around of the Go type written out; a fatal abort ([panic]) is the
    [Panic] constructor of [result]; a recoverable parse failure is the
    [Err] constructor of [parsed]. *)

From Stdlib Require Import ZArith QArith Qabs Qpower List Bool Lia Lqa String.
From Stdlib Require Import Strings.Byte.
Import ListNotations.

Local Open Scope Z_scope.

(** ** Machine integers *)

Definition MaxInt32 : Z := 2147483647.
Definition MinInt32 : Z := -2147483648.

(** Two's-complement wrap-around of Go's [int32] arithmetic. *)
Definition int32 (z : Z) : Z := (z + 2147483648) mod 4294967296 - 2147483648.

(** Conversion to (and arithmetic in) Go's [uint64]. *)
Definition uint64 (z : Z) : Z := z mod 18446744073709551616.

Definition is_int32 (z : Z) : Prop := MinInt32 <= z <= MaxInt32.

(** ** Fatal aborts *)

Inductive result (A : Type) : Type :=
| Ok (a : A)
| Panic (msg : string).
Arguments Ok {A} a.
Arguments Panic {A} msg.

Definition bind {A B : Type} (m : result A) (k : A -> result B) : result B :=
  match m with
  | Ok a => k a
  | Panic s => Panic s
  end.

Notation "'do' x <- m ; k" := (bind m (fun x => k))
  (at level 10, x pattern, m at level 100, k at level 200).

(** Dereferencing a [*big.Int]: a [nil] pointer aborts. *)
Definition deref (p : option Z) : result Z :=
  match p with
  | Some v => Ok v
  | None => Panic "nil pointer dereference"
  end.

(** ** The Decimal type and its constants *)

Record Decimal : Type := mkDecimal {
  value : option Z;   (* *big.Int; [None] is the nil pointer *)
  exp : Z             (* int32 *)
}.

(** [big d] reads the magnitude of an initialised decimal (a lazily
    uninitialised one counts as zero, as [ensureInitialized] makes it). *)
Definition big (d : Decimal) : Z :=
  match value d with
  | Some v => v
  | None => 0
  end.

Definition New (v : Z) (e : Z) : Decimal := {| value := Some v; exp := e |}.

Definition NewFromInt (v : Z) : Decimal := {| value := Some v; exp := 0 |}.

Definition divisionPrecision : Z := 16.

Definition Zero : Decimal := New 0 1.

Definition powTabLen : Z := 20.

Definition pow10bigtab : list Z :=
  [ 1; 10; 100; 1000; 10000; 100000; 1000000; 10000000; 100000000;
    1000000000; 10000000000; 100000000000; 1000000000000;
    10000000000000; 100000000000000; 1000000000000000;
    10000000000000000; 100000000000000000; 1000000000000000000;
    10000000000000000000 ].

Definition limitsBigTab : list Z :=
  [ 0; 9; 99; 999; 9999; 99999; 999999; 9999999; 99999999; 999999999;
    9999999999; 99999999999; 999999999999; 9999999999999;
    99999999999999; 999999999999999; 9999999999999999;
    99999999999999999; 999999999999999999; 9999999999999999999 ].

Definition ensureInitialized (d : Decimal) : Decimal :=
  match value d with
  | Some _ => d
  | None => {| value := Some 0; exp := exp d |}
  end.

Definition Sign (d : Decimal) : Z :=
  match value d with
  | None => 0
  | Some v => Z.sgn v
  end.

Definition IsZero (d : Decimal) : bool := Sign d =? 0.

(** [big.Int.Cmp]: -1, 0 or +1. *)
Definition bigCmp (x y : Z) : Z :=
  match x ?= y with
  | Lt => -1
  | Eq => 0
  | Gt => 1
  end.

Definition bigCmpAbs (x y : Z) : Z := bigCmp (Z.abs x) (Z.abs y).

(** ** Byte strings *)

Definition len (s : list byte) : Z := Z.of_nat (List.length s).

(** A byte string written as a literal. *)
Definition bytes (s : string) : list byte := list_byte_of_string s.

Definition byte_val (c : byte) : Z := Z.of_N (Byte.to_N c).

(** ['0' <= c && c <= '9'] *)
Definition is_digit (c : byte) : bool := (48 <=? byte_val c) && (byte_val c <=? 57).

(** [c - '0'] *)
Definition digit_of (c : byte) : Z := byte_val c - 48.

(** The byte of a decimal digit [0..9]. *)
Definition digit_byte (n : Z) : byte :=
  match Byte.of_N (Z.to_N (n + 48)) with
  | Some c => c
  | None => "0"%byte
  end.

(** [bytes.IndexByte]: index of the first [c] in [s], or -1. *)
Fixpoint IndexByte (s : list byte) (c : byte) : Z :=
  match s with
  | [] => -1
  | x :: rest =>
      if Byte.eqb x c then 0
      else let i := IndexByte rest c in if i =? -1 then -1 else i + 1
  end.

(** Slices [s[:i]] and [s[i:]]. *)
Definition slice_to (s : list byte) (i : Z) : list byte := firstn (Z.to_nat i) s.
Definition slice_from (s : list byte) (i : Z) : list byte := skipn (Z.to_nat i) s.

(** *** Decimal text of a big integer (Go's [math/big])

    [big.Int.Append(buf, 10)] appends the decimal digits of the magnitude,
    after a minus sign for a negative number; [big.Int.SetString(s, 10)]
    reads an optional sign followed by one or more decimal digits and
    fails on anything else. *)

Fixpoint utoa_aux (fuel : nat) (n : Z) (acc : list byte) : list byte :=
  match fuel with
  | O => acc
  | S f =>
      let acc' := digit_byte (n mod 10) :: acc in
      if n / 10 =? 0 then acc' else utoa_aux f (n / 10) acc'
  end.

Definition utoa (n : Z) : list byte := utoa_aux (S (Z.to_nat (Z.log2 n))) n [].

Definition itoa (n : Z) : list byte :=
  if n <? 0 then "-"%byte :: utoa (- n) else utoa n.

Definition parse_step (acc : Z) (c : byte) : Z := acc * 10 + digit_of c.

Definition parseDigits (s : list byte) : Z := fold_left parse_step s 0.

Definition stripSign (s : list byte) : bool * list byte :=
  match s with
  | c :: rest =>
      if Byte.eqb c "+" then (false, rest)
      else if Byte.eqb c "-" then (true, rest)
      else (false, s)
  | [] => (false, s)
  end.

Definition SetString (s : list byte) : option Z :=
  let '(neg, body) := stripSign s in
  if negb (len body =? 0) && forallb is_digit body
  then Some (if neg then - parseDigits body else parseDigits body)
  else None.

(** ** Arithmetic *)

Definition bigPow10 (n : Z) : Z :=
  if n <? powTabLen then nth (Z.to_nat n) pow10bigtab 0
  else nth (Z.to_nat (powTabLen - 1)) pow10bigtab 0 * 10 ^ (n - (powTabLen - 1)).

Definition rescale (d : Decimal) (e : Z) : Decimal :=
  let d := ensureInitialized d in
  let v := big d in
  if e >? exp d then
    let scale := bigPow10 (uint64 (int32 (e - exp d))) in
    {| value := Some (Z.quot v scale); exp := e |}
  else if e <? exp d then
    let scale := bigPow10 (uint64 (int32 (exp d - e))) in
    {| value := Some (v * scale); exp := e |}
  else {| value := Some v; exp := e |}.

Definition abs (d : Decimal) : Decimal :=
  if Sign d >=? 0 then d
  else {| value := Some (Z.abs (big (ensureInitialized d))); exp := exp d |}.

Definition min (x y : Z) : Z := if x >=? y then y else x.

Definition RescalePair (d1 d2 : Decimal) : Decimal * Decimal :=
  let d1 := ensureInitialized d1 in
  let d2 := ensureInitialized d2 in
  if exp d1 =? exp d2 then (d1, d2)
  else
    let baseScale := min (exp d1) (exp d2) in
    if negb (baseScale =? exp d1) then (rescale d1 baseScale, d2)
    else (d1, rescale d2 baseScale).

Definition Add (d d2 : Decimal) : Decimal :=
  let '(rd, rd2) := RescalePair d d2 in
  {| value := Some (big rd + big rd2); exp := exp rd |}.

Definition sub (d d2 : Decimal) : Decimal :=
  let '(rd, rd2) := RescalePair d d2 in
  {| value := Some (big rd - big rd2); exp := exp rd |}.

Definition Sub (d d2 : Decimal) : Decimal :=
  let rd := sub d d2 in
  if Z.sgn (big rd) =? 0 then {| value := value rd; exp := 0 |} else rd.

Definition Neg (d : Decimal) : Decimal :=
  let d := ensureInitialized d in
  {| value := Some (- big d); exp := exp d |}.

Definition mul (d d2 : Decimal) : result Decimal :=
  let d := ensureInitialized d in
  let d2 := ensureInitialized d2 in
  let expInt64 := exp d + exp d2 in
  if (expInt64 >? MaxInt32) || (expInt64 <? MinInt32) then
    Panic ("exponent " ++ string_of_list_byte (itoa expInt64)
           ++ " overflows an int32!")
  else Ok {| value := Some (big d * big d2); exp := expInt64 |}.

Definition Mul (d d2 : Decimal) : result Decimal :=
  if (Sign d =? 0) || (Sign d2 =? 0) then Ok Zero else mul d d2.

Definition roundBase10 (digits : Z) : Z := Z.quot (int32 (digits + 8)) 9.

Definition quoRem (d d2 : Decimal) (precision : Z) : result (Decimal * Decimal) :=
  let d := ensureInitialized d in
  let d2 := ensureInitialized d2 in
  if Z.sgn (big d2) =? 0 then Panic "decimal division by 0"
  else
    let scale := int32 (- precision) in
    (* the subtraction is carried out in int32 and converted afterwards *)
    let e := int32 (int32 (exp d - exp d2) - scale) in
    if (e >? MaxInt32) || (e <? MinInt32) then Panic "overflow in decimal quoRem"
    else
      let '(aa, bb, scalerest) :=
        if e <? 0 then (big d, big d2 * 10 ^ (- e), exp d)
        else (big d * 10 ^ e, big d2, int32 (scale + exp d2)) in
      let q := Z.quot aa bb in
      let r := Z.rem aa bb in
      Ok ({| value := Some q; exp := scale |},
          {| value := Some r; exp := scalerest |}).

(** The result scale that [Div] derives from the operands' exponents and
    the caller's increment (the body of [Div] up to the call of [quoRem]). *)
Definition Div_scale (d d2 : Decimal) (scaleIncr : Z) : Z :=
  let s1 := int32 (- exp d) in
  let s2 := int32 (- exp d2) in
  let fracLeft := roundBase10 s1 in
  let fracRight := roundBase10 s2 in
  let scaleIncr :=
    int32 (scaleIncr
           - int32 (int32 (int32 (fracLeft - s1) + fracRight) - s2)) in
  let scaleIncr := if scaleIncr <? 0 then 0 else scaleIncr in
  int32 (roundBase10 (int32 (int32 (fracLeft + fracRight) + scaleIncr)) * 9).

Definition Div (d d2 : Decimal) (scaleIncr : Z) : result Decimal :=
  if Sign d =? 0 then Ok Zero
  else
    do qr <- quoRem d d2 (Div_scale d d2 scaleIncr);
    Ok (fst qr).

Definition Cmp (d d2 : Decimal) : Z :=
  let d := ensureInitialized d in
  let d2 := ensureInitialized d2 in
  if exp d =? exp d2 then bigCmp (big d) (big d2)
  else
    let '(rd, rd2) := RescalePair d d2 in
    bigCmp (big rd) (big rd2).

Definition CmpAbs (d d2 : Decimal) : Z :=
  let d := ensureInitialized d in
  let d2 := ensureInitialized d2 in
  if exp d =? exp d2 then bigCmpAbs (big d) (big d2)
  else
    let '(rd, rd2) := RescalePair d d2 in
    bigCmpAbs (big rd) (big rd2).

Definition Equal (d d2 : Decimal) : bool := Cmp d d2 =? 0.

Definition divRound (d d2 : Decimal) (precision : Z) : result Decimal :=
  do qr <- quoRem d d2 precision;
  let '(q, r) := qr in
  let rv2 := Z.shiftl (Z.abs (big r)) 1 in
  let r2 := {| value := Some rv2; exp := int32 (exp r + precision) |} in
  let c := Cmp r2 (abs d2) in
  if c <? 0 then Ok q
  else
    do dv <- deref (value d);
    do d2v <- deref (value d2);
    if Z.sgn dv * Z.sgn d2v <? 0 then Ok (sub q (New 1 (int32 (- precision))))
    else Ok (Add q (New 1 (int32 (- precision)))).

Definition div (d d2 : Decimal) : result Decimal :=
  divRound d d2 (int32 divisionPrecision).

Definition truncate (d : Decimal) (precision : Z) : Decimal :=
  let d := ensureInitialized d in
  if (precision >=? 0) && (int32 (- precision) >? exp d)
  then rescale d (int32 (- precision))
  else d.

Definition mod_ (d d2 : Decimal) : result Decimal :=
  do q <- divRound d d2 (int32 (int32 (- exp d) + 1));
  let quo := truncate q 0 in
  do p <- mul d2 quo;
  Ok (sub d p).

(** ** Rounding *)

Definition Round (d : Decimal) (places : Z) : Decimal :=
  if exp d =? int32 (- places) then d
  else
    (* truncate to places + 1 *)
    let ret := rescale d (int32 (int32 (- places) - 1)) in
    (* add sign(d) * 0.5 *)
    let v := if Z.sgn (big ret) <? 0 then big ret - 5 else big ret + 5 in
    (* DivMod by ten: Euclidean quotient and modulus *)
    let m := v mod 10 in
    let v := v / 10 in
    let e := int32 (exp ret + 1) in
    let v := if (Z.sgn v <? 0) && negb (bigCmp m 0 =? 0) then v + 1 else v in
    {| value := Some v; exp := e |}.

(** ** Parsing *)

Inductive err64 : Type :=
| errTooManyDots            (* "too many .s" *)
| errUnexpected (c : byte)  (* "unexpected character %q" *)
| errOverflow.              (* "overflow" *)

(** [cutoff = math.MaxUint64/10 + 1] *)
Definition cutoff : Z := 1844674407370955162.

(** The loop of [parseDecimal64] from index [i] on, with the accumulator
    [n] (a uint64) and the index [dot] of the dot seen so far (or -1). *)
Fixpoint parseDecimal64_loop (s : list byte) (i n dot : Z) : err64 + Z * Z :=
  match s with
  | [] => inr (n, dot)
  | c :: rest =>
      if Byte.eqb c "." then
        if dot >? -1 then inl errTooManyDots
        else parseDecimal64_loop rest (i + 1) n i
      else if is_digit c then
        let d := digit_of c in
        if n >=? cutoff then inl errOverflow
        else
          let n := uint64 (n * 10) in
          let n1 := uint64 (n + d) in
          if n1 <? n then inl errOverflow
          else parseDecimal64_loop rest (i + 1) n1 dot
      else inl (errUnexpected c)
  end.

Definition parseDecimal64 (s : list byte) : err64 + Decimal :=
  match parseDecimal64_loop s 0 0 (-1) with
  | inl e => inl e
  | inr (n, dot) =>
      let e := if negb (dot =? -1) then int32 (- int32 (len s - dot - 1)) else 0 in
      inr {| value := Some n; exp := e |}
  end.

(** The errors [NewFromMySQL] returns; each carries the original input,
    which the message echoes. *)
Inductive error : Type :=
| ErrTooShort (original : list byte)
    (* "can't convert %q to decimal: too short" *)
| ErrParse (original : list byte) (cause : err64)
    (* "can't convert %s to decimal: %v" *)
| ErrTooManyDots (original : list byte)
    (* "can't convert %s to decimal: too many .s" *)
| ErrNotNumber (original : list byte).
    (* "can't convert %s to decimal" *)

Definition echoed (e : error) : list byte :=
  match e with
  | ErrTooShort o | ErrParse o _ | ErrTooManyDots o | ErrNotNumber o => o
  end.

Inductive parsed : Type :=
| Parsed (d : Decimal)
| Err (e : error).

(** The arbitrary-precision path of [NewFromMySQL] (from [var intString]
    to the end), on the input [s] with its sign already removed. *)
Definition bigFallback (original s : list byte) (neg : bool) : parsed :=
  let pIndex := IndexByte s "." in
  let finish (intString : list byte) (e : Z) : parsed :=
    match SetString intString with
    | None => Err (ErrNotNumber original)
    | Some v => Parsed {| value := Some (if neg then - v else v); exp := e |}
    end in
  if pIndex >=? 0 then
    if negb (IndexByte (slice_from s (pIndex + 1)) "." =? -1)
    then Err (ErrTooManyDots original)
    else
      let intString :=
        if pIndex + 1 <? len s
        then slice_to s pIndex ++ slice_from s (pIndex + 1)
        else slice_to s pIndex in
      finish intString (int32 (- int32 (len (slice_from s (pIndex + 1)))))
  else finish s 0.

(** Which branch of [NewFromMySQL] produced the answer. *)
Inductive route : Type :=
| NotParsed     (* rejected before either parser ran *)
| Fast64        (* the 64-bit accumulation of [parseDecimal64] *)
| BigFallback.  (* the arbitrary-precision path *)

Definition NewFromMySQL_route (s0 : list byte) : route * parsed :=
  let original := s0 in
  let '(neg, s) := stripSign s0 in
  if len s =? 0 then (NotParsed, Err (ErrTooShort original))
  else if len s <=? 18 then
    match parseDecimal64 s with
    | inr dec =>
        (Fast64,
         Parsed (if neg then {| value := Some (- big dec); exp := exp dec |}
                 else dec))
    | inl errOverflow => (BigFallback, bigFallback original s neg)
    | inl e => (Fast64, Err (ErrParse original e))
    end
  else (BigFallback, bigFallback original s neg).

Definition NewFromMySQL (s : list byte) : parsed := snd (NewFromMySQL_route s).

(** ** The general parser

    [strconv.ParseInt(s, 10, bitSize)] (Go's [strconv]) reads an optional
    sign and one or more decimal digits; it fails with a syntax error on
    anything else and with a range error as soon as the digits read so
    far leave the range. *)

Inductive numError : Type :=
| ErrSyntax
| ErrRange.

Fixpoint ParseUint_loop (s : list byte) (n maxVal : Z) : numError + Z :=
  match s with
  | [] => inr n
  | c :: rest =>
      if is_digit c then
        if n >=? cutoff then inl ErrRange
        else
          let n := uint64 (n * 10) in
          let n1 := uint64 (n + digit_of c) in
          if (n1 <? n) || (n1 >? maxVal) then inl ErrRange
          else ParseUint_loop rest n1 maxVal
      else inl ErrSyntax
  end.

Definition ParseUint (s : list byte) (bitSize : Z) : numError + Z :=
  match s with
  | [] => inl ErrSyntax
  | _ => ParseUint_loop s 0 (2 ^ bitSize - 1)
  end.

Definition ParseInt (s : list byte) (bitSize : Z) : numError + Z :=
  match s with
  | [] => inl ErrSyntax
  | _ =>
      let '(neg, body) := stripSign s in
      match ParseUint body bitSize with
      | inl ErrSyntax => inl ErrSyntax
      | inl ErrRange => inl ErrRange
      | inr un =>
          let cutoff := 2 ^ (bitSize - 1) in
          if negb neg && (un >=? cutoff) then inl ErrRange
          else if neg && (un >? cutoff) then inl ErrRange
          else inr (if neg then - un else un)
      end
  end.

(** [strings.IndexAny(s, "Ee")] *)
Fixpoint IndexAny_Ee (s : list byte) : Z :=
  match s with
  | [] => -1
  | c :: rest =>
      if Byte.eqb c "E" || Byte.eqb c "e" then 0
      else let i := IndexAny_Ee rest in if i =? -1 then -1 else i + 1
  end.

(** The loop of [NewFromString] that looks for the decimal point:
    [Some pIndex] at the end, [None] on a second dot. *)
Fixpoint dotScan (s : list byte) (i pIndex : Z) : option Z :=
  match s with
  | [] => Some pIndex
  | c :: rest =>
      if Byte.eqb c "." then
        if pIndex >? -1 then None else dotScan rest (i + 1) i
      else dotScan rest (i + 1) pIndex
  end.

(** The errors of [NewFromString], each with the text its message shows. *)
Inductive strError : Type :=
| SErrFractionalTooLong (shown : list byte)
    (* "can't convert %s to decimal: fractional part too long" *)
| SErrExponentNotNumeric (shown : list byte)
    (* "can't convert %s to decimal: exponent is not numeric" *)
| SErrTooManyDots (shown : list byte)
    (* "can't convert %s to decimal: too many .s" *)
| SErrConvert (shown : list byte).
    (* "can't convert %s to decimal" *)

Inductive strParsed : Type :=
| SParsed (d : Decimal)
| SErr (e : strError).

(** The second half of [NewFromString], from the search for the decimal
    point on: [value1] is the text without its exponent part and [exp0]
    the exponent read from that part (0 when there is none). *)
Definition NewFromString_mantissa (originalInput value1 : list byte) (exp0 : Z)
  : strParsed :=
  match dotScan value1 0 (-1) with
  | None => SErr (SErrTooManyDots value1)
  | Some pIndex =>
      let vLen := len value1 in
      let '(intString, exp1) :=
        if pIndex =? -1 then (value1, exp0)
        else
          (if pIndex + 1 <? vLen
           then slice_to value1 pIndex ++ slice_from value1 (pIndex + 1)
           else slice_to value1 pIndex,
           exp0 + - len (slice_from value1 (pIndex + 1))) in
      let dValue : option Z :=
        if len intString <=? 18 then
          match ParseInt intString 64 with
          | inr v => Some v
          | inl _ => None
          end
        else SetString intString in
      match dValue with
      | None => SErr (SErrConvert value1)
      | Some v =>
          if (exp1 <? MinInt32) || (exp1 >? MaxInt32)
          then SErr (SErrFractionalTooLong originalInput)
          else SParsed {| value := Some v; exp := int32 exp1 |}
      end
  end.

Definition NewFromString (value0 : list byte) : strParsed :=
  let originalInput := value0 in
  (* check if number is using scientific notation *)
  let eIndex := IndexAny_Ee value0 in
  if negb (eIndex =? -1) then
    match ParseInt (slice_from value0 (eIndex + 1)) 32 with
    | inl ErrRange => SErr (SErrFractionalTooLong value0)
    | inl ErrSyntax => SErr (SErrExponentNotNumeric value0)
    | inr expInt =>
        NewFromString_mantissa originalInput (slice_to value0 eIndex) expInt
    end
  else NewFromString_mantissa originalInput value0 0.

(** The message of an error of [NewFromString] ([fmt.Errorf] with [%s]). *)
Definition strError_message (e : strError) : string :=
  match e with
  | SErrFractionalTooLong shown =>
      "can't convert " ++ string_of_list_byte shown
        ++ " to decimal: fractional part too long"
  | SErrExponentNotNumeric shown =>
      "can't convert " ++ string_of_list_byte shown
        ++ " to decimal: exponent is not numeric"
  | SErrTooManyDots shown =>
      "can't convert " ++ string_of_list_byte shown ++ " to decimal: too many .s"
  | SErrConvert shown =>
      "can't convert " ++ string_of_list_byte shown ++ " to decimal"
  end%string.

Definition RequireFromString (value0 : list byte) : result Decimal :=
  match NewFromString value0 with
  | SParsed dec => Ok dec
  | SErr err => Panic (strError_message err)
  end.

(** ** Formatting *)

(** The trimming loop of [format]: drop the trailing ['0'] bytes. *)
Fixpoint trimZeros (l : list byte) : list byte :=
  match l with
  | [] => []
  | c :: rest =>
      match trimZeros rest with
      | [] => if Byte.eqb c "0" then [] else [c]
      | rest' => c :: rest'
      end
  end.

Definition format (d : Decimal) (buf : list byte) (trimTrailingZeros : bool)
  : result (list byte) :=
  if exp d >=? 0 then Ok (buf ++ itoa (big (rescale d 0)))
  else
    (* on a nil magnitude [Append] writes a placeholder and [Sign] aborts *)
    do v <- deref (value d);
    let rawfmt := itoa v in
    let '(rawfmt, buf) :=
      if Z.sgn v <? 0 then (tl rawfmt, buf ++ ["-"%byte]) else (rawfmt, buf) in
    let dExpInt := exp d in
    let '(buf, fractionalPart) :=
      if len rawfmt >? - dExpInt then
        (buf ++ slice_to rawfmt (len rawfmt + dExpInt),
         slice_from rawfmt (len rawfmt + dExpInt))
      else
        let num0s := - dExpInt - len rawfmt in
        (buf ++ ["0"%byte], repeat "0"%byte (Z.to_nat num0s) ++ rawfmt) in
    let fractionalPart :=
      if trimTrailingZeros then trimZeros fractionalPart else fractionalPart in
    if len fractionalPart >? 0
    then Ok (buf ++ "."%byte :: fractionalPart)
    else Ok buf.

Definition String_ (d : Decimal) : result (list byte) := format d [] true.

Definition StringMySQL (d : Decimal) : result (list byte) := format d [] false.

Definition StringFixed (d : Decimal) (places : Z) : result (list byte) :=
  format (Round d places) [] false.

Definition FormatMySQL (d : Decimal) (frac : Z) : result (list byte) :=
  format (Round d frac) [] false.

(** ** Clamp, with the magnitudes as shared objects

    A [Decimal] holds a pointer to its [big.Int], and [largestForm] hands
    out the pointers stored in [limitsBigTab].  To follow what [Clamp] and
    [NegInPlace] do to those shared objects, the magnitudes live in a heap
    of cells and a decimal is a reference: an optional address and an
    exponent.  Cells 0..19 of the initial heap are the objects
    [limitsBigTab] points to (cell 0 is [zeroInt]).  [CmpAbs] only reads
    its operands (its temporaries are fresh), so it is run on the values
    read from the heap. *)

Definition loc : Type := nat.
Definition heap : Type := list Z.

Record DecimalRef : Type := mkRef {
  ptr : option loc;   (* *big.Int *)
  rexp : Z            (* int32 *)
}.

Definition load (h : heap) (p : option loc) : option Z :=
  match p with
  | Some l => nth_error h l
  | None => None
  end.

(** The decimal a reference stands for in a heap. *)
Definition view (h : heap) (d : DecimalRef) : Decimal :=
  {| value := load h (ptr d); exp := rexp d |}.

Fixpoint store (l : loc) (v : Z) (h : heap) : heap :=
  match h, l with
  | [], _ => []
  | _ :: t, O => v :: t
  | x :: t, S l' => x :: store l' v t
  end.

(** [new(big.Int)] holding [v]: a fresh cell at the end of the heap. *)
Definition alloc (h : heap) (v : Z) : loc * heap := (List.length h, h ++ [v]).

Definition init_heap : heap := limitsBigTab.

(** [limitsBigTab] as the array of pointers it is. *)
Definition limitsBigTab_ptr (digits : Z) : loc := Z.to_nat digits.

Definition nines : list byte := repeat "9"%byte 350.

Definition largestForm (h : heap) (integral fractional : Z)
  : result (DecimalRef * heap) :=
  let digits := int32 (integral + fractional) in
  if digits <? Z.of_nat (List.length limitsBigTab) then
    if digits <? 0 then Panic "index out of range"
    else Ok ({| ptr := Some (limitsBigTab_ptr digits);
                rexp := int32 (- fractional) |}, h)
  else if digits <? len nines then
    match SetString (slice_to nines digits) with
    | Some num =>
        let '(l, h') := alloc h num in
        Ok ({| ptr := Some l; rexp := int32 (- fractional) |}, h')
    | None => Panic "nil pointer dereference"
    end
  else Panic "largestForm: too large".

Definition NegInPlace (h : heap) (d : DecimalRef) : DecimalRef * heap :=
  let '(l, h) :=
    match ptr d with
    | Some l => (l, h)
    | None => alloc h 0
    end in
  (* d.value.Neg(d.value): the cell itself is overwritten *)
  let h := store l (- nth l h 0) h in
  ({| ptr := Some l; rexp := rexp d |}, h).

Definition Clamp (h : heap) (d : DecimalRef) (integral fractional : Z)
  : result (DecimalRef * heap) :=
  do lh <- largestForm h integral fractional;
  let '(limit, h) := lh in
  if CmpAbs (view h d) (view h limit) <=? 0 then Ok (d, h)
  else
    do dv <- deref (load h (ptr d));
    if Z.sgn dv <? 0 then Ok (NegInPlace h limit)
    else Ok (limit, h).

(** ** Integrality and conversion to machine integers *)

(** [abs] on int32 (negating the minimum wraps around to itself). *)
Definition abs32 (n : Z) : Z := if n <? 0 then int32 (- n) else n.

(** The loop of [isInteger]: [z] rounds of division by ten, each of which
    must leave no remainder. *)
Fixpoint isInteger_loop (z : nat) (q : Z) : bool :=
  match z with
  | O => true
  | S z' =>
      if negb (bigCmp (Z.rem q 10) 0 =? 0) then false
      else isInteger_loop z' (Z.quot q 10)
  end.

Definition isInteger (d : Decimal) : result bool :=
  if exp d >=? 0 then Ok true
  else
    do v <- deref (value d);
    Ok (isInteger_loop (Z.to_nat (abs32 (exp d))) v).

Definition Exponent (d : Decimal) : Z := exp d.

Definition NewFromUint (v : Z) : Decimal := {| value := Some v; exp := 0 |}.

(** Two's-complement wrap-around of Go's [int64]. *)
Definition int64 (z : Z) : Z :=
  (z + 9223372036854775808) mod 18446744073709551616 - 9223372036854775808.

(** [big.Int.Int64]: the low 64 bits of the magnitude, with the sign. *)
Definition bigInt64 (x : Z) : Z :=
  let v := int64 (uint64 (Z.abs x)) in
  if x <? 0 then int64 (- v) else v.

Definition bigIsInt64 (x : Z) : bool :=
  (-9223372036854775808 <=? x) && (x <=? 9223372036854775807).

(** [big.Int.Uint64]: the low 64 bits of the magnitude. *)
Definition bigUint64 (x : Z) : Z := uint64 (Z.abs x).

Definition bigIsUint64 (x : Z) : bool :=
  (0 <=? x) && (x <=? 18446744073709551615).

Definition Int64 (d : Decimal) : Z * bool :=
  let scaledD := rescale d 0 in
  (bigInt64 (big scaledD), bigIsInt64 (big scaledD)).

Definition Uint64 (d : Decimal) : Z * bool :=
  let scaledD := rescale d 0 in
  (bigUint64 (big scaledD), bigIsUint64 (big scaledD)).

(** ** Semantics: the rational number a decimal stands for *)

Definition pow10 (e : Z) : Q := (10 # 1) ^ e.

Definition toQ (d : Decimal) : Q := inject_Z (big d) * pow10 (exp d).

(** The division law that [quoRem]'s comment promises for the pair
    [(q, r)] returned at precision [p]. *)
Definition division_law (d d2 : Decimal) (p : Z) (q r : Decimal) : Prop :=
  (toQ d == toQ d2 * toQ q + toQ r)%Q /\
  (exists k : Z, (toQ q == inject_Z k * pow10 (- p))%Q) /\
  (Qabs (toQ r) < Qabs (toQ d2) * pow10 (- p))%Q /\
  (~ (toQ r == 0)%Q ->
   ((0 < toQ r)%Q <-> (0 < toQ d)%Q) /\ ((toQ r < 0)%Q <-> (toQ d < 0)%Q)).

(** Inputs of [quoRem] on which none of its int32 computations wraps. *)
Definition quoRem_in_range (d d2 : Decimal) (p : Z) : Prop :=
  is_int32 (- p) /\
  is_int32 (exp d - exp d2 + p) /\
  (0 <= exp d - exp d2 + p -> is_int32 (exp d2 - p)).

(** The operands [aa] and [bb] that [quoRem] hands to [big.Int.QuoRem]. *)
Definition quoRem_aa (d d2 : Decimal) (p : Z) : Z :=
  let e := exp d - exp d2 + p in
  if e <? 0 then big d else big d * 10 ^ e.

Definition quoRem_bb (d d2 : Decimal) (p : Z) : Z :=
  let e := exp d - exp d2 + p in
  if e <? 0 then big d2 * 10 ^ (- e) else big d2.

(** [y] is the integer multiple of [10^(-p)] nearest to the quotient
    [x / w], a tie going away from zero.  The two bounds are the
    inequalities [|x/w| - u/2 < |y| <= |x/w| + u/2] with [u = 10^(-p)],
    multiplied by [2*|w|]; the last two conjuncts fix the sign. *)
Definition rounded_half_away (x w : Q) (p : Z) (y : Decimal) : Prop :=
  (exists k : Z, (toQ y == inject_Z k * pow10 (- p))%Q) /\
  (2 * Qabs x - Qabs w * pow10 (- p) < 2 * Qabs w * Qabs (toQ y))%Q /\
  (2 * Qabs w * Qabs (toQ y) <= 2 * Qabs x + Qabs w * pow10 (- p))%Q /\
  ((0 < toQ y)%Q -> (0 < x * w)%Q) /\
  ((toQ y < 0)%Q -> (x * w < 0)%Q).

(** Inputs of [Round] on which none of its int32 computations wraps. *)
Definition Round_in_range (d : Decimal) (places : Z) : Prop :=
  MinInt32 < places <= MaxInt32 /\ is_int32 (exp d) /\
  - MaxInt32 <= places + 1 + exp d <= MaxInt32.

(** Inputs of [divRound] on which none of its int32 computations wraps. *)
Definition divRound_in_range (d d2 : Decimal) (p : Z) : Prop :=
  quoRem_in_range d d2 p /\ is_int32 p /\ is_int32 (exp d2) /\
  - MaxInt32 <= exp d - exp d2 + p /\
  (exp d - exp d2 + p < 0 -> is_int32 (exp d + p)).

(** Inputs of [Div] that keep every intermediate value far from the int32
    limits. *)
Definition Div_in_range (d d2 : Decimal) (scaleIncr : Z) : Prop :=
  - 268435456 <= exp d <= 268435456 /\
  - 268435456 <= exp d2 <= 268435456 /\
  0 <= scaleIncr <= 268435456.

(** Rounding a count of digits up to the next multiple of 9. *)
Definition round_up_9 (n : Z) : Z := 9 * ((n + 8) / 9).

(** The scale rule in the words of the specification, to be compared with
    [Div_scale]: each operand's count of fractional digits is rounded up
    to the next multiple of 9, the two are summed, and the increment is
    added after it has been lowered by the padding and clamped at 0. *)
Definition scale_per_operand (s1 s2 incr : Z) : Z :=
  round_up_9 s1 + round_up_9 s2
  + Z.max 0 (incr - (round_up_9 s1 - s1) - (round_up_9 s2 - s2)).

(** The last step of [Round] on the magnitude [t] truncated to one extra
    digit: add or subtract five, divide by ten, repair the negative case. *)
Definition round_last (t : Z) : Z :=
  let v := if Z.sgn t <? 0 then t - 5 else t + 5 in
  let m := v mod 10 in
  let v := v / 10 in
  if (Z.sgn v <? 0) && negb (bigCmp m 0 =? 0) then v + 1 else v.

(** The adjustment [divRound] applies to the truncated quotient. *)
Definition divRound_adjust (d d2 : Decimal) (p : Z) : Z :=
  let r := Z.rem (quoRem_aa d d2 p) (quoRem_bb d d2 p) in
  if bigCmp (2 * Z.abs r) (Z.abs (quoRem_bb d d2 p)) <? 0 then 0
  else if Z.sgn (big d) * Z.sgn (big d2) <? 0 then -1 else 1.

(** *** The fixed-format grammar

    A text of the grammar [[+|-]digits[.digits]] is put together from an
    optional sign, the integral digits and an optional dot with the
    fractional digits. *)

Definition digits (ds : list byte) : Prop := Forall (fun c => is_digit c = true) ds.

Definition sign_bytes (sg : option bool) : list byte :=
  match sg with
  | None => []
  | Some false => ["+"%byte]
  | Some true => ["-"%byte]
  end.

Definition is_neg (sg : option bool) : bool :=
  match sg with
  | Some true => true
  | _ => false
  end.

Definition frac_bytes (fr : option (list byte)) : list byte :=
  match fr with
  | None => []
  | Some fp => "."%byte :: fp
  end.

Definition frac_digits (fr : option (list byte)) : list byte :=
  match fr with
  | None => []
  | Some fp => fp
  end.

Definition fixed_text (sg : option bool) (ip : list byte)
    (fr : option (list byte)) : list byte :=
  sign_bytes sg ++ ip ++ frac_bytes fr.

(** The decimal a text of the grammar denotes. *)
Definition fixed_value (sg : option bool) (ip : list byte)
    (fr : option (list byte)) : Decimal :=
  let n := parseDigits (ip ++ frac_digits fr) in
  {| value := Some (if is_neg sg then - n else n);
     exp := - len (frac_digits fr) |}.

(** *** The pieces of a formatted decimal with a negative exponent *)

Definition neg_sign (v : Z) : list byte := if v <? 0 then ["-"%byte] else [].

(** The digits before the dot. *)
Definition int_part (v e : Z) : list byte :=
  let raw := utoa (Z.abs v) in
  if len raw >? - e then slice_to raw (len raw + e) else ["0"%byte].

(** The [-e] digits after the dot, as stored. *)
Definition frac_part (v e : Z) : list byte :=
  let raw := utoa (Z.abs v) in
  if len raw >? - e then slice_from raw (len raw + e)
  else repeat "0"%byte (Z.to_nat (- e - len raw)) ++ raw.

(** A dot and the fractional digits, or nothing when there are none. *)
Definition dot_frac (fp : list byte) : list byte :=
  match fp with
  | [] => []
  | _ => "."%byte :: fp
  end.

(** Bytes of plain positional notation: digits, minus sign, dot. *)
Definition plain_byte (c : byte) : Prop :=
  is_digit c = true \/ c = "-"%byte \/ c = "."%byte.

(** The sign and the optional fraction of a formatted text, as the
    grammar has them. *)
Definition sign_of (v : Z) : option bool := if v <? 0 then Some true else None.

Definition frac_of (fp : list byte) : option (list byte) :=
  match fp with
  | [] => None
  | _ => Some fp
  end.

(** Membership in the grammar [[+|-]digits[.digits]], read generously: an
    optional sign, then digits with at most one dot and at least one
    digit. *)
Definition in_grammar (s : list byte) : Prop :=
  exists sg ip fr,
    s = fixed_text sg ip fr /\ digits ip /\ digits (frac_digits fr) /\
    ip ++ frac_digits fr <> [].

(** [y] has exponent [e] and is [x] cut toward zero to a multiple of
    [10^e]: no larger than [x] in absolute value, less than one unit
    [10^e] away from it, and on the same side of zero. *)
Definition cut_toward_zero (x : Q) (e : Z) (y : Decimal) : Prop :=
  exp y = e /\
  (Qabs (toQ y) <= Qabs x)%Q /\ (Qabs x - pow10 e < Qabs (toQ y))%Q /\
  ((0 <= x)%Q -> (0 <= toQ y)%Q) /\ ((x <= 0)%Q -> (toQ y <= 0)%Q).

(** A byte that is not an exponent mark. *)
Definition no_mark (c : byte) : Prop := (Byte.eqb c "E" || Byte.eqb c "e") = false.

(** Bytes of a signed numeral: digits, the two signs, the dot. *)
Definition wire_byte (c : byte) : Prop := plain_byte c \/ c = "+"%byte.

(* ------------------------------------------------------------------ *)
(** * Properties *)

(** ** Machine-integer facts *)

Lemma int32_id (z : Z) : is_int32 z -> int32 z = z.
Proof.
  unfold is_int32, int32, MinInt32, MaxInt32. intros H.
  rewrite Z.mod_small; lia.
Qed.

Lemma int32_range (z : Z) : is_int32 (int32 z).
Proof.
  unfold is_int32, int32, MinInt32, MaxInt32.
  pose proof (Z.mod_pos_bound (z + 2147483648) 4294967296 ltac:(lia)). lia.
Qed.

Lemma int32_idem_sub (a b : Z) : int32 (int32 a - b) = int32 (a - b).
Proof.
  unfold int32.
  replace (((a + 2147483648) mod 4294967296 - 2147483648 - b + 2147483648))
    with ((a + 2147483648) mod 4294967296 + (- b)) by ring.
  rewrite Zplus_mod_idemp_l. f_equal. f_equal. ring.
Qed.

Lemma int32_idem_add (a b : Z) : int32 (int32 a + b) = int32 (a + b).
Proof.
  replace (int32 a + b) with (int32 a - (- b)) by ring.
  rewrite int32_idem_sub. f_equal. ring.
Qed.

(** ** Powers of ten *)

Lemma pow10_pos (e : Z) : (0 < pow10 e)%Q.
Proof. apply Qpower_0_lt. reflexivity. Qed.

Lemma pow10_add (a b : Z) : (pow10 (a + b) == pow10 a * pow10 b)%Q.
Proof. apply Qpower_plus. discriminate. Qed.

Lemma pow10_Z (n : Z) : 0 <= n -> (inject_Z (10 ^ n) == pow10 n)%Q.
Proof. intros H. unfold pow10. now rewrite Zpower_Qpower. Qed.

Lemma pow10_ge_1 (n : Z) : 0 <= n -> (1 <= pow10 n)%Q.
Proof. intros H. apply Qpower_1_le; [discriminate | exact H]. Qed.

Lemma pow10_lt_1 (n : Z) : n < 0 -> (pow10 n < 1)%Q.
Proof.
  intros H. change 1%Q with (pow10 0).
  apply Qpower_lt_compat_l; [exact H | reflexivity].
Qed.

Lemma bigPow10_spec (n : Z) : 0 <= n -> bigPow10 n = 10 ^ n.
Proof.
  intros H. unfold bigPow10, powTabLen.
  destruct (n <? 20) eqn:E.
  - apply Z.ltb_lt in E.
    assert (Hn : exists k, (k < 20)%nat /\ n = Z.of_nat k).
    { exists (Z.to_nat n). split; lia. }
    destruct Hn as (k & Hk & ->). rewrite Nat2Z.id.
    do 20 (destruct k as [|k]; [reflexivity|]). lia.
  - apply Z.ltb_ge in E.
    change (nth (Z.to_nat (20 - 1)) pow10bigtab 0) with (10 ^ 19).
    rewrite <- Z.pow_add_r by lia. f_equal. lia.
Qed.

(** ** Exact division with remainder *)

Lemma big_ensureInitialized (d : Decimal) : big (ensureInitialized d) = big d.
Proof. unfold ensureInitialized, big. destruct (value d) eqn:E; cbn; now rewrite ?E. Qed.

Lemma exp_ensureInitialized (d : Decimal) : exp (ensureInitialized d) = exp d.
Proof. unfold ensureInitialized. destruct (value d); reflexivity. Qed.

Lemma toQ_ensureInitialized (d : Decimal) : toQ (ensureInitialized d) = toQ d.
Proof. unfold toQ. now rewrite big_ensureInitialized, exp_ensureInitialized. Qed.

Lemma quoRem_eval (d d2 : Decimal) (p : Z) :
  big d2 <> 0 -> quoRem_in_range d d2 p ->
  quoRem d d2 p =
  Ok ({| value := Some (Z.quot (quoRem_aa d d2 p) (quoRem_bb d d2 p));
         exp := - p |},
      {| value := Some (Z.rem (quoRem_aa d d2 p) (quoRem_bb d d2 p));
         exp := if exp d - exp d2 + p <? 0 then exp d else exp d2 - p |}).
Proof.
  intros Hnz (Hp & He & Hr).
  unfold quoRem, quoRem_aa, quoRem_bb.
  rewrite !big_ensureInitialized, !exp_ensureInitialized.
  destruct (Z.sgn (big d2) =? 0) eqn:Es.
  { apply Z.eqb_eq in Es. rewrite Z.sgn_null_iff in Es. contradiction. }
  rewrite (int32_id (- p)) by exact Hp.
  rewrite int32_idem_sub.
  replace (exp d - exp d2 - - p) with (exp d - exp d2 + p) by ring.
  rewrite (int32_id _ He).
  replace ((exp d - exp d2 + p >? MaxInt32) || (exp d - exp d2 + p <? MinInt32))
    with false
    by (symmetry; apply orb_false_iff; unfold is_int32 in He; split; lia).
  destruct (exp d - exp d2 + p <? 0) eqn:Ee; cbn [fst snd].
  - reflexivity.
  - apply Z.ltb_ge in Ee. specialize (Hr Ee).
    replace (- p + exp d2) with (exp d2 - p) by ring.
    now rewrite (int32_id _ Hr).
Qed.

(** Scaling by a power of ten preserves order, sign and absolute value. *)
Lemma scaled_lt (a b e : Z) :
  (inject_Z a * pow10 e < inject_Z b * pow10 e)%Q <-> a < b.
Proof.
  rewrite (Qmult_lt_r _ _ _ (pow10_pos e)), <- Zlt_Qlt. reflexivity.
Qed.

Lemma scaled_pos (a e : Z) : (0 < inject_Z a * pow10 e)%Q <-> 0 < a.
Proof.
  rewrite <- (scaled_lt 0 a e).
  now setoid_replace (inject_Z 0 * pow10 e)%Q with 0%Q by ring.
Qed.

Lemma scaled_neg (a e : Z) : (inject_Z a * pow10 e < 0)%Q <-> a < 0.
Proof.
  rewrite <- (scaled_lt a 0 e).
  now setoid_replace (inject_Z 0 * pow10 e)%Q with 0%Q by ring.
Qed.

Lemma scaled_zero (a e : Z) : (inject_Z a * pow10 e == 0)%Q <-> a = 0.
Proof.
  pose proof (pow10_pos e) as Hp. split; intros H.
  - apply Qmult_integral in H. destruct H as [H | H].
    + unfold Qeq, inject_Z in H. cbn in H. lia.
    + rewrite H in Hp. discriminate.
  - subst a. ring.
Qed.

Lemma scaled_abs (a e : Z) :
  (Qabs (inject_Z a * pow10 e) == inject_Z (Z.abs a) * pow10 e)%Q.
Proof.
  pose proof (pow10_pos e) as Hp.
  rewrite Qabs_Qmult, (Qabs_pos (pow10 e)) by lra.
  apply Qmult_comp; [|reflexivity].
  unfold Qabs, inject_Z. cbn. reflexivity.
Qed.

Lemma quoRem_bb_nonzero (d d2 : Decimal) (p : Z) :
  big d2 <> 0 -> quoRem_bb d d2 p <> 0.
Proof.
  intros Hnz. unfold quoRem_bb.
  destruct (exp d - exp d2 + p <? 0) eqn:Ee; [|exact Hnz].
  apply Z.ltb_lt in Ee.
  apply Z.neq_mul_0. split; [exact Hnz|]. apply Z.pow_nonzero; lia.
Qed.

(** Both operands of the integer division stand for the decimals they come
    from, at the remainder's exponent. *)
Lemma quoRem_aa_toQ (d d2 : Decimal) (p : Z) :
  (toQ d == inject_Z (quoRem_aa d d2 p)
            * pow10 (if exp d - exp d2 + p <? 0 then exp d else exp d2 - p))%Q.
Proof.
  unfold toQ, quoRem_aa.
  destruct (exp d - exp d2 + p <? 0) eqn:Ee; [reflexivity|].
  apply Z.ltb_ge in Ee.
  rewrite inject_Z_mult, (pow10_Z _ Ee), <- Qmult_assoc, <- pow10_add.
  replace (exp d - exp d2 + p + (exp d2 - p)) with (exp d) by ring.
  reflexivity.
Qed.

Lemma quoRem_bb_toQ (d d2 : Decimal) (p : Z) :
  (toQ d2 * pow10 (- p)
   == inject_Z (quoRem_bb d d2 p)
      * pow10 (if exp d - exp d2 + p <? 0 then exp d else exp d2 - p))%Q.
Proof.
  unfold toQ, quoRem_bb.
  destruct (exp d - exp d2 + p <? 0) eqn:Ee.
  - apply Z.ltb_lt in Ee.
    rewrite inject_Z_mult, (pow10_Z (- (exp d - exp d2 + p))) by lia.
    rewrite <- !Qmult_assoc, <- !pow10_add.
    replace (- (exp d - exp d2 + p) + exp d) with (exp d2 + - p) by ring.
    reflexivity.
  - rewrite <- Qmult_assoc, <- pow10_add. reflexivity.
Qed.

Lemma quoRem_law (d d2 : Decimal) (p : Z) :
  big d2 <> 0 -> quoRem_in_range d d2 p ->
  exists q r, quoRem d d2 p = Ok (q, r) /\ division_law d d2 p q r.
Proof.
  intros Hnz Hin. rewrite (quoRem_eval d d2 p Hnz Hin).
  eexists. eexists. split; [reflexivity|].
  pose proof (quoRem_bb_nonzero d d2 p Hnz) as Hbb.
  pose proof (quoRem_aa_toQ d d2 p) as HA.
  pose proof (quoRem_bb_toQ d d2 p) as HB.
  revert Hbb HA HB.
  set (aa := quoRem_aa d d2 p). set (bb := quoRem_bb d d2 p).
  set (er := if exp d - exp d2 + p <? 0 then exp d else exp d2 - p).
  intros Hbb HA HB.
  pose proof (Z.quot_rem' aa bb) as Hqr.
  pose proof (Z.rem_bound_abs aa bb Hbb) as Hrb.
  pose proof (Z.rem_sign_mul aa bb Hbb) as Hrs.
  pose proof (pow10_pos (- p)) as Hpp.
  unfold division_law.
  change (toQ {| value := Some (Z.quot aa bb); exp := - p |})
    with (inject_Z (Z.quot aa bb) * pow10 (- p))%Q.
  change (toQ {| value := Some (Z.rem aa bb); exp := er |})
    with (inject_Z (Z.rem aa bb) * pow10 er)%Q.
  split; [|split; [|split]].
  - rewrite HA, Hqr at 1. rewrite inject_Z_plus, inject_Z_mult.
    transitivity (toQ d2 * pow10 (- p) * inject_Z (Z.quot aa bb)
                  + inject_Z (Z.rem aa bb) * pow10 er)%Q.
    + rewrite HB. ring.
    + ring.
  - exists (Z.quot aa bb). reflexivity.
  - rewrite scaled_abs.
    assert (HB' : (Qabs (toQ d2) * pow10 (- p)
                   == inject_Z (Z.abs bb) * pow10 er)%Q).
    { rewrite <- scaled_abs, <- HB, Qabs_Qmult, (Qabs_pos (pow10 (- p))) by lra.
      reflexivity. }
    rewrite HB'. apply scaled_lt. exact Hrb.
  - rewrite scaled_zero, HA, !scaled_pos, !scaled_neg. intros Hz.
    assert (Ha0 : aa <> 0) by (intros E0; apply Hz; rewrite E0; now apply Z.rem_0_l).
    split; split; intros Hs; nia.
Qed.

(** The division law where the exponent arithmetic stays in range.
    Whenever the divisor is not zero and none of the int32 computations of
    [quoRem] wraps (the negated precision, the exponent difference
    [d.exp - d2.exp + p], and the remainder's exponent), the pair [(q, r)]
    it returns satisfies [d = d2*q + r], [q] is an integer multiple of
    [10^(-p)], [|r| < |d2| * 10^(-p)], and a nonzero [r] has the sign of
    [d].  The precision may be negative. *)
Theorem quoRem_division_law (d d2 : Decimal) (p : Z) :
  big d2 <> 0 -> quoRem_in_range d d2 p ->
  exists q r, quoRem d d2 p = Ok (q, r) /\ division_law d d2 p q r.
Proof. exact (quoRem_law d d2 p). Qed.

Lemma quoRem_division_law_witness :
  exists q r, quoRem (New (-7) (-2)) (New 2 0) (-1) = Ok (q, r) /\
              division_law (New (-7) (-2)) (New 2 0) (-1) q r.
Proof.
  apply (quoRem_division_law (New (-7) (-2)) (New 2 0) (-1)).
  - cbn. lia.
  - unfold quoRem_in_range, is_int32, MinInt32, MaxInt32. cbn. lia.
Defined.

(** The guard of [quoRem] never fires: [e] is converted to 64 bits only
    after the subtraction has been carried out in int32, so it always lies
    within the int32 range it is tested against. *)
Lemma quoRem_guard_dead (d d2 : Decimal) (p : Z) :
  quoRem d d2 p <> Panic "overflow in decimal quoRem".
Proof.
  unfold quoRem.
  destruct (Z.sgn (big (ensureInitialized d2)) =? 0); [discriminate|].
  set (e := int32 (int32 (exp (ensureInitialized d) - exp (ensureInitialized d2))
                   - int32 (- p))).
  pose proof (int32_range
                (int32 (exp (ensureInitialized d) - exp (ensureInitialized d2))
                 - int32 (- p))) as He.
  fold e in He. unfold is_int32 in He.
  replace ((e >? MaxInt32) || (e <? MinInt32)) with false
    by (symmetry; apply orb_false_iff; split; lia).
  destruct (e <? 0); discriminate.
Qed.

(** C1: the code breaks the division law its own comment promises.  With
    both exponents at the int32 minimum and precision 1 the divisor 3e-2^31
    is not zero, [quoRem] returns normally, and the remainder's exponent
    [scale + d2.exp] has wrapped around to the int32 maximum: the
    remainder 1e2147483647 is far larger than the divisor.  No input makes
    [quoRem] abort with its overflow message. *)
Theorem quoRem_remainder_exponent_wraps :
  big (New 3 MinInt32) <> 0 /\
  quoRem (New 1 MinInt32) (New 3 MinInt32) 1
  = Ok (New 3 (-1), New 1 MaxInt32) /\
  ~ division_law (New 1 MinInt32) (New 3 MinInt32) 1
      (New 3 (-1)) (New 1 MaxInt32) /\
  (forall d d2 p, quoRem d d2 p <> Panic "overflow in decimal quoRem").
Proof.
  split; [cbn; lia|].
  split; [vm_compute; reflexivity|].
  split; [|exact quoRem_guard_dead].
  intros (_ & _ & Hb & _).
  unfold toQ in Hb. cbn [big value exp New] in Hb.
  rewrite !scaled_abs in Hb.
  change (inject_Z (Z.abs 1)) with 1%Q in Hb.
  change (inject_Z (Z.abs 3)) with 3%Q in Hb.
  assert (H1 : (pow10 (- (1)) == 1 # 10)%Q) by reflexivity.
  rewrite H1 in Hb.
  pose proof (pow10_ge_1 MaxInt32 ltac:(unfold MaxInt32; lia)) as Hx.
  pose proof (pow10_lt_1 MinInt32 ltac:(unfold MinInt32; lia)) as Ha.
  revert Hb Hx Ha.
  generalize (pow10 MaxInt32) as x. generalize (pow10 MinInt32) as a.
  intros a x Hb Hx Ha. lra.
Qed.

(** ** Multiplication by zero *)

(** C5 (as amended). Whatever the exponents, a product with a zero operand
    is the package constant [Zero] and no overflow abort happens; that
    constant has magnitude 0 and exponent 1, and stands for the number 0. *)
Theorem Mul_zero_operand (d d2 : Decimal) :
  Sign d = 0 \/ Sign d2 = 0 ->
  Mul d d2 = Ok Zero /\ value Zero = Some 0 /\ exp Zero = 1 /\
  (toQ Zero == 0)%Q.
Proof.
  intros H. unfold Mul.
  replace ((Sign d =? 0) || (Sign d2 =? 0)) with true.
  - repeat split.
  - symmetry. apply orb_true_iff. rewrite !Z.eqb_eq. exact H.
Qed.

Lemma Mul_zero_operand_witness :
  Mul (New 5 MaxInt32) Zero = Ok Zero /\ value Zero = Some 0 /\
  exp Zero = 1 /\ (toQ Zero == 0)%Q.
Proof.
  apply (Mul_zero_operand (New 5 MaxInt32) Zero). right. reflexivity.
Defined.

(** Without the short-circuit the same operands abort: the exponents sum
    to a value outside int32. *)
Lemma mul_overflow_aborts :
  mul (New 5 MaxInt32) Zero = Panic "exponent 2147483648 overflows an int32!".
Proof. reflexivity. Qed.

(** C5 (as stated) fails: the zero that [Mul] returns has exponent 1. *)
Lemma Mul_zero_operand_counterexample :
  Mul (New 5 0) Zero <> Ok (New 0 0).
Proof. vm_compute. discriminate. Qed.

(** ** Division by zero *)

Lemma quoRem_zero_divisor (d d2 : Decimal) (p : Z) :
  big d2 = 0 -> quoRem d d2 p = Panic "decimal division by 0".
Proof.
  intros H. unfold quoRem. rewrite big_ensureInitialized, H. reflexivity.
Qed.

(** C6 (as amended). With a zero divisor (a zero magnitude, allocated or
    not), [quoRem], [divRound], [div] and [mod] abort for every dividend;
    [Div] aborts for every nonzero dividend and returns [Zero] for a zero
    dividend, whose short-circuit comes before the divisor is looked at. *)
Theorem division_by_zero (d d2 : Decimal) (p incr : Z) :
  big d2 = 0 ->
  quoRem d d2 p = Panic "decimal division by 0" /\
  divRound d d2 p = Panic "decimal division by 0" /\
  div d d2 = Panic "decimal division by 0" /\
  mod_ d d2 = Panic "decimal division by 0" /\
  (Sign d <> 0 -> Div d d2 incr = Panic "decimal division by 0") /\
  (Sign d = 0 -> Div d d2 incr = Ok Zero).
Proof.
  intros H. split; [now apply quoRem_zero_divisor|].
  split; [unfold divRound; now rewrite quoRem_zero_divisor|].
  split; [unfold div, divRound; now rewrite quoRem_zero_divisor|].
  split; [unfold mod_, divRound; now rewrite quoRem_zero_divisor|].
  unfold Div. split; intros Hs.
  - apply Z.eqb_neq in Hs. rewrite Hs. now rewrite quoRem_zero_divisor.
  - apply Z.eqb_eq in Hs. now rewrite Hs.
Qed.

Lemma division_by_zero_witness :
  quoRem (New 7 (-2)) (New 0 3) 4 = Panic "decimal division by 0" /\
  divRound (New 7 (-2)) (New 0 3) 4 = Panic "decimal division by 0" /\
  div (New 7 (-2)) (New 0 3) = Panic "decimal division by 0" /\
  mod_ (New 7 (-2)) (New 0 3) = Panic "decimal division by 0" /\
  (Sign (New 7 (-2)) <> 0 ->
   Div (New 7 (-2)) (New 0 3) 4 = Panic "decimal division by 0") /\
  (Sign (New 7 (-2)) = 0 -> Div (New 7 (-2)) (New 0 3) 4 = Ok Zero).
Proof. apply (division_by_zero (New 7 (-2)) (New 0 3) 4 4). reflexivity. Defined.

(** C6 (as stated) fails for [Div] with a zero dividend: no abort. *)
Lemma division_by_zero_counterexample :
  big Zero = 0 /\ Div (New 0 0) Zero 4 = Ok Zero.
Proof. split; reflexivity. Qed.

(** ** Scale-adaptive division *)

Ltac int32_unwrap t :=
  rewrite (int32_id t)
    by (unfold is_int32, MinInt32, MaxInt32;
        Z.to_euclidean_division_equations; lia).

Lemma Div_scale_spec (d d2 : Decimal) (incr : Z) :
  Div_in_range d d2 incr ->
  let s1 := - exp d in
  let s2 := - exp d2 in
  let fracLeft := Z.quot (s1 + 8) 9 in
  let fracRight := Z.quot (s2 + 8) 9 in
  let adj := Z.max 0 (incr - (fracLeft - s1 + fracRight - s2)) in
  Div_scale d d2 incr = Z.quot (fracLeft + fracRight + adj + 8) 9 * 9.
Proof.
  intros (Hd & Hd2 & Hi). cbv zeta. unfold Div_scale, roundBase10.
  int32_unwrap (- exp d). int32_unwrap (- exp d2).
  int32_unwrap (- exp d + 8). int32_unwrap (- exp d2 + 8).
  set (fl := Z.quot (- exp d + 8) 9). set (fr := Z.quot (- exp d2 + 8) 9).
  assert (Hfl : - 29826162 <= fl <= 29826162)
    by (unfold fl; Z.to_euclidean_division_equations; lia).
  assert (Hfr : - 29826162 <= fr <= 29826162)
    by (unfold fr; Z.to_euclidean_division_equations; lia).
  int32_unwrap (fl - - exp d). int32_unwrap (fl - - exp d + fr).
  int32_unwrap (fl - - exp d + fr - - exp d2).
  int32_unwrap (incr - (fl - - exp d + fr - - exp d2)).
  replace (if incr - (fl - - exp d + fr - - exp d2) <? 0 then 0
           else incr - (fl - - exp d + fr - - exp d2))
    with (Z.max 0 (incr - (fl - - exp d + fr - - exp d2)))
    by (destruct (Z.ltb_spec (incr - (fl - - exp d + fr - - exp d2)) 0); lia).
  set (adj := Z.max 0 (incr - (fl - - exp d + fr - - exp d2))).
  assert (Hadj : 0 <= adj <= 4 * 268435456) by (unfold adj; lia).
  int32_unwrap (fl + fr). int32_unwrap (fl + fr + adj).
  int32_unwrap (fl + fr + adj + 8).
  int32_unwrap (Z.quot (fl + fr + adj + 8) 9 * 9).
  reflexivity.
Qed.

Lemma Div_scale_in_range (d d2 : Decimal) (incr : Z) :
  Div_in_range d d2 incr -> quoRem_in_range d d2 (Div_scale d d2 incr).
Proof.
  intros H. pose proof (Div_scale_spec d d2 incr H) as E. cbv zeta in E.
  destruct H as (Hd & Hd2 & Hi). rewrite E. clear E.
  set (fl := Z.quot (- exp d + 8) 9). set (fr := Z.quot (- exp d2 + 8) 9).
  assert (Hfl : 9 * fl - 8 <= - exp d + 8 <= 9 * fl + 8)
    by (unfold fl; Z.to_euclidean_division_equations; lia).
  assert (Hfr : 9 * fr - 8 <= - exp d2 + 8 <= 9 * fr + 8)
    by (unfold fr; Z.to_euclidean_division_equations; lia).
  set (adj := Z.max 0 (incr - (fl - - exp d + fr - - exp d2))).
  assert (Hadj : 0 <= adj /\ incr - (fl - - exp d + fr - - exp d2) <= adj
                 /\ adj <= Z.abs (incr - (fl - - exp d + fr - - exp d2)))
    by (unfold adj; lia).
  clearbody adj fl fr.
  set (sc := Z.quot (fl + fr + adj + 8) 9 * 9).
  assert (Hsc : fl + fr + adj - 8 <= sc <= fl + fr + adj + 16)
    by (unfold sc; Z.to_euclidean_division_equations; lia).
  clearbody sc.
  unfold quoRem_in_range, is_int32, MinInt32, MaxInt32.
  split; [lia|]. split; [lia|]. intros _. lia.
Qed.

(** For operands without positive exponents the padding terms of [Div]
    cancel: the scale is the sum of the two counts of fractional digits
    and the increment, rounded up to the next multiple of 9. *)
Lemma Div_scale_sum (d d2 : Decimal) (incr : Z) :
  Div_in_range d d2 incr -> exp d <= 0 -> exp d2 <= 0 ->
  Div_scale d d2 incr = round_up_9 (- exp d - exp d2 + incr).
Proof.
  intros Hin H1 H2. pose proof (Div_scale_spec d d2 incr Hin) as E.
  cbv zeta in E. rewrite E. clear E. destruct Hin as (Hd & Hd2 & Hi).
  unfold round_up_9.
  set (fl := Z.quot (- exp d + 8) 9). set (fr := Z.quot (- exp d2 + 8) 9).
  assert (Hfl : 0 <= fl <= - exp d)
    by (unfold fl; Z.to_euclidean_division_equations; lia).
  assert (Hfr : 0 <= fr <= - exp d2)
    by (unfold fr; Z.to_euclidean_division_equations; lia).
  rewrite Z.max_r by lia.
  replace (fl + fr + (incr - (fl - - exp d + fr - - exp d2)) + 8)
    with (- exp d - exp d2 + incr + 8) by ring.
  rewrite Z.quot_div_nonneg by lia. ring.
Qed.

Lemma Div_scale_multiple_of_9 (d d2 : Decimal) (incr : Z) :
  Div_in_range d d2 incr -> (9 | Div_scale d d2 incr).
Proof.
  intros Hin. pose proof (Div_scale_spec d d2 incr Hin) as E.
  cbv zeta in E. rewrite E. apply Z.divide_factor_r.
Qed.

(** C4 (as amended). For nonzero operands whose exponents and increment
    stay within 2^28 in magnitude, [Div] returns the quotient of the
    truncating division [quoRem] at the scale it derives: the division
    law holds with a remainder on the dividend's side, so the quotient is
    cut toward zero, not rounded.  That scale is a multiple of 9 and, for
    operands without positive exponents, at least the sum of the two
    counts of fractional digits and the increment. *)
Theorem Div_scale_and_truncation (d d2 : Decimal) (incr : Z) :
  Sign d <> 0 -> big d2 <> 0 -> Div_in_range d d2 incr ->
  exists q r scale,
    Div d d2 incr = Ok q /\ quoRem d d2 scale = Ok (q, r) /\
    exp q = - scale /\ division_law d d2 scale q r /\
    (9 | scale) /\
    (exp d <= 0 -> exp d2 <= 0 -> 0 <= - exp d - exp d2 + incr <= scale).
Proof.
  intros Hs Hnz Hin.
  pose proof (Div_scale_in_range d d2 incr Hin) as Hr.
  pose proof (Div_scale_multiple_of_9 d d2 incr Hin) as H9.
  pose proof (Div_scale_sum d d2 incr Hin) as Hsum.
  unfold Div. apply Z.eqb_neq in Hs. rewrite Hs.
  destruct Hin as (_ & _ & Hi).
  revert Hr H9 Hsum. generalize (Div_scale d d2 incr). intros sc Hr H9 Hsum.
  destruct (quoRem_law d d2 sc Hnz Hr) as (q & r & Hq & Hlaw).
  exists q, r, sc. rewrite Hq. cbn [bind fst].
  split; [reflexivity|]. split; [reflexivity|].
  split.
  { rewrite (quoRem_eval d d2 sc Hnz Hr) in Hq.
    injection Hq as Eq _. rewrite <- Eq. reflexivity. }
  split; [exact Hlaw|]. split; [exact H9|].
  intros H1 H2. rewrite (Hsum H1 H2). unfold round_up_9.
  clear - Hi H1 H2. revert H1 H2. generalize (exp d), (exp d2).
  intros e1 e2 H1 H2. split; [lia|].
  pose proof (Z.div_mod (- e1 - e2 + incr + 8) 9 ltac:(lia)) as E.
  pose proof (Z.mod_pos_bound (- e1 - e2 + incr + 8) 9 ltac:(lia)) as B.
  lia.
Qed.

Lemma Div_scale_and_truncation_witness :
  exists q r scale,
    Div (New 2 0) (New 3 (-2)) 4 = Ok q /\
    quoRem (New 2 0) (New 3 (-2)) scale = Ok (q, r) /\
    exp q = - scale /\ division_law (New 2 0) (New 3 (-2)) scale q r /\
    (9 | scale) /\
    (exp (New 2 0) <= 0 -> exp (New 3 (-2)) <= 0 ->
     0 <= - exp (New 2 0) - exp (New 3 (-2)) + 4 <= scale).
Proof.
  apply (Div_scale_and_truncation (New 2 0) (New 3 (-2)) 4).
  - cbn. lia.
  - cbn. lia.
  - unfold Div_in_range. cbn. lia.
Defined.

(** C4 (as stated) fails twice.  [Div] does not round: at scale 0, 2/3
    comes back as 0, whereas the rounding division gives 1.  And the scale
    is not the sum of the operands' digit counts each rounded up to a
    multiple of 9: with 10 fractional digits on both sides and increment
    4 that rule gives 36, and [Div] works at 27. *)
Lemma Div_scale_and_truncation_counterexample :
  Div_scale (New 2 0) (New 3 0) 0 = 0 /\
  Div (New 2 0) (New 3 0) 0 = Ok (New 0 0) /\
  divRound (New 2 0) (New 3 0) 0 = Ok (New 1 0) /\
  Div_scale (New 1 (-10)) (New 3 (-10)) 4 = 27 /\
  scale_per_operand 10 10 4 = 36 /\
  (exists q, Div (New 1 (-10)) (New 3 (-10)) 4 = Ok q /\ exp q = - 27).
Proof.
  repeat split; try (vm_compute; reflexivity).
  eexists. split; vm_compute; reflexivity.
Qed.

(** ** Rescaling and comparison *)

Lemma uint64_int32_small (k : Z) :
  0 <= k <= MaxInt32 -> uint64 (int32 k) = k.
Proof.
  intros H. rewrite int32_id by (unfold is_int32, MinInt32, MaxInt32 in *; lia).
  unfold uint64, MaxInt32 in *. apply Z.mod_small. lia.
Qed.

Lemma value_ensureInitialized (d : Decimal) :
  value (ensureInitialized d) = Some (big d).
Proof. unfold ensureInitialized, big. destruct (value d) eqn:E; cbn; now rewrite ?E. Qed.

Lemma ensureInitialized_idem (d : Decimal) :
  ensureInitialized (ensureInitialized d) = ensureInitialized d.
Proof. unfold ensureInitialized. destruct (value d) eqn:E; cbn; now rewrite ?E. Qed.

(** Lowering the exponent multiplies the magnitude: exact. *)
Lemma rescale_down (d : Decimal) (e : Z) :
  e <= exp d -> exp d - e <= MaxInt32 ->
  rescale d e = {| value := Some (big d * 10 ^ (exp d - e)); exp := e |}.
Proof.
  intros H1 H2. unfold rescale.
  rewrite big_ensureInitialized, exp_ensureInitialized, Z.gtb_ltb.
  destruct (Z.ltb_spec (exp d) e) as [Hlt' | _]; [lia|].
  destruct (Z.ltb_spec e (exp d)) as [Hlt | Hge].
  - rewrite uint64_int32_small, bigPow10_spec by lia. reflexivity.
  - replace (exp d - e) with 0 by lia. now rewrite Z.mul_1_r.
Qed.

(** Raising the exponent cuts the magnitude toward zero. *)
Lemma rescale_up (d : Decimal) (e : Z) :
  exp d <= e -> e - exp d <= MaxInt32 ->
  rescale d e = {| value := Some (Z.quot (big d) (10 ^ (e - exp d))); exp := e |}.
Proof.
  intros H1 H2. unfold rescale.
  rewrite big_ensureInitialized, exp_ensureInitialized, Z.gtb_ltb.
  destruct (Z.ltb_spec (exp d) e) as [Hlt | Hge].
  - rewrite uint64_int32_small, bigPow10_spec by lia. reflexivity.
  - destruct (Z.ltb_spec e (exp d)) as [Hlt' | _]; [lia|].
    replace (e - exp d) with 0 by lia. now rewrite Z.quot_1_r.
Qed.

(** [Cmp] compares the magnitudes brought to the smaller exponent. *)
Lemma Cmp_eval (x y : Decimal) :
  - MaxInt32 <= exp x - exp y <= MaxInt32 ->
  Cmp x y = bigCmp (big x * 10 ^ (exp x - Z.min (exp x) (exp y)))
                   (big y * 10 ^ (exp y - Z.min (exp x) (exp y))).
Proof.
  intros H. unfold Cmp, RescalePair.
  rewrite !ensureInitialized_idem, !big_ensureInitialized, !exp_ensureInitialized.
  destruct (Z.eqb_spec (exp x) (exp y)) as [E | E].
  - rewrite E, Z.min_id, Z.sub_diag, !Z.mul_1_r. reflexivity.
  - unfold min. destruct (Z.geb_spec (exp x) (exp y)) as [G | G].
    + replace (exp y =? exp x) with false by (symmetry; apply Z.eqb_neq; lia).
      cbn [negb]. rewrite rescale_down
        by (rewrite ?exp_ensureInitialized; lia).
      rewrite big_ensureInitialized, exp_ensureInitialized. cbn [big value].
      rewrite Z.min_r by lia.
      rewrite Z.sub_diag, Z.mul_1_r, ?big_ensureInitialized. reflexivity.
    + rewrite Z.eqb_refl. cbn [negb]. rewrite rescale_down
        by (rewrite ?exp_ensureInitialized; lia).
      rewrite big_ensureInitialized, exp_ensureInitialized. cbn [big value].
      rewrite Z.min_l by lia.
      rewrite Z.sub_diag, Z.mul_1_r, ?big_ensureInitialized. reflexivity.
Qed.

Lemma bigCmp_lt (x y : Z) : (bigCmp x y <? 0) = (x <? y).
Proof.
  unfold bigCmp. destruct (Z.compare_spec x y), (Z.ltb_spec x y);
    try reflexivity; lia.
Qed.

Lemma bigCmp_eq (x y : Z) : (bigCmp x y =? 0) = (x =? y).
Proof.
  unfold bigCmp. destruct (Z.compare_spec x y), (Z.eqb_spec x y);
    try reflexivity; lia.
Qed.

Lemma big_abs (d : Decimal) : big (abs d) = Z.abs (big d).
Proof.
  unfold abs, Sign, big, ensureInitialized.
  destruct (value d) as [v|] eqn:E; cbn; rewrite ?E; [|reflexivity].
  destruct (Z.geb_spec (Z.sgn v) 0); cbn; rewrite ?E; lia.
Qed.

Lemma exp_abs (d : Decimal) : exp (abs d) = exp d.
Proof. unfold abs. destruct (Sign d >=? 0); reflexivity. Qed.

(** ** Rounding division *)

Lemma divRound_eval (d d2 : Decimal) (p : Z) :
  big d2 <> 0 -> divRound_in_range d d2 p ->
  divRound d d2 p =
  Ok {| value := Some (Z.quot (quoRem_aa d d2 p) (quoRem_bb d d2 p)
                       + divRound_adjust d d2 p);
        exp := - p |}.
Proof.
  intros Hnz (Hq & Hp & Hd2 & He & Hr2).
  unfold divRound. rewrite (quoRem_eval d d2 p Hnz Hq). cbn [bind].
  cbn [big value exp].
  pose proof (quoRem_bb_nonzero d d2 p Hnz) as Hbb.
  pose proof (Z.rem_bound_abs (quoRem_aa d d2 p) (quoRem_bb d d2 p) Hbb) as Hrb.
  assert (Hc : Cmp {| value := Some (Z.shiftl (Z.abs (Z.rem (quoRem_aa d d2 p)
                                                      (quoRem_bb d d2 p))) 1);
                      exp := int32 ((if exp d - exp d2 + p <? 0 then exp d
                                     else exp d2 - p) + p) |} (abs d2)
               = bigCmp (2 * Z.abs (Z.rem (quoRem_aa d d2 p) (quoRem_bb d d2 p)))
                        (Z.abs (quoRem_bb d d2 p))).
  { destruct Hq as (Hq1 & Hq2 & Hq3). unfold is_int32, MinInt32, MaxInt32 in *.
    rewrite Z.shiftl_mul_pow2 by lia. change (2 ^ 1) with 2.
    unfold quoRem_bb at 3.
    destruct (Z.ltb_spec (exp d - exp d2 + p) 0) as [Hlt | Hge].
    - specialize (Hr2 Hlt).
      rewrite int32_id by (unfold is_int32, MinInt32, MaxInt32; lia).
      rewrite Cmp_eval by (cbn [exp]; rewrite exp_abs; unfold MaxInt32; lia).
      cbn [big value exp]. rewrite exp_abs, big_abs.
      rewrite Z.min_l by lia. rewrite Z.sub_diag, Z.mul_1_r.
      rewrite Z.abs_mul, (Z.abs_eq (10 ^ _)) by (apply Z.pow_nonneg; lia).
      f_equal; [lia|]. f_equal. f_equal. lia.
    - replace (exp d2 - p + p) with (exp d2) by ring.
      rewrite int32_id by (unfold is_int32, MinInt32, MaxInt32; lia).
      rewrite Cmp_eval by (cbn [exp]; rewrite exp_abs; unfold MaxInt32; lia).
      cbn [big value exp]. rewrite exp_abs, big_abs.
      rewrite Z.min_id, Z.sub_diag, !Z.mul_1_r. f_equal. lia. }
  rewrite Hc. unfold divRound_adjust.
  rewrite int32_id by (destruct Hq as (Hq1 & _); exact Hq1).
  destruct (bigCmp _ _ <? 0) eqn:Ec.
  { now rewrite Z.add_0_r. }
  rewrite bigCmp_lt in Ec. apply Z.ltb_ge in Ec.
  assert (Hv2 : value d2 = Some (big d2)).
  { unfold big in *. destruct (value d2); [reflexivity | contradiction]. }
  assert (Hv : value d = Some (big d)).
  { unfold big. destruct (value d) eqn:Ev; [reflexivity | exfalso].
    assert (Ha : quoRem_aa d d2 p = 0).
    { unfold quoRem_aa, big. rewrite Ev. now destruct (_ <? 0). }
    rewrite Ha, Z.rem_0_l in * by exact Hbb. cbn in Ec. lia. }
  rewrite Hv, Hv2. cbn [deref bind].
  destruct (Z.sgn (big d) * Z.sgn (big d2) <? 0).
  - unfold sub, RescalePair, New. cbn [ensureInitialized value exp big].
    rewrite Z.eqb_refl. cbn [big value exp]. reflexivity.
  - unfold Add, RescalePair, New. cbn [ensureInitialized value exp big].
    rewrite Z.eqb_refl. cbn [big value exp]. reflexivity.
Qed.

(** The integer heart of [divRound]: the truncated quotient, moved one
    unit away from zero when twice the remainder reaches the divisor, is
    the nearest integer to [aa / bb] with ties away from zero. *)
Lemma quot_round_bounds (aa bb : Z) :
  bb <> 0 ->
  let r := Z.rem aa bb in
  let adj := if 2 * Z.abs r <? Z.abs bb then 0
             else if Z.sgn aa * Z.sgn bb <? 0 then -1 else 1 in
  let y := Z.quot aa bb + adj in
  2 * Z.abs aa - Z.abs bb < 2 * Z.abs y * Z.abs bb /\
  2 * Z.abs y * Z.abs bb <= 2 * Z.abs aa + Z.abs bb /\
  (0 < y -> 0 < aa * bb) /\ (y < 0 -> aa * bb < 0).
Proof.
  intros Hbb. cbv zeta.
  pose proof (Z.quot_rem' aa bb) as Hqr.
  pose proof (Z.rem_bound_abs aa bb Hbb) as Hrb.
  pose proof (Z.rem_sign_mul aa bb Hbb) as Hrs.
  assert (Hqs : 0 <= Z.quot aa bb * (aa * bb)).
  { destruct (Z.le_gt_cases 0 aa), (Z.le_gt_cases 0 bb).
    - pose proof (Z.quot_pos aa bb); nia.
    - pose proof (Z.quot_opp_r aa bb Hbb).
      pose proof (Z.quot_pos aa (- bb)). nia.
    - pose proof (Z.quot_opp_l aa bb Hbb).
      pose proof (Z.quot_pos (- aa) bb). nia.
    - pose proof (Z.quot_opp_opp aa bb Hbb).
      pose proof (Z.quot_pos (- aa) (- bb)). nia. }
  assert (Hr0a : aa = 0 -> Z.rem aa bb = 0)
    by (intros ->; now apply Z.rem_0_l).
  set (q := Z.quot aa bb) in *. set (r := Z.rem aa bb) in *.
  clearbody q r.
  destruct (Z.ltb_spec (2 * Z.abs r) (Z.abs bb)) as [Hlt | Hge].
  - rewrite Z.add_0_r.
    destruct (Z.le_gt_cases 0 aa), (Z.le_gt_cases 0 bb),
      (Z.le_gt_cases 0 q), (Z.le_gt_cases 0 r);
      repeat split; try nia.
  - rewrite <- Z.sgn_mul.
    assert (Hr0 : r <> 0) by lia.
    assert (Ha0 : aa <> 0) by (intros E0; apply Hr0; auto).
    destruct (Z.ltb_spec (Z.sgn (aa * bb)) 0) as [Hs | Hs].
    + apply Z.sgn_neg_iff in Hs.
      destruct (Z.le_gt_cases 0 aa), (Z.le_gt_cases 0 bb),
        (Z.le_gt_cases 0 q), (Z.le_gt_cases 0 r);
        repeat split; try nia.
    + apply Z.sgn_nonneg in Hs.
      destruct (Z.le_gt_cases 0 aa), (Z.le_gt_cases 0 bb),
        (Z.le_gt_cases 0 q), (Z.le_gt_cases 0 r);
        repeat split; try nia.
Qed.

Lemma scaled_le (a b e : Z) :
  (inject_Z a * pow10 e <= inject_Z b * pow10 e)%Q <-> a <= b.
Proof.
  rewrite (Qmult_le_r _ _ _ (pow10_pos e)), <- Zle_Qle. reflexivity.
Qed.

Lemma toQ_mul_sign (d d2 : Decimal) :
  (toQ d * toQ d2
   == inject_Z (big d * big d2) * pow10 (exp d + exp d2))%Q.
Proof. unfold toQ. rewrite inject_Z_mult, pow10_add. ring. Qed.

Lemma quoRem_aa_sgn (d d2 : Decimal) (p : Z) :
  Z.sgn (quoRem_aa d d2 p) = Z.sgn (big d).
Proof.
  unfold quoRem_aa. destruct (Z.ltb_spec (exp d - exp d2 + p) 0); [reflexivity|].
  rewrite Z.sgn_mul, (Z.sgn_pos (10 ^ _)) by (apply Z.pow_pos_nonneg; lia). lia.
Qed.

Lemma quoRem_bb_sgn (d d2 : Decimal) (p : Z) :
  Z.sgn (quoRem_bb d d2 p) = Z.sgn (big d2).
Proof.
  unfold quoRem_bb. destruct (Z.ltb_spec (exp d - exp d2 + p) 0); [|reflexivity].
  rewrite Z.sgn_mul, (Z.sgn_pos (10 ^ _)) by (apply Z.pow_pos_nonneg; lia). lia.
Qed.

Lemma divRound_rounds (d d2 : Decimal) (p : Z) :
  big d2 <> 0 -> divRound_in_range d d2 p ->
  exists y, divRound d d2 p = Ok y /\
            rounded_half_away (toQ d) (toQ d2) p y.
Proof.
  intros Hnz Hin. rewrite (divRound_eval d d2 p Hnz Hin).
  eexists. split; [reflexivity|].
  pose proof (quoRem_bb_nonzero d d2 p Hnz) as Hbb.
  pose proof (quoRem_aa_toQ d d2 p) as HA.
  pose proof (quoRem_bb_toQ d d2 p) as HB.
  pose proof (quot_round_bounds (quoRem_aa d d2 p) _ Hbb) as HZ.
  cbv zeta in HZ.
  rewrite quoRem_aa_sgn, quoRem_bb_sgn in HZ.
  unfold divRound_adjust. rewrite bigCmp_lt.
  revert HZ.
  set (y := Z.quot (quoRem_aa d d2 p) (quoRem_bb d d2 p) + _).
  intros (H1 & H2 & H3 & H4).
  assert (Hsg : Z.sgn (quoRem_aa d d2 p * quoRem_bb d d2 p)
                = Z.sgn (big d * big d2))
    by now rewrite !Z.sgn_mul, quoRem_aa_sgn, quoRem_bb_sgn.
  revert HA HB H1 H2 H3 H4 Hsg.
  set (aa := quoRem_aa d d2 p). set (bb := quoRem_bb d d2 p).
  set (er := if exp d - exp d2 + p <? 0 then exp d else exp d2 - p).
  intros HA HB H1 H2 H3 H4 Hsg.
  pose proof (pow10_pos (- p)) as Hpp.
  unfold rounded_half_away.
  change (toQ {| value := Some y; exp := - p |})
    with (inject_Z y * pow10 (- p))%Q.
  assert (HW : (Qabs (toQ d2) * Qabs (inject_Z y * pow10 (- p))
                == inject_Z (Z.abs y * Z.abs bb) * pow10 er)%Q).
  { rewrite scaled_abs.
    transitivity (inject_Z (Z.abs y) * (Qabs (toQ d2 * pow10 (- p))))%Q.
    - rewrite Qabs_Qmult, (Qabs_pos (pow10 (- p))) by lra. ring.
    - rewrite HB, scaled_abs, inject_Z_mult. ring. }
  assert (HU : (Qabs (toQ d2) * pow10 (- p) == inject_Z (Z.abs bb) * pow10 er)%Q).
  { rewrite <- scaled_abs, <- HB, Qabs_Qmult, (Qabs_pos (pow10 (- p))) by lra.
    reflexivity. }
  assert (HX : (Qabs (toQ d) == inject_Z (Z.abs aa) * pow10 er)%Q)
    by now rewrite HA, scaled_abs.
  split; [exists y; reflexivity|]. split; [|split; [|split]].
  - rewrite <- Qmult_assoc, HW, HU, HX.
    assert (H1' : 2 * Z.abs aa < 2 * Z.abs y * Z.abs bb + Z.abs bb) by lia.
    clear H1. rename H1' into H1.
    apply (proj2 (scaled_lt _ _ er)) in H1.
    rewrite inject_Z_plus, !inject_Z_mult in H1.
    rewrite inject_Z_mult. change (inject_Z 2) with 2%Q in H1. lra.
  - rewrite <- Qmult_assoc, HW, HU, HX.
    apply (proj2 (scaled_le _ _ er)) in H2.
    rewrite inject_Z_plus, !inject_Z_mult in H2.
    rewrite inject_Z_mult. change (inject_Z 2) with 2%Q in H2. lra.
  - rewrite scaled_pos, toQ_mul_sign, scaled_pos. intros Hy.
    specialize (H3 Hy). apply Z.sgn_pos_iff. rewrite <- Hsg.
    now apply Z.sgn_pos_iff.
  - rewrite scaled_neg, toQ_mul_sign, scaled_neg. intros Hy.
    specialize (H4 Hy). apply Z.sgn_neg_iff. rewrite <- Hsg.
    now apply Z.sgn_neg_iff.
Qed.

(** ** Round *)

Lemma round_last_spec (t : Z) :
  2 * Z.abs t - 10 < 20 * Z.abs (round_last t) /\
  20 * Z.abs (round_last t) <= 2 * Z.abs t + 10 /\
  (0 < round_last t -> 0 < t) /\ (round_last t < 0 -> t < 0).
Proof.
  unfold round_last. rewrite bigCmp_eq.
  destruct (Z.ltb_spec (Z.sgn t) 0) as [Hs | Hs].
  - apply Z.sgn_neg_iff in Hs.
    destruct (Z.ltb_spec (Z.sgn ((t - 5) / 10)) 0) as [Hw | Hw];
      [apply Z.sgn_neg_iff in Hw | apply Z.sgn_nonneg in Hw];
      destruct (Z.eqb_spec ((t - 5) mod 10) 0); cbn [andb negb];
      Z.div_mod_to_equations; lia.
  - apply Z.sgn_nonneg in Hs.
    destruct (Z.ltb_spec (Z.sgn ((t + 5) / 10)) 0) as [Hw | Hw];
      [apply Z.sgn_neg_iff in Hw | apply Z.sgn_nonneg in Hw];
      destruct (Z.eqb_spec ((t + 5) mod 10) 0); cbn [andb negb];
      Z.div_mod_to_equations; lia.
Qed.

Lemma round_last_opp (t : Z) : round_last (- t) = - round_last t.
Proof.
  unfold round_last. rewrite !bigCmp_eq.
  destruct (Z.ltb_spec (Z.sgn t) 0) as [Hs | Hs];
    [apply Z.sgn_neg_iff in Hs | apply Z.sgn_nonneg in Hs];
    (destruct (Z.ltb_spec (Z.sgn (- t)) 0) as [Hs' | Hs'];
     [apply Z.sgn_neg_iff in Hs' | apply Z.sgn_nonneg in Hs']);
    repeat match goal with
           | |- context [Z.sgn ?x <? 0] =>
               let Hw := fresh "Hw" in
               destruct (Z.ltb_spec (Z.sgn x) 0) as [Hw | Hw];
               [apply Z.sgn_neg_iff in Hw | apply Z.sgn_nonneg in Hw]
           | |- context [?x =? 0] => destruct (Z.eqb_spec x 0)
           end; cbn [andb negb]; Z.div_mod_to_equations; lia.
Qed.

Lemma round_last_exact (c : Z) : round_last (10 * c) = c.
Proof.
  unfold round_last. rewrite !bigCmp_eq.
  repeat match goal with
         | |- context [Z.sgn ?x <? 0] =>
             let Hw := fresh "Hw" in
             destruct (Z.ltb_spec (Z.sgn x) 0) as [Hw | Hw];
             [apply Z.sgn_neg_iff in Hw | apply Z.sgn_nonneg in Hw]
         | |- context [?x =? 0] => destruct (Z.eqb_spec x 0)
         end; cbn [andb negb]; Z.div_mod_to_equations; lia.
Qed.

Lemma Round_unfold (d : Decimal) (places : Z) :
  Round d places =
  if exp d =? int32 (- places) then d
  else {| value := Some (round_last
                           (big (rescale d (int32 (int32 (- places) - 1)))));
          exp := int32 (exp (rescale d (int32 (int32 (- places) - 1))) + 1) |}.
Proof. reflexivity. Qed.

Lemma exp_rescale (d : Decimal) (e : Z) : exp (rescale d e) = e.
Proof.
  unfold rescale. destruct (e >? _); [reflexivity|].
  destruct (e <? _); reflexivity.
Qed.

Lemma bigPow10_uint64_nonzero (z : Z) : bigPow10 (uint64 z) <> 0.
Proof.
  assert (0 <= uint64 z)
    by (unfold uint64; apply Z.mod_pos_bound; lia).
  rewrite bigPow10_spec by assumption. apply Z.pow_nonzero; lia.
Qed.

Lemma rescale_Neg (d : Decimal) (e : Z) :
  rescale (Neg d) e = Neg (rescale d e).
Proof.
  unfold rescale, Neg.
  cbn [ensureInitialized value exp big].
  rewrite ?big_ensureInitialized, ?exp_ensureInitialized.
  destruct (e >? exp d).
  - cbn [ensureInitialized value exp big].
    now rewrite Z.quot_opp_l by apply bigPow10_uint64_nonzero.
  - destruct (e <? exp d); cbn [ensureInitialized value exp big];
      [now rewrite Z.mul_opp_l | reflexivity].
Qed.

(** Rounding commutes with negation, on every input. *)
Lemma Round_Neg (d : Decimal) (places : Z) :
  Round (Neg d) places = Neg (Round d places).
Proof.
  rewrite !Round_unfold.
  assert (E : exp (Neg d) = exp d)
    by (unfold Neg; cbn; apply exp_ensureInitialized).
  rewrite E. destruct (exp d =? int32 (- places)); [reflexivity|].
  rewrite rescale_Neg.
  unfold Neg. cbn [ensureInitialized value exp big].
  rewrite big_ensureInitialized, exp_ensureInitialized, exp_rescale.
  now rewrite round_last_opp.
Qed.

Lemma round_trunc_bounds (v P : Z) :
  0 < P ->
  2 * Z.abs v - 10 * P < 20 * Z.abs (round_last (Z.quot v P)) * P /\
  20 * Z.abs (round_last (Z.quot v P)) * P <= 2 * Z.abs v + 10 * P /\
  (0 < round_last (Z.quot v P) -> 0 < v) /\
  (round_last (Z.quot v P) < 0 -> v < 0).
Proof.
  intros HP.
  destruct (round_last_spec (Z.quot v P)) as (H1 & H2 & H3 & H4).
  pose proof (Z.quot_rem' v P) as Hqr.
  pose proof (Z.rem_bound_abs v P ltac:(lia)) as Hrb.
  pose proof (Z.rem_sign_mul v P ltac:(lia)) as Hrs.
  assert (Hqs : 0 <= Z.quot v P * v).
  { destruct (Z.le_gt_cases 0 v).
    - pose proof (Z.quot_pos v P); nia.
    - pose proof (Z.quot_opp_l v P ltac:(lia)).
      pose proof (Z.quot_pos (- v) P). nia. }
  assert (Hv : Z.abs v = P * Z.abs (Z.quot v P) + Z.abs (Z.rem v P)).
  { pose proof (Z.quot_rem' (Z.abs v) (Z.abs P)) as Ha.
    rewrite Z.quot_abs, Z.rem_abs, (Z.abs_eq P) in Ha by lia. exact Ha. }
  set (t := Z.quot v P) in *. set (r := Z.rem v P) in *.
  set (w := round_last t) in *. clearbody t r w.
  assert (Hlo : P * (2 * Z.abs t - 8) <= P * (20 * Z.abs w))
    by (apply Z.mul_le_mono_nonneg_l; lia).
  assert (Hhi : P * (20 * Z.abs w) <= P * (2 * Z.abs t + 10))
    by (apply Z.mul_le_mono_nonneg_l; lia).
  repeat split; try nia.
Qed.

Lemma Qabs_1 : (Qabs 1 == 1)%Q.
Proof. reflexivity. Qed.

Lemma Round_rounds (d : Decimal) (places : Z) :
  Round_in_range d places ->
  rounded_half_away (toQ d) 1 places (Round d places).
Proof.
  intros (Hp & Hd & Hk). unfold is_int32, MinInt32, MaxInt32 in *.
  rewrite Round_unfold, exp_rescale.
  rewrite (int32_id (- places))
    by (unfold is_int32, MinInt32, MaxInt32; lia).
  rewrite (int32_id (- places - 1))
    by (unfold is_int32, MinInt32, MaxInt32; lia).
  replace (- places - 1 + 1) with (- places) by ring.
  rewrite (int32_id (- places))
    by (unfold is_int32, MinInt32, MaxInt32; lia).
  pose proof (pow10_pos (- places)) as Hpp.
  pose proof (Qabs_nonneg (toQ d)) as Hn.
  unfold rounded_half_away.
  destruct (Z.eqb_spec (exp d) (- places)) as [E | E].
  { split; [exists (big d); rewrite <- E; reflexivity|]. rewrite Qabs_1.
    repeat split; intros; lra. }
  split; [eexists; reflexivity|].
  destruct (Z.lt_ge_cases (exp d) (- places)) as [Hlt | Hge].
  - (* digits are dropped *)
    rewrite rescale_up by (unfold MaxInt32; lia). cbn [big value].
    set (k := - places - 1 - exp d).
    assert (Hk0 : 0 <= k) by (unfold k; lia).
    pose proof (round_trunc_bounds (big d) (10 ^ k)
                  ltac:(apply Z.pow_pos_nonneg; lia)) as (H1 & H2 & H3 & H4).
    revert H1 H2 H3 H4. set (w := round_last _). intros H1 H2 H3 H4.
    change (toQ {| value := Some w; exp := - places |})
      with (inject_Z w * pow10 (- places))%Q.
    assert (HP : (pow10 (- places) == inject_Z (10 * 10 ^ k) * pow10 (exp d))%Q).
    { replace (10 * 10 ^ k) with (10 ^ (k + 1))
        by (rewrite Z.pow_add_r by lia; lia).
      rewrite pow10_Z, <- pow10_add by lia. unfold k.
      replace (- places - 1 - exp d + 1 + exp d) with (- places) by ring.
      reflexivity. }
    assert (HY : (Qabs (inject_Z w * pow10 (- places))
                  == inject_Z (Z.abs w * (10 * 10 ^ k)) * pow10 (exp d))%Q).
    { rewrite scaled_abs, HP, !inject_Z_mult. ring. }
    assert (HX : (Qabs (toQ d) == inject_Z (Z.abs (big d)) * pow10 (exp d))%Q)
      by apply scaled_abs.
    rewrite Qabs_1. split; [|split; [|split]].
    + rewrite HY, HX, HP.
      assert (H1' : 2 * Z.abs (big d)
                    < 2 * (Z.abs w * (10 * 10 ^ k)) + 10 * 10 ^ k) by lia.
      apply (proj2 (scaled_lt _ _ (exp d))) in H1'.
      rewrite inject_Z_plus, !inject_Z_mult in H1'.
      rewrite !inject_Z_mult. change (inject_Z 2) with 2%Q in H1'. lra.
    + rewrite HY, HX, HP.
      assert (H2' : 2 * (Z.abs w * (10 * 10 ^ k))
                    <= 2 * Z.abs (big d) + 10 * 10 ^ k) by lia.
      apply (proj2 (scaled_le _ _ (exp d))) in H2'.
      rewrite inject_Z_plus, !inject_Z_mult in H2'.
      rewrite !inject_Z_mult. change (inject_Z 2) with 2%Q in H2'. lra.
    + rewrite scaled_pos, Qmult_1_r. unfold toQ. rewrite scaled_pos. exact H3.
    + rewrite scaled_neg, Qmult_1_r. unfold toQ. rewrite scaled_neg. exact H4.
  - (* digits are added: the value does not change *)
    rewrite rescale_down by (unfold MaxInt32; lia). cbn [big value].
    set (k := exp d - - places).
    assert (Hk0 : 0 < k) by (unfold k; lia).
    replace (big d * 10 ^ (exp d - (- places - 1)))
      with (10 * (big d * 10 ^ k))
      by (replace (exp d - (- places - 1)) with (k + 1) by (unfold k; lia);
          rewrite Z.pow_add_r by lia; ring).
    rewrite round_last_exact.
    assert (HY : (toQ {| value := Some (big d * 10 ^ k)%Z; exp := - places |}
                  == toQ d)%Q).
    { unfold toQ. cbn [big value exp].
      rewrite inject_Z_mult, pow10_Z, <- Qmult_assoc, <- pow10_add by lia.
      unfold k. replace (exp d - - places + - places) with (exp d) by ring.
      reflexivity. }
    rewrite HY, Qabs_1. repeat split; intros; lra.
Qed.

Lemma exp_Round (d : Decimal) (places : Z) :
  Round_in_range d places -> exp (Round d places) = - places.
Proof.
  intros (Hp & Hd & Hk). unfold is_int32, MinInt32, MaxInt32 in *.
  rewrite Round_unfold, exp_rescale.
  rewrite (int32_id (- places))
    by (unfold is_int32, MinInt32, MaxInt32; lia).
  rewrite (int32_id (- places - 1))
    by (unfold is_int32, MinInt32, MaxInt32; lia).
  replace (- places - 1 + 1) with (- places) by ring.
  rewrite (int32_id (- places))
    by (unfold is_int32, MinInt32, MaxInt32; lia).
  destruct (Z.eqb_spec (exp d) (- places)); [assumption | reflexivity].
Qed.

(** [divRound] keeps the truncated quotient exactly when twice the
    remainder is smaller than the divisor at the quotient's scale. *)
Lemma divRound_decision (d d2 : Decimal) (p : Z) :
  big d2 <> 0 -> divRound_in_range d d2 p ->
  exists q r y,
    quoRem d d2 p = Ok (q, r) /\ divRound d d2 p = Ok y /\
    exp y = - p /\
    ((2 * Qabs (toQ r) < Qabs (toQ d2) * pow10 (- p))%Q <-> y = q).
Proof.
  intros Hnz Hin. rewrite (divRound_eval d d2 p Hnz Hin).
  rewrite (quoRem_eval d d2 p Hnz (proj1 Hin)).
  do 3 eexists. split; [reflexivity|]. split; [reflexivity|].
  split; [reflexivity|].
  pose proof (quoRem_bb_toQ d d2 p) as HB.
  pose proof (pow10_pos (- p)) as Hpp.
  unfold divRound_adjust. rewrite bigCmp_lt.
  revert HB.
  set (aa := quoRem_aa d d2 p). set (bb := quoRem_bb d d2 p).
  set (er := if exp d - exp d2 + p <? 0 then exp d else exp d2 - p).
  intros HB.
  assert (HU : (Qabs (toQ d2) * pow10 (- p) == inject_Z (Z.abs bb) * pow10 er)%Q).
  { rewrite <- scaled_abs, <- HB, Qabs_Qmult, (Qabs_pos (pow10 (- p))) by lra.
    reflexivity. }
  change (toQ {| value := Some (Z.rem aa bb); exp := er |})
    with (inject_Z (Z.rem aa bb) * pow10 er)%Q.
  rewrite HU, scaled_abs, Qmult_assoc.
  change 2%Q with (inject_Z 2). rewrite <- inject_Z_mult, scaled_lt.
  destruct (Z.ltb_spec (2 * Z.abs (Z.rem aa bb)) (Z.abs bb)) as [Hlt | Hge].
  - rewrite Z.add_0_r. tauto.
  - split; [lia|]. intros Heq. exfalso.
    assert (Hv : Z.quot aa bb + (if Z.sgn (big d) * Z.sgn (big d2) <? 0
                                 then -1 else 1) = Z.quot aa bb)
      by congruence.
    destruct (Z.sgn (big d) * Z.sgn (big d2) <? 0); lia.
Qed.

(** Rounding where the exponent arithmetic stays in range.  On operands
    and places for which no int32 step of [Round] and [divRound] wraps,
    [Round d N] has exponent [-N] and is the multiple of [10^(-N)] nearest
    to [d], an exact half moving away from zero (never to even); rounding
    commutes with negation; and [divRound d d2 p] is the multiple of
    [10^(-p)] nearest to [d / d2], ties away from zero, the truncated
    quotient of [quoRem] being kept exactly when [2 * |remainder|] is
    below [|divisor| * 10^(-p)]. *)
Theorem rounding_half_away_from_zero (d d2 : Decimal) (places p : Z) :
  Round_in_range d places -> big d2 <> 0 -> divRound_in_range d d2 p ->
  exp (Round d places) = - places /\
  rounded_half_away (toQ d) 1 places (Round d places) /\
  Round (Neg d) places = Neg (Round d places) /\
  exists q r y,
    quoRem d d2 p = Ok (q, r) /\ divRound d d2 p = Ok y /\
    exp y = - p /\
    rounded_half_away (toQ d) (toQ d2) p y /\
    ((2 * Qabs (toQ r) < Qabs (toQ d2) * pow10 (- p))%Q <-> y = q).
Proof.
  intros HR Hnz HD.
  split; [now apply exp_Round|].
  split; [now apply Round_rounds|].
  split; [apply Round_Neg|].
  destruct (divRound_decision d d2 p Hnz HD) as (q & r & y & Hq & Hy & He & Hc).
  destruct (divRound_rounds d d2 p Hnz HD) as (y' & Hy' & Hr).
  assert (y' = y) by congruence. subst y'.
  exists q, r, y.
  split; [exact Hq|]. split; [exact Hy|]. split; [exact He|].
  split; [exact Hr | exact Hc].
Qed.

Lemma rounding_half_away_from_zero_witness :
  exp (Round (New (-545) (-2)) 1) = - 1 /\
  rounded_half_away (toQ (New (-545) (-2))) 1 1 (Round (New (-545) (-2)) 1) /\
  Round (Neg (New (-545) (-2))) 1 = Neg (Round (New (-545) (-2)) 1) /\
  exists q r y,
    quoRem (New (-545) (-2)) (New 2 0) 1 = Ok (q, r) /\
    divRound (New (-545) (-2)) (New 2 0) 1 = Ok y /\
    exp y = - 1 /\
    rounded_half_away (toQ (New (-545) (-2))) (toQ (New 2 0)) 1 y /\
    ((2 * Qabs (toQ r) < Qabs (toQ (New 2 0)) * pow10 (- 1))%Q <-> y = q).
Proof.
  apply (rounding_half_away_from_zero (New (-545) (-2)) (New 2 0) 1 1).
  - unfold Round_in_range, is_int32, MinInt32, MaxInt32. cbn. lia.
  - cbn. lia.
  - unfold divRound_in_range, quoRem_in_range, is_int32, MinInt32, MaxInt32.
    cbn. lia.
Defined.

(** Examples from the package documentation, and the tie cases. *)
Example Round_545_1 : Round (New 545 (-2)) 1 = New 55 (-1).
Proof. reflexivity. Qed.

Example Round_545_neg1 : Round (New 545 0) (-1) = New 55 1.
Proof. reflexivity. Qed.

Example Round_tie_negative : Round (New (-25) (-1)) 0 = New (-3) 0.
Proof. reflexivity. Qed.

Example divRound_tie : divRound (New 5 0) (New 2 0) 0 = Ok (New 3 0).
Proof. reflexivity. Qed.

Example divRound_tie_negative : divRound (New (-5) 0) (New 2 0) 0 = Ok (New (-3) 0).
Proof. reflexivity. Qed.

(** C9: the code does not round where the places wrap.  [Round] negates
    [places] in int32 without a guard: rounding [5e-2147483648] to
    [-2147483648] places takes the early return, because the negated
    places wrap around to the operand's exponent, and the operand comes
    back unchanged although it is no multiple of [10^2147483648] (the
    nearest one is 0). *)
Theorem Round_unrounded_on_wrapped_places :
  Round (New 5 MinInt32) MinInt32 = New 5 MinInt32 /\
  ~ rounded_half_away (toQ (New 5 MinInt32)) 1 MinInt32
      (Round (New 5 MinInt32) MinInt32).
Proof.
  assert (E : Round (New 5 MinInt32) MinInt32 = New 5 MinInt32)
    by (vm_compute; reflexivity).
  split; [exact E|]. rewrite E. intros ((k & Hk) & _).
  unfold toQ in Hk. cbn [big value exp New] in Hk.
  pose proof (pow10_pos MinInt32) as Ha.
  assert (Ha' : (pow10 MinInt32 < 1 # 10)%Q).
  { change (1 # 10)%Q with (pow10 (- (1))).
    apply Qpower_lt_compat_l; [unfold MinInt32; lia | reflexivity]. }
  pose proof (pow10_ge_1 (- MinInt32) ltac:(unfold MinInt32; lia)) as Hb.
  revert Hk Ha Ha' Hb.
  generalize (pow10 MinInt32) as a. generalize (pow10 (- MinInt32)) as b.
  intros b a Hk Ha Ha' Hb.
  change (inject_Z 5) with 5%Q in Hk.
  destruct (Z.le_gt_cases k 0) as [Hk0 | Hk0].
  - assert (inject_Z k <= 0)%Q by (rewrite Zle_Qle in Hk0; exact Hk0). nra.
  - assert (1 <= inject_Z k)%Q
      by (assert (1 <= k) as H1 by lia; rewrite Zle_Qle in H1; exact H1).
    nra.
Qed.

(** ** Formatting and parsing: examples *)

Example String_example : String_ (New (-12345) (-3)) = Ok (bytes "-12.345").
Proof. reflexivity. Qed.

Example StringFixed_examples :
  StringFixed (New 0 0) 2 = Ok (bytes "0.00") /\
  StringFixed (New 545 (-2)) 0 = Ok (bytes "5") /\
  StringFixed (New 545 (-2)) 1 = Ok (bytes "5.5") /\
  StringFixed (New 545 (-2)) 3 = Ok (bytes "5.450") /\
  StringFixed (New 545 0) (-1) = Ok (bytes "550").
Proof. repeat split; reflexivity. Qed.

Example NewFromMySQL_examples :
  NewFromMySQL (bytes "-12.345") = Parsed (New (-12345) (-3)) /\
  NewFromMySQL (bytes "+.5") = Parsed (New 5 (-1)) /\
  NewFromMySQL (bytes "7.") = Parsed (New 7 0) /\
  NewFromMySQL (bytes "1.2.3")
  = Err (ErrParse (bytes "1.2.3") errTooManyDots) /\
  NewFromMySQL (bytes "abc")
  = Err (ErrParse (bytes "abc") (errUnexpected "a"%byte)) /\
  NewFromMySQL (bytes "") = Err (ErrTooShort (bytes "")) /\
  NewFromMySQL (bytes "-") = Err (ErrTooShort (bytes "-")) /\
  NewFromMySQL (bytes "12345678901234567890.5")
  = Parsed (New 123456789012345678905 (-1)).
Proof. repeat split; reflexivity. Qed.

(** ** Clamp and the shared limit table *)

(** The documented behaviour on a fresh table: 12345.678 clamped to
    (3, 2) digits is 999.99, and a value within the budget passes. *)
Example Clamp_fresh_positive :
  exists r h, Clamp (init_heap ++ [12345678]) (mkRef (Some 20%nat) (-3)) 3 2
              = Ok (r, h) /\
              view h r = New 99999 (-2) /\ firstn 20 h = init_heap.
Proof. do 2 eexists. repeat split; reflexivity. Qed.

Example Clamp_within_budget :
  exists h, Clamp (init_heap ++ [12345]) (mkRef (Some 20%nat) (-2)) 3 2
            = Ok (mkRef (Some 20%nat) (-2), h) /\ firstn 20 h = init_heap.
Proof. eexists. split; reflexivity. Qed.

(** The part of the frame property that holds: clamping a non-negative
    operand never writes to an existing cell (at most a fresh limit is
    allocated behind the heap). *)
Lemma Clamp_nonneg_frame (h h' : heap) (d r : DecimalRef) (v integral fractional : Z) :
  load h (ptr d) = Some v -> 0 <= v ->
  Clamp h d integral fractional = Ok (r, h') ->
  firstn (List.length h) h' = h.
Proof.
  intros Hload Hv. unfold Clamp, largestForm.
  assert (Hkeep : forall x, load (h ++ [x]) (ptr d) = Some v).
  { intros x. destruct (ptr d) as [l|]; [|discriminate]. cbn [load] in *.
    rewrite nth_error_app1; [exact Hload|].
    apply nth_error_Some. now rewrite Hload. }
  assert (Hsg : (Z.sgn v <? 0) = false)
    by (apply Z.ltb_ge, Z.sgn_nonneg; exact Hv).
  assert (Hfst : forall x, firstn (List.length h) (h ++ [x]) = h)
    by (intros x; rewrite firstn_app, Nat.sub_diag, firstn_all; apply app_nil_r).
  destruct (_ <? Z.of_nat _).
  - destruct (int32 (integral + fractional) <? 0); [discriminate|].
    cbv beta iota zeta delta [bind].
    destruct (CmpAbs _ _ <=? 0);
      [intros H; inversion H; subst; apply firstn_all|].
    rewrite Hload. cbv beta iota zeta delta [bind deref]. rewrite Hsg.
    intros H; inversion H; subst; apply firstn_all.
  - destruct (_ <? len nines); [|discriminate].
    destruct (SetString _) as [num|]; [|discriminate].
    cbv beta iota zeta delta [bind alloc].
    destruct (CmpAbs _ _ <=? 0); [intros H; inversion H; subst; apply Hfst|].
    rewrite Hkeep. cbv beta iota zeta delta [bind deref]. rewrite Hsg.
    intros H; inversion H; subst; apply Hfst.
Qed.

(** C2: the code does not keep the limit table constant.  Clamping the
    negative operand -12345.678 to (3, 2) digits negates the table's own
    object for 5 digits in place; the next Clamp with the same digit
    counts, on the positive operand 12345.678, returns -999.99. *)
Theorem Clamp_mutates_limit_table :
  exists r1 h1 r2 h2,
    Clamp (init_heap ++ [-12345678; 12345678]) (mkRef (Some 20%nat) (-3)) 3 2
    = Ok (r1, h1) /\
    view h1 r1 = New (-99999) (-2) /\
    nth 5 init_heap 0 = 99999 /\ nth 5 h1 0 = -99999 /\
    Clamp h1 (mkRef (Some 21%nat) (-3)) 3 2 = Ok (r2, h2) /\
    view h2 r2 = New (-99999) (-2).
Proof. do 4 eexists. repeat split; reflexivity. Qed.

(** ** Decimal digits *)

Lemma parseDigits_fold (s : list byte) : parseDigits s = fold_left parse_step s 0.
Proof. reflexivity. Qed.

Lemma digit_byte_spec (n : Z) :
  0 <= n <= 9 -> is_digit (digit_byte n) = true /\ digit_of (digit_byte n) = n.
Proof.
  intros H.
  assert (Hn : exists k, (k < 10)%nat /\ n = Z.of_nat k)
    by (exists (Z.to_nat n); lia).
  destruct Hn as (k & Hk & ->).
  do 10 (destruct k as [|k]; [split; reflexivity|]). lia.
Qed.

Lemma is_digit_range (c : byte) :
  is_digit c = true <-> 48 <= byte_val c <= 57.
Proof. unfold is_digit. rewrite andb_true_iff, !Z.leb_le. tauto. Qed.

Lemma is_digit_digit_of (c : byte) : is_digit c = true -> 0 <= digit_of c <= 9.
Proof. rewrite is_digit_range. unfold digit_of. lia. Qed.

Lemma is_digit_not (c x : byte) :
  is_digit c = true -> is_digit x = false -> Byte.eqb c x = false.
Proof.
  intros Hc Hx. destruct (Byte.eqb c x) eqn:E; [|reflexivity].
  apply Byte.byte_dec_bl in E. subst x. congruence.
Qed.

Section Digits.

(** Parsing a run of digits from an accumulator. *)
Lemma fold_digits_app (a b : list byte) (n : Z) :
  fold_left parse_step (a ++ b) n = fold_left parse_step b (fold_left parse_step a n).
Proof. apply fold_left_app. Qed.

Lemma fold_digits_bound (ds : list byte) :
  forall n k, Forall (fun c => is_digit c = true) ds ->
    0 <= n < 10 ^ k -> 0 <= k ->
    0 <= fold_left parse_step ds n < 10 ^ (k + len ds).
Proof.
  induction ds as [|c ds IH]; intros n k Hd Hn Hk.
  - unfold len. cbn. now rewrite Z.add_0_r.
  - inversion Hd as [|? ? Hc Hds]; subst. cbn [fold_left].
    apply is_digit_digit_of in Hc.
    replace (k + len (c :: ds)) with ((k + 1) + len ds)
      by (unfold len; cbn [List.length]; lia).
    apply IH; [assumption | | lia].
    unfold parse_step. rewrite Z.pow_add_r by lia. lia.
Qed.

Lemma fold_digits_scale (ds : list byte) :
  forall n, fold_left parse_step ds n
            = n * 10 ^ len ds + fold_left parse_step ds 0.
Proof.
  induction ds as [|c ds IH]; intros n.
  - unfold len. cbn. lia.
  - cbn [fold_left]. rewrite (IH (parse_step n c)), (IH (parse_step 0 c)).
    unfold parse_step, len. cbn [List.length].
    rewrite Nat2Z.inj_succ, Z.pow_succ_r by lia. ring.
Qed.

Lemma fold_digits_zeros (z : nat) (n : Z) :
  fold_left parse_step (repeat "0"%byte z) n = n * 10 ^ Z.of_nat z.
Proof.
  revert n. induction z as [|z IH]; intros n.
  - cbn. lia.
  - cbn [repeat fold_left]. rewrite IH. unfold parse_step.
    change (digit_of "0") with 0.
    rewrite Nat2Z.inj_succ, Z.pow_succ_r by lia. ring.
Qed.

(** The digits [utoa] writes read back as the number. *)
Lemma utoa_aux_fold (fuel : nat) :
  forall n acc, 0 <= n < 2 ^ Z.of_nat fuel ->
    fold_left parse_step (utoa_aux fuel n acc) 0 = fold_left parse_step acc n.
Proof.
  induction fuel as [|f IH]; intros n acc Hn.
  - cbn in *. now replace n with 0 by lia.
  - cbn [utoa_aux].
    assert (Hd : 0 <= n mod 10 <= 9)
      by (pose proof (Z.mod_pos_bound n 10); lia).
    destruct (digit_byte_spec _ Hd) as (_ & Hv).
    pose proof (Z.div_mod n 10 ltac:(lia)) as Hdm.
    destruct (Z.eqb_spec (n / 10) 0) as [E | E].
    + cbn [fold_left]. unfold parse_step at 2. rewrite Hv. f_equal. lia.
    + rewrite IH.
      * cbn [fold_left]. unfold parse_step at 2. rewrite Hv. f_equal. lia.
      * rewrite Nat2Z.inj_succ, Z.pow_succ_r in Hn by lia.
        split; [apply Z.div_pos; lia|].
        apply Z.div_lt_upper_bound; lia.
Qed.

Lemma utoa_aux_digits (fuel : nat) :
  forall n acc, 0 <= n -> Forall (fun c => is_digit c = true) acc ->
    Forall (fun c => is_digit c = true) (utoa_aux fuel n acc).
Proof.
  induction fuel as [|f IH]; intros n acc Hn Hacc; [exact Hacc|].
  cbn [utoa_aux].
  assert (Hd : 0 <= n mod 10 <= 9)
    by (pose proof (Z.mod_pos_bound n 10); lia).
  destruct (digit_byte_spec _ Hd) as (Hdig & _).
  destruct (n / 10 =? 0); [now constructor|].
  apply IH; [apply Z.div_pos; lia | now constructor].
Qed.

Lemma utoa_aux_nonempty (fuel : nat) :
  forall n acc, acc <> [] -> utoa_aux fuel n acc <> [].
Proof.
  induction fuel as [|f IH]; intros n acc Hacc; [exact Hacc|].
  cbn [utoa_aux]. destruct (n / 10 =? 0); [discriminate|].
  apply IH. discriminate.
Qed.

Lemma utoa_spec (n : Z) :
  0 <= n ->
  parseDigits (utoa n) = n /\
  Forall (fun c => is_digit c = true) (utoa n) /\ utoa n <> [].
Proof.
  intros Hn. unfold utoa. split; [|split].
  - rewrite parseDigits_fold, utoa_aux_fold; [reflexivity|].
    split; [exact Hn|].
    rewrite Nat2Z.inj_succ, Z2Nat.id by apply Z.log2_nonneg.
    destruct (Z.eq_dec n 0) as [-> | Hnz]; [reflexivity|].
    apply Z.log2_spec. lia.
  - apply utoa_aux_digits; [exact Hn | constructor].
  - cbn [utoa_aux]. destruct (n / 10 =? 0); [discriminate|].
    apply utoa_aux_nonempty. discriminate.
Qed.

End Digits.

(** ** The 64-bit fast path *)

Lemma len_app (a b : list byte) : len (a ++ b) = len a + len b.
Proof. unfold len. rewrite length_app. lia. Qed.

Lemma len_cons (c : byte) (a : list byte) : len (c :: a) = len a + 1.
Proof. unfold len. cbn [List.length]. lia. Qed.

Lemma len_nonneg (a : list byte) : 0 <= len a.
Proof. unfold len. lia. Qed.

Lemma parseDecimal64_loop_digits (ds : list byte) :
  forall rest i n dot k,
    digits ds -> 0 <= n < 10 ^ k -> 0 <= k -> k + len ds <= 18 ->
    parseDecimal64_loop (ds ++ rest) i n dot
    = parseDecimal64_loop rest (i + len ds) (fold_left parse_step ds n) dot.
Proof.
  induction ds as [|c ds IH]; intros rest i n dot k Hd Hn Hk Hl.
  - cbn. f_equal. unfold len. cbn. lia.
  - inversion Hd as [|? ? Hc Hds]; subst.
    rewrite len_cons in Hl. pose proof (len_nonneg ds) as Hds0.
    cbn [app parseDecimal64_loop fold_left].
    rewrite (is_digit_not c "." Hc eq_refl), Hc.
    pose proof (is_digit_digit_of c Hc) as Hdv.
    assert (Hpow : 10 ^ k <= 10 ^ 17) by (apply Z.pow_le_mono_r; lia).
    change (10 ^ 17) with 100000000000000000 in Hpow.
    destruct (Z.geb_spec n cutoff) as [Hge | _]; [unfold cutoff in Hge; lia|].
    unfold uint64. rewrite (Z.mod_small (n * 10)) by lia.
    rewrite (Z.mod_small (n * 10 + digit_of c)) by lia.
    destruct (Z.ltb_spec (n * 10 + digit_of c) (n * 10)) as [Hlt | _]; [lia|].
    rewrite (IH rest (i + 1) (n * 10 + digit_of c) dot (k + 1));
      try assumption; try lia.
    + rewrite len_cons. unfold parse_step. f_equal. lia.
    + rewrite Z.pow_add_r by lia. lia.
Qed.

Lemma int32_neg_len (n : Z) :
  0 <= n <= 2147483648 -> int32 (- int32 n) = - n.
Proof.
  intros H. destruct (Z.eq_dec n 2147483648) as [-> | Hn]; [reflexivity|].
  rewrite (int32_id n) by (unfold is_int32, MinInt32, MaxInt32; lia).
  apply int32_id. unfold is_int32, MinInt32, MaxInt32. lia.
Qed.

Lemma parseDigits_bound (ds : list byte) :
  digits ds -> 0 <= parseDigits ds < 10 ^ len ds.
Proof.
  intros Hd. rewrite parseDigits_fold.
  apply (fold_digits_bound ds 0 0 Hd); lia.
Qed.

(** On a text of at most 18 bytes made of digits and at most one dot,
    [parseDecimal64] succeeds with the digits' number and the count of
    fractional digits as negated exponent. *)
Lemma parseDecimal64_fixed (ip : list byte) (fr : option (list byte)) :
  digits ip -> digits (frac_digits fr) ->
  len (ip ++ frac_bytes fr) <= 18 ->
  parseDecimal64 (ip ++ frac_bytes fr)
  = inr {| value := Some (parseDigits (ip ++ frac_digits fr));
           exp := - len (frac_digits fr) |}.
Proof.
  intros Hip Hfp Hlen. unfold parseDecimal64.
  pose proof (len_nonneg ip) as Hip0.
  pose proof (parseDigits_bound ip Hip) as Hb.
  rewrite len_app in Hlen.
  pose proof (len_nonneg (frac_bytes fr)) as Hfr0.
  rewrite (parseDecimal64_loop_digits ip _ 0 0 (-1) 0 Hip)
    by (try change (10 ^ 0) with 1; lia).
  fold (parseDigits ip).
  destruct fr as [fp|]; cbn [frac_bytes frac_digits] in *.
  - rewrite len_cons in Hlen. pose proof (len_nonneg fp) as Hfp0.
    cbn [parseDecimal64_loop]. cbn [Byte.eqb].
    change (Byte.eqb "." ".") with true. cbn match.
    change (-1 >? -1) with false. cbn match.
    rewrite <- (app_nil_r fp) at 1.
    rewrite (parseDecimal64_loop_digits fp [] _ _ _ (len ip) Hfp) by lia.
    cbn [parseDecimal64_loop].
    destruct (Z.eqb_spec (0 + len ip) (-1)) as [E | _]; [lia|]. cbn [negb].
    rewrite len_app, len_cons.
    replace (len ip + (len fp + 1) - (0 + len ip) - 1) with (len fp) by ring.
    rewrite int32_neg_len by lia.
    rewrite !parseDigits_fold, fold_digits_app. reflexivity.
  - cbn [parseDecimal64_loop]. cbn [negb Z.eqb].
    change (-1 =? -1) with true. cbn [negb].
    rewrite app_nil_r. reflexivity.
Qed.

(** Up to 18 bytes the accumulator stays below [10^18]: no overflow,
    whatever the bytes are. *)
Lemma parseDecimal64_loop_no_overflow (rest : list byte) :
  forall i n dot k,
    0 <= n < 10 ^ k -> 0 <= k -> k + len rest <= 18 ->
    parseDecimal64_loop rest i n dot <> inl errOverflow.
Proof.
  induction rest as [|c rest IH]; intros i n dot k Hn Hk Hl; [discriminate|].
  rewrite len_cons in Hl. pose proof (len_nonneg rest) as Hr0.
  cbn [parseDecimal64_loop].
  destruct (Byte.eqb c ".").
  { destruct (dot >? -1); [discriminate|]. apply (IH _ _ _ k); lia. }
  destruct (is_digit c) eqn:Hc; [|discriminate].
  pose proof (is_digit_digit_of c Hc) as Hdv.
  assert (Hpow : 10 ^ k <= 10 ^ 17) by (apply Z.pow_le_mono_r; lia).
  change (10 ^ 17) with 100000000000000000 in Hpow.
  destruct (Z.geb_spec n cutoff) as [Hge | _]; [unfold cutoff in Hge; lia|].
  unfold uint64. rewrite (Z.mod_small (n * 10)) by lia.
  rewrite (Z.mod_small (n * 10 + digit_of c)) by lia.
  destruct (Z.ltb_spec (n * 10 + digit_of c) (n * 10)) as [Hlt | _]; [lia|].
  apply (IH _ _ _ (k + 1)); try lia.
  rewrite Z.pow_add_r by lia. lia.
Qed.

Lemma parseDecimal64_no_overflow (s : list byte) :
  len s <= 18 -> parseDecimal64 s <> inl errOverflow.
Proof.
  intros H. unfold parseDecimal64.
  destruct (parseDecimal64_loop s 0 0 (-1)) as [e | [n dot]] eqn:E;
    [|discriminate].
  intros Heq. inversion Heq; subst.
  assert (Hb : 0 <= 0 < 10 ^ 0) by (change (10 ^ 0) with 1; lia).
  exact (parseDecimal64_loop_no_overflow s 0 0 (-1) 0 Hb (Z.le_refl 0) H E).
Qed.

(** ** The arbitrary-precision path *)

Lemma IndexByte_digits (ds : list byte) : digits ds -> IndexByte ds "." = -1.
Proof.
  induction 1 as [|c ds Hc _ IH]; [reflexivity|].
  cbn [IndexByte]. rewrite (is_digit_not c "." Hc eq_refl), IH. reflexivity.
Qed.

Lemma IndexByte_dot (ds rest : list byte) :
  digits ds -> IndexByte (ds ++ "."%byte :: rest) "." = len ds.
Proof.
  induction 1 as [|c ds Hc _ IH]; [reflexivity|].
  cbn [app IndexByte]. rewrite (is_digit_not c "." Hc eq_refl), IH, len_cons.
  pose proof (len_nonneg ds).
  destruct (Z.eqb_spec (len ds) (-1)); [lia | reflexivity].
Qed.

Lemma slice_to_app (a b : list byte) : slice_to (a ++ b) (len a) = a.
Proof.
  unfold slice_to, len. rewrite Nat2Z.id.
  rewrite firstn_app, Nat.sub_diag, firstn_all. cbn. apply app_nil_r.
Qed.

Lemma slice_from_app (c : byte) (a b : list byte) :
  slice_from (a ++ c :: b) (len a + 1) = b.
Proof.
  unfold slice_from, len.
  replace (Z.to_nat (Z.of_nat (List.length a) + 1)) with (S (List.length a)) by lia.
  replace (a ++ c :: b) with ((a ++ [c]) ++ b) by (rewrite <- app_assoc; reflexivity).
  rewrite skipn_app.
  replace (S (List.length a)) with (List.length (a ++ [c]))
    by (rewrite length_app; cbn; lia).
  rewrite skipn_all, Nat.sub_diag. reflexivity.
Qed.

Lemma stripSign_digits (ds : list byte) :
  ds <> [] -> digits ds -> stripSign ds = (false, ds).
Proof.
  intros Hne Hd. destruct ds as [|c ds]; [contradiction|].
  inversion Hd as [|? ? Hc _]; subst. cbn [stripSign].
  now rewrite (is_digit_not c "+" Hc eq_refl), (is_digit_not c "-" Hc eq_refl).
Qed.

Lemma forallb_digits (ds : list byte) : digits ds -> forallb is_digit ds = true.
Proof. intros H. apply forallb_forall. now apply Forall_forall. Qed.

Lemma SetString_digits (ds : list byte) :
  ds <> [] -> digits ds -> SetString ds = Some (parseDigits ds).
Proof.
  intros Hne Hd. unfold SetString. rewrite (stripSign_digits ds Hne Hd).
  rewrite (forallb_digits ds Hd).
  destruct (Z.eqb_spec (len ds) 0) as [E | _]; [|reflexivity].
  destruct ds; [contradiction | rewrite len_cons in E].
  pose proof (len_nonneg ds). lia.
Qed.

(** On a text made of digits and at most one dot, with a digit somewhere
    and no more than [2^31] fractional digits, the arbitrary-precision
    path yields the same decimal. *)
Lemma bigFallback_fixed (original ip : list byte) (fr : option (list byte))
    (neg : bool) :
  digits ip -> digits (frac_digits fr) ->
  ip ++ frac_digits fr <> [] -> len (frac_digits fr) <= 2147483648 ->
  bigFallback original (ip ++ frac_bytes fr) neg
  = Parsed {| value := Some (if neg then - parseDigits (ip ++ frac_digits fr)
                             else parseDigits (ip ++ frac_digits fr));
              exp := - len (frac_digits fr) |}.
Proof.
  intros Hip Hfp Hne Hlen. unfold bigFallback.
  pose proof (len_nonneg ip) as Hip0.
  destruct fr as [fp|]; cbn [frac_bytes frac_digits] in *.
  - pose proof (len_nonneg fp) as Hfp0.
    rewrite (IndexByte_dot ip fp Hip).
    destruct (Z.geb_spec (len ip) 0) as [_ | Hlt]; [|lia].
    rewrite slice_from_app, slice_to_app, (IndexByte_digits fp Hfp).
    change (negb (-1 =? -1)) with false. cbn match.
    rewrite int32_neg_len by lia.
    rewrite len_app, len_cons.
    destruct (Z.ltb_spec (len ip + 1) (len ip + (len fp + 1))) as [Hlt | Hge].
    + rewrite SetString_digits; [reflexivity | exact Hne |].
      apply Forall_app. split; assumption.
    + assert (fp = []) by (destruct fp; [reflexivity | rewrite len_cons in Hge;
                           pose proof (len_nonneg fp); lia]).
      subst fp. rewrite app_nil_r in *.
      rewrite SetString_digits by assumption. reflexivity.
  - rewrite app_nil_r in *. rewrite (IndexByte_digits ip Hip).
    change (-1 >=? 0) with false. cbn match.
    rewrite SetString_digits by assumption. reflexivity.
Qed.

(** ** The wire-format parser on texts of the grammar *)

Lemma stripSign_fixed (sg : option bool) (ip : list byte)
    (fr : option (list byte)) :
  digits ip ->
  stripSign (fixed_text sg ip fr) = (is_neg sg, ip ++ frac_bytes fr).
Proof.
  intros Hip. unfold fixed_text.
  destruct sg as [[|]|]; cbn [sign_bytes is_neg app]; try reflexivity.
  destruct ip as [|c ip].
  - destruct fr; reflexivity.
  - inversion Hip as [|? ? Hc _]; subst. cbn [app stripSign].
    now rewrite (is_digit_not c "+" Hc eq_refl), (is_digit_not c "-" Hc eq_refl).
Qed.

Lemma fixed_body_nonempty (ip : list byte) (fr : option (list byte)) :
  ip ++ frac_digits fr <> [] -> 0 < len (ip ++ frac_bytes fr).
Proof.
  intros Hne. rewrite len_app.
  pose proof (len_nonneg (frac_bytes fr)).
  destruct ip as [|c ip].
  - destruct fr as [fp|]; [|cbn in Hne; contradiction].
    cbn [frac_bytes]. rewrite len_cons. pose proof (len_nonneg fp).
    change (len []) with 0. lia.
  - rewrite len_cons. pose proof (len_nonneg ip). lia.
Qed.

Lemma NewFromMySQL_route_fixed (sg : option bool) (ip : list byte)
    (fr : option (list byte)) :
  digits ip -> digits (frac_digits fr) ->
  ip ++ frac_digits fr <> [] -> len (frac_digits fr) <= 2147483648 ->
  NewFromMySQL_route (fixed_text sg ip fr)
  = (if len (ip ++ frac_bytes fr) <=? 18 then Fast64 else BigFallback,
     Parsed (fixed_value sg ip fr)).
Proof.
  intros Hip Hfp Hne Hlen. unfold NewFromMySQL_route.
  rewrite (stripSign_fixed sg ip fr Hip).
  pose proof (fixed_body_nonempty ip fr Hne) as Hpos.
  destruct (Z.eqb_spec (len (ip ++ frac_bytes fr)) 0) as [E | _]; [lia|].
  destruct (Z.leb_spec (len (ip ++ frac_bytes fr)) 18) as [Hle | Hgt].
  - rewrite (parseDecimal64_fixed ip fr Hip Hfp Hle).
    unfold fixed_value. destruct (is_neg sg); reflexivity.
  - rewrite (bigFallback_fixed _ ip fr (is_neg sg) Hip Hfp Hne Hlen).
    reflexivity.
Qed.

(** C7 (as amended). For every text of the grammar (an optional sign, then
    digits with at most one dot and at least one digit): if its length
    without the sign - the dot counted - is at most 18 bytes, the parser
    takes the 64-bit path, the accumulation does not overflow, and the
    decimal is exactly the one the arbitrary-precision path computes; if
    it is longer, the arbitrary-precision path is taken. *)
Theorem fast_path_agrees_with_fallback (sg : option bool) (ip : list byte)
    (fr : option (list byte)) :
  digits ip -> digits (frac_digits fr) -> ip ++ frac_digits fr <> [] ->
  (len (ip ++ frac_bytes fr) <= 18 ->
   NewFromMySQL_route (fixed_text sg ip fr)
   = (Fast64, Parsed (fixed_value sg ip fr)) /\
   bigFallback (fixed_text sg ip fr) (ip ++ frac_bytes fr) (is_neg sg)
   = Parsed (fixed_value sg ip fr) /\
   parseDecimal64 (ip ++ frac_bytes fr) <> inl errOverflow) /\
  (18 < len (ip ++ frac_bytes fr) ->
   NewFromMySQL_route (fixed_text sg ip fr)
   = (BigFallback,
      bigFallback (fixed_text sg ip fr) (ip ++ frac_bytes fr) (is_neg sg))).
Proof.
  intros Hip Hfp Hne. split.
  - intros Hle.
    assert (Hlen : len (frac_digits fr) <= 2147483648).
    { rewrite len_app in Hle. pose proof (len_nonneg ip).
      destruct fr as [fp|]; cbn [frac_bytes frac_digits] in *;
        [rewrite len_cons in Hle | change (len []) with 0]; lia. }
    split; [|split].
    + rewrite (NewFromMySQL_route_fixed sg ip fr Hip Hfp Hne Hlen).
      destruct (Z.leb_spec (len (ip ++ frac_bytes fr)) 18); [reflexivity | lia].
    + apply bigFallback_fixed; assumption.
    + now apply parseDecimal64_no_overflow.
  - intros Hgt. unfold NewFromMySQL_route.
    rewrite (stripSign_fixed sg ip fr Hip).
    destruct (Z.eqb_spec (len (ip ++ frac_bytes fr)) 0) as [E | _]; [lia|].
    destruct (Z.leb_spec (len (ip ++ frac_bytes fr)) 18); [lia | reflexivity].
Qed.

Lemma digits_bytes_12 : digits (bytes "12").
Proof. repeat constructor. Qed.

Lemma digits_bytes_345 : digits (bytes "345").
Proof. repeat constructor. Qed.

Lemma fast_path_agrees_with_fallback_witness :
  (len (bytes "12" ++ frac_bytes (Some (bytes "345"))) <= 18 ->
   NewFromMySQL_route (fixed_text (Some true) (bytes "12") (Some (bytes "345")))
   = (Fast64, Parsed (fixed_value (Some true) (bytes "12") (Some (bytes "345")))) /\
   bigFallback (fixed_text (Some true) (bytes "12") (Some (bytes "345")))
     (bytes "12" ++ frac_bytes (Some (bytes "345"))) (is_neg (Some true))
   = Parsed (fixed_value (Some true) (bytes "12") (Some (bytes "345"))) /\
   parseDecimal64 (bytes "12" ++ frac_bytes (Some (bytes "345")))
   <> inl errOverflow) /\
  (18 < len (bytes "12" ++ frac_bytes (Some (bytes "345"))) ->
   NewFromMySQL_route (fixed_text (Some true) (bytes "12") (Some (bytes "345")))
   = (BigFallback,
      bigFallback (fixed_text (Some true) (bytes "12") (Some (bytes "345")))
        (bytes "12" ++ frac_bytes (Some (bytes "345"))) (is_neg (Some true)))).
Proof.
  apply (fast_path_agrees_with_fallback (Some true) (bytes "12")
           (Some (bytes "345"))).
  - exact digits_bytes_12.
  - exact digits_bytes_345.
  - discriminate.
Defined.

(** C7 (as stated) fails: the guard counts the dot.  This text has an
    18-digit run, yet with its dot it is 19 bytes long and goes down the
    arbitrary-precision path. *)
Lemma fast_path_agrees_with_fallback_counterexample :
  digits (bytes "123456789") /\
  len (bytes "123456789" ++ bytes "123456789") = 18 /\
  NewFromMySQL_route
    (fixed_text None (bytes "123456789") (Some (bytes "123456789")))
  = (BigFallback, Parsed (New 123456789123456789 (-9))).
Proof. split; [repeat constructor|]. split; reflexivity. Qed.

(** ** The formatter *)

Lemma itoa_neg_sign (n : Z) : itoa n = neg_sign n ++ utoa (Z.abs n).
Proof.
  unfold itoa, neg_sign. destruct (Z.ltb_spec n 0).
  - now rewrite Z.abs_neq by lia.
  - now rewrite Z.abs_eq by lia.
Qed.

Lemma trimZeros_spec (l : list byte) :
  exists z, l = trimZeros l ++ repeat "0"%byte z.
Proof.
  induction l as [|c l (z & IH)]; [exists 0%nat; reflexivity|].
  cbn [trimZeros]. destruct (trimZeros l) as [|x t] eqn:E.
  - destruct (Byte.eqb c "0") eqn:Ec.
    + apply Byte.byte_dec_bl in Ec. subst c. exists (S z).
      cbn [app repeat]. f_equal. exact IH.
    + exists z. cbn [app]. f_equal. exact IH.
  - exists z. rewrite IH at 1. reflexivity.
Qed.

Lemma trimZeros_last (l : list byte) :
  trimZeros l = [] \/ last (trimZeros l) "1"%byte <> "0"%byte.
Proof.
  induction l as [|c l IH]; [now left|].
  cbn [trimZeros]. destruct (trimZeros l) as [|x t] eqn:E.
  - destruct (Byte.eqb c "0") eqn:Ec; [now left|].
    right. cbn. now apply Byte.eqb_false.
  - right. destruct IH as [IH | IH]; [discriminate|]. exact IH.
Qed.

Lemma trimZeros_digits (l : list byte) : digits l -> digits (trimZeros l).
Proof.
  intros H. destruct (trimZeros_spec l) as (z & E).
  unfold digits in *. rewrite E in H. now apply Forall_app in H.
Qed.

Lemma digits_repeat_0 (z : nat) : digits (repeat "0"%byte z).
Proof. induction z; constructor; [reflexivity | assumption]. Qed.

Lemma len_repeat (c : byte) (z : nat) : len (repeat c z) = Z.of_nat z.
Proof. unfold len. now rewrite repeat_length. Qed.

(** The integral and fractional digits of a formatted decimal. *)
Lemma format_parts (v e : Z) :
  e < 0 ->
  digits (int_part v e) /\ int_part v e <> [] /\
  digits (frac_part v e) /\ len (frac_part v e) = - e /\
  parseDigits (int_part v e ++ frac_part v e) = Z.abs v.
Proof.
  intros He. unfold int_part, frac_part.
  destruct (utoa_spec (Z.abs v) (Z.abs_nonneg v)) as (Hp & Hd & Hne).
  set (raw := utoa (Z.abs v)) in *.
  destruct (Z.gtb_spec (len raw) (- e)) as [Hgt | Hle].
  - unfold slice_to, slice_from. rewrite firstn_skipn.
    assert (Hd2 := Hd). unfold digits in Hd2.
    rewrite <- (firstn_skipn (Z.to_nat (len raw + e)) raw) in Hd2.
    apply Forall_app in Hd2. destruct Hd2 as (Hd1 & Hd2).
    split; [exact Hd1|].
    split.
    { intros E. apply (f_equal (@List.length byte)) in E.
      rewrite length_firstn in E. cbn [List.length] in E.
      unfold len in *. lia. }
    split; [exact Hd2|].
    split; [|exact Hp].
    unfold len in *. rewrite length_skipn. lia.
  - split; [repeat constructor|]. split; [discriminate|].
    split; [apply Forall_app; split; [apply digits_repeat_0 | exact Hd]|].
    split.
    + rewrite len_app, len_repeat. pose proof (len_nonneg raw). lia.
    + rewrite parseDigits_fold. cbn [app fold_left].
      rewrite fold_digits_app, fold_digits_zeros.
      change (parse_step 0 "0") with 0. rewrite Z.mul_0_l. exact Hp.
Qed.

Lemma format_exp_nonneg (d : Decimal) (trim : bool) :
  0 <= exp d <= MaxInt32 ->
  format d [] trim = Ok (itoa (big d * 10 ^ exp d)).
Proof.
  intros H. unfold format.
  destruct (Z.geb_spec (exp d) 0) as [_ | Hlt]; [|lia].
  rewrite rescale_down by lia. cbn [big value app].
  now rewrite Z.sub_0_r.
Qed.

Lemma format_exp_neg (d : Decimal) (v : Z) (trim : bool) :
  value d = Some v -> exp d < 0 ->
  format d [] trim
  = Ok (neg_sign v ++ int_part v (exp d)
        ++ (if trim then dot_frac (trimZeros (frac_part v (exp d)))
            else "."%byte :: frac_part v (exp d))).
Proof.
  intros Hv He. unfold format.
  destruct (Z.geb_spec (exp d) 0) as [Hge | _]; [lia|].
  rewrite Hv. cbn [deref bind].
  destruct (format_parts v (exp d) He) as (_ & _ & _ & Hlen & _).
  revert Hlen. unfold int_part, frac_part, neg_sign.
  assert (Hraw : (if Z.sgn v <? 0 then (tl (itoa v), [] ++ ["-"%byte])
                  else (itoa v, []))
                 = (utoa (Z.abs v), if v <? 0 then ["-"%byte] else [])).
  { unfold itoa. destruct (Z.ltb_spec v 0) as [Hn | Hn].
    - rewrite (proj2 (Z.sgn_neg_iff v) Hn). cbn. now rewrite Z.abs_neq by lia.
    - destruct (Z.ltb_spec (Z.sgn v) 0) as [Hs | _].
      + apply Z.sgn_neg_iff in Hs. lia.
      + now rewrite Z.abs_eq by lia. }
  rewrite Hraw. clear Hraw.
  set (raw := utoa (Z.abs v)). set (sg := if v <? 0 then _ else _).
  intros Hlen. clearbody raw sg.
  destruct (len raw >? - exp d).
  - destruct trim.
    + destruct (trimZeros _) as [|x t] eqn:E.
      * cbn. rewrite ?app_nil_r. reflexivity.
      * rewrite len_cons.
        destruct (Z.gtb_spec (len t + 1) 0) as [_ | Hle];
          [|pose proof (len_nonneg t); lia].
        cbn [dot_frac]. now rewrite <- app_assoc.
    + rewrite Hlen.
      destruct (Z.gtb_spec (- exp d) 0) as [_ | Hle]; [|lia].
      now rewrite <- app_assoc.
  - destruct trim.
    + destruct (trimZeros _) as [|x t] eqn:E.
      * cbn. rewrite ?app_nil_r. reflexivity.
      * rewrite len_cons.
        destruct (Z.gtb_spec (len t + 1) 0) as [_ | Hle];
          [|pose proof (len_nonneg t); lia].
        cbn [dot_frac]. now rewrite <- app_assoc.
    + rewrite Hlen.
      destruct (Z.gtb_spec (- exp d) 0) as [_ | Hle]; [|lia].
      now rewrite <- app_assoc.
Qed.

Lemma digits_plain (l : list byte) : digits l -> Forall plain_byte l.
Proof. apply Forall_impl. intros c H. now left. Qed.

Lemma neg_sign_plain (v : Z) : Forall plain_byte (neg_sign v).
Proof.
  unfold neg_sign. destruct (v <? 0); [|constructor].
  constructor; [right; now left | constructor].
Qed.

Lemma dot_frac_plain (l : list byte) : digits l -> Forall plain_byte (dot_frac l).
Proof.
  intros H. destruct l as [|c l]; [constructor|]. cbn [dot_frac].
  constructor; [right; now right | now apply digits_plain].
Qed.

(** C3 (as amended). For every decimal with an allocated magnitude: with
    exponent >= 0 both formatters print the integer [value * 10^exp];
    with a negative exponent the wire/MySQL-style formatter ([StringMySQL])
    prints the sign, the integral digits, a dot and all [-exp] fractional
    digits as stored, with no trimming, while the canonical formatter
    ([String]) prints the same text with the trailing zeros of the
    fraction removed, and no dot when nothing is left.  Either output
    consists of digits, minus sign and dot only: no scientific notation. *)
Theorem format_modes (d : Decimal) (v : Z) :
  value d = Some v -> is_int32 (exp d) ->
  (0 <= exp d ->
   String_ d = Ok (itoa (v * 10 ^ exp d)) /\
   StringMySQL d = Ok (itoa (v * 10 ^ exp d))) /\
  (exp d < 0 ->
   StringMySQL d
   = Ok (neg_sign v ++ int_part v (exp d) ++ "."%byte :: frac_part v (exp d)) /\
   String_ d
   = Ok (neg_sign v ++ int_part v (exp d)
         ++ dot_frac (trimZeros (frac_part v (exp d)))) /\
   digits (int_part v (exp d)) /\ int_part v (exp d) <> [] /\
   digits (frac_part v (exp d)) /\ len (frac_part v (exp d)) = - exp d /\
   parseDigits (int_part v (exp d) ++ frac_part v (exp d)) = Z.abs v /\
   (exists z, frac_part v (exp d)
              = trimZeros (frac_part v (exp d)) ++ repeat "0"%byte z) /\
   (trimZeros (frac_part v (exp d)) = [] \/
    last (trimZeros (frac_part v (exp d))) "1"%byte <> "0"%byte)) /\
  (forall s, String_ d = Ok s \/ StringMySQL d = Ok s -> Forall plain_byte s).
Proof.
  intros Hv Hr. unfold is_int32 in Hr.
  assert (Hb : big d = v) by (unfold big; now rewrite Hv).
  assert (Hnn : 0 <= exp d ->
                forall trim, format d [] trim = Ok (itoa (v * 10 ^ exp d))).
  { intros H trim. rewrite format_exp_nonneg by lia. now rewrite Hb. }
  split; [|split].
  - intros H. split; apply Hnn; exact H.
  - intros H.
    destruct (format_parts v (exp d) H) as (H1 & H2 & H3 & H4 & H5).
    split; [exact (format_exp_neg d v false Hv H)|].
    split; [exact (format_exp_neg d v true Hv H)|].
    repeat (split; [assumption|]).
    split; [apply trimZeros_spec | apply trimZeros_last].
  - intros s Hs.
    destruct (Z.le_gt_cases 0 (exp d)) as [H | H].
    + assert (E : s = itoa (v * 10 ^ exp d)).
      { unfold String_, StringMySQL in Hs. rewrite !Hnn in Hs by exact H.
        destruct Hs as [Hs | Hs]; now inversion Hs. }
      subst s. rewrite itoa_neg_sign.
      apply Forall_app. split; [apply neg_sign_plain|].
      apply digits_plain, utoa_spec, Z.abs_nonneg.
    + destruct (format_parts v (exp d) H) as (H1 & H2 & H3 & H4 & H5).
      unfold String_, StringMySQL in Hs.
      rewrite !(format_exp_neg d v _ Hv H) in Hs.
      destruct Hs as [Hs | Hs]; inversion Hs; subst s;
        (apply Forall_app; split; [apply neg_sign_plain|]);
        (apply Forall_app; split; [now apply digits_plain|]).
      * now apply dot_frac_plain, trimZeros_digits.
      * constructor; [right; now right | now apply digits_plain].
Qed.

Lemma format_modes_witness :
  (0 <= exp (New (-1500) (-3)) ->
   String_ (New (-1500) (-3)) = Ok (itoa (-1500 * 10 ^ exp (New (-1500) (-3)))) /\
   StringMySQL (New (-1500) (-3))
   = Ok (itoa (-1500 * 10 ^ exp (New (-1500) (-3))))) /\
  (exp (New (-1500) (-3)) < 0 ->
   StringMySQL (New (-1500) (-3))
   = Ok (neg_sign (-1500) ++ int_part (-1500) (exp (New (-1500) (-3)))
         ++ "."%byte :: frac_part (-1500) (exp (New (-1500) (-3)))) /\
   String_ (New (-1500) (-3))
   = Ok (neg_sign (-1500) ++ int_part (-1500) (exp (New (-1500) (-3)))
         ++ dot_frac (trimZeros (frac_part (-1500) (exp (New (-1500) (-3)))))) /\
   digits (int_part (-1500) (exp (New (-1500) (-3)))) /\
   int_part (-1500) (exp (New (-1500) (-3))) <> [] /\
   digits (frac_part (-1500) (exp (New (-1500) (-3)))) /\
   len (frac_part (-1500) (exp (New (-1500) (-3))))
   = - exp (New (-1500) (-3)) /\
   parseDigits (int_part (-1500) (exp (New (-1500) (-3)))
                ++ frac_part (-1500) (exp (New (-1500) (-3))))
   = Z.abs (-1500) /\
   (exists z, frac_part (-1500) (exp (New (-1500) (-3)))
              = trimZeros (frac_part (-1500) (exp (New (-1500) (-3))))
                ++ repeat "0"%byte z) /\
   (trimZeros (frac_part (-1500) (exp (New (-1500) (-3)))) = [] \/
    last (trimZeros (frac_part (-1500) (exp (New (-1500) (-3))))) "1"%byte
    <> "0"%byte)) /\
  (forall s, String_ (New (-1500) (-3)) = Ok s \/
             StringMySQL (New (-1500) (-3)) = Ok s -> Forall plain_byte s).
Proof.
  apply (format_modes (New (-1500) (-3)) (-1500)).
  - reflexivity.
  - unfold is_int32, MinInt32, MaxInt32. cbn. lia.
Defined.

(** C3 (as stated) fails: it is [String] that trims and [StringMySQL] that
    keeps the trailing zeros. *)
Lemma format_modes_counterexample :
  String_ (New 1500 (-3)) = Ok (bytes "1.5") /\
  StringMySQL (New 1500 (-3)) = Ok (bytes "1.500").
Proof. split; reflexivity. Qed.

(** ** Round trip through text *)

Lemma scaled_eq (a b e : Z) :
  (inject_Z a * pow10 e == inject_Z b * pow10 e)%Q <-> a = b.
Proof.
  split; intros H; [|now subst].
  destruct (Z.lt_total a b) as [Hlt | [Heq | Hgt]]; [|exact Heq|].
  - apply (scaled_lt a b e) in Hlt. rewrite H in Hlt.
    now apply Qlt_irrefl in Hlt.
  - apply (scaled_lt b a e) in Hgt. rewrite H in Hgt.
    now apply Qlt_irrefl in Hgt.
Qed.

Lemma toQ_at (d : Decimal) (m : Z) :
  m <= exp d ->
  (toQ d == inject_Z (big d * 10 ^ (exp d - m)) * pow10 m)%Q.
Proof.
  intros H. unfold toQ.
  rewrite inject_Z_mult, pow10_Z, <- Qmult_assoc, <- pow10_add by lia.
  replace (exp d - m + m) with (exp d) by ring. reflexivity.
Qed.

(** [Equal] decides equality of the numbers, as long as the exponents are
    less than [2^31] apart. *)
Lemma Equal_toQ (x y : Decimal) :
  - MaxInt32 <= exp x - exp y <= MaxInt32 ->
  Equal x y = true <-> (toQ x == toQ y)%Q.
Proof.
  intros H. unfold Equal. rewrite (Cmp_eval x y H), bigCmp_eq, Z.eqb_eq.
  rewrite (toQ_at x (Z.min (exp x) (exp y))) by lia.
  rewrite (toQ_at y (Z.min (exp x) (exp y))) by lia.
  symmetry. apply scaled_eq.
Qed.

Lemma dot_frac_frac_of (fp : list byte) : dot_frac fp = frac_bytes (frac_of fp).
Proof. destruct fp; reflexivity. Qed.

Lemma frac_digits_frac_of (fp : list byte) : frac_digits (frac_of fp) = fp.
Proof. destruct fp; reflexivity. Qed.

Lemma neg_sign_sign_of (v : Z) : neg_sign v = sign_bytes (sign_of v).
Proof. unfold neg_sign, sign_of. destruct (v <? 0); reflexivity. Qed.

Lemma signed_abs (v : Z) : (if is_neg (sign_of v) then - Z.abs v else Z.abs v) = v.
Proof. unfold sign_of. destruct (Z.ltb_spec v 0); cbn [is_neg]; lia. Qed.

(** What [String] prints is a text of the grammar, and the parser reads
    it as a decimal standing for the same number. *)
Lemma String_parses_back (d : Decimal) (v : Z) :
  value d = Some v -> is_int32 (exp d) ->
  exists s d', String_ d = Ok s /\ NewFromMySQL s = Parsed d' /\
               (toQ d' == toQ d)%Q /\ Z.min (exp d) 0 <= exp d' <= 0.
Proof.
  intros Hv Hr. unfold is_int32, MinInt32, MaxInt32 in Hr.
  assert (Hb : big d = v) by (unfold big; now rewrite Hv).
  unfold NewFromMySQL.
  destruct (Z.le_gt_cases 0 (exp d)) as [He | He].
  - (* integral form *)
    set (V := v * 10 ^ exp d).
    destruct (utoa_spec (Z.abs V) (Z.abs_nonneg V)) as (Hp & Hd & Hne).
    exists (itoa V), (fixed_value (sign_of V) (utoa (Z.abs V)) None).
    split; [unfold String_; rewrite format_exp_nonneg, Hb
              by (unfold MaxInt32; lia); reflexivity|].
    split.
    { assert (Ht : itoa V = fixed_text (sign_of V) (utoa (Z.abs V)) None).
      { unfold fixed_text. cbn [frac_bytes].
        now rewrite app_nil_r, itoa_neg_sign, neg_sign_sign_of. }
      rewrite Ht.
      rewrite NewFromMySQL_route_fixed; try assumption; try reflexivity.
      - constructor.
      - cbn [frac_digits]. now rewrite app_nil_r.
      - cbn. lia. }
    split.
    { unfold fixed_value, toQ. cbn [frac_digits big value exp].
      rewrite app_nil_r, Hp, signed_abs, Hb. change (- len []) with 0.
      unfold V. rewrite inject_Z_mult, pow10_Z by lia.
      change (pow10 0) with 1%Q. ring. }
    unfold fixed_value. cbn [exp frac_digits]. change (len []) with 0. lia.
  - (* a fraction *)
    destruct (format_parts v (exp d) He) as (H1 & H2 & H3 & H4 & H5).
    destruct (trimZeros_spec (frac_part v (exp d))) as (z & Hz).
    pose proof (trimZeros_digits _ H3) as H3'.
    set (ip := int_part v (exp d)) in *.
    set (fp := frac_part v (exp d)) in *.
    set (fp' := trimZeros fp) in *.
    assert (Hl : len fp' + Z.of_nat z = - exp d)
      by (rewrite <- H4, Hz, len_app, len_repeat; reflexivity).
    pose proof (len_nonneg fp') as Hl0.
    exists (fixed_text (sign_of v) ip (frac_of fp')),
           (fixed_value (sign_of v) ip (frac_of fp')).
    split.
    { unfold String_. rewrite (format_exp_neg d v true Hv He).
      fold ip fp fp'. now rewrite neg_sign_sign_of, dot_frac_frac_of. }
    split.
    { rewrite NewFromMySQL_route_fixed; rewrite ?frac_digits_frac_of;
        try assumption; try reflexivity.
      - intros E. apply app_eq_nil in E. destruct E as (E & _). contradiction.
      - lia. }
    split.
    { unfold fixed_value, toQ. cbn [big value exp].
      rewrite frac_digits_frac_of, Hb.
      assert (Hn : Z.abs v = parseDigits (ip ++ fp') * 10 ^ Z.of_nat z).
      { rewrite <- H5, Hz, !parseDigits_fold, app_assoc, fold_digits_app.
        apply fold_digits_zeros. }
      rewrite <- (signed_abs v) at 2. rewrite Hn.
      assert (Hexp : - len fp' = Z.of_nat z + exp d) by (clear - Hl; lia).
      rewrite Hexp, pow10_add, <- pow10_Z by lia.
      destruct (is_neg (sign_of v));
        rewrite ?inject_Z_opp, ?inject_Z_mult; ring. }
    unfold fixed_value. cbn [exp]. rewrite frac_digits_frac_of. lia.
Qed.

(** C8 (as amended). For every decimal with an allocated magnitude and an
    int32 exponent, the canonical text parses, and the decimal parsed
    stands for the same number; [Equal] confirms it (its own exponent
    arithmetic needs the exponent above the int32 minimum).  The
    representation may differ: trailing zeros are trimmed and a
    non-negative exponent is folded into the digits. *)
Theorem parse_format_roundtrip (d : Decimal) (v : Z) :
  value d = Some v -> is_int32 (exp d) ->
  exists s d', String_ d = Ok s /\ NewFromMySQL s = Parsed d' /\
               (toQ d' == toQ d)%Q /\
               (MinInt32 < exp d -> Equal d' d = true).
Proof.
  intros Hv Hr.
  destruct (String_parses_back d v Hv Hr) as (s & d' & Hs & Hp & Hq & He).
  exists s, d'. repeat split; try assumption.
  intros Hm. apply Equal_toQ; [|exact Hq].
  unfold is_int32, MinInt32, MaxInt32 in *. lia.
Qed.

Lemma parse_format_roundtrip_witness :
  exists s d', String_ (New (-1500) (-3)) = Ok s /\
               NewFromMySQL s = Parsed d' /\
               (toQ d' == toQ (New (-1500) (-3)))%Q /\
               (MinInt32 < exp (New (-1500) (-3)) ->
                Equal d' (New (-1500) (-3)) = true).
Proof.
  apply (parse_format_roundtrip (New (-1500) (-3)) (-1500)).
  - reflexivity.
  - unfold is_int32, MinInt32, MaxInt32. cbn. lia.
Defined.

(** C8 (as stated) fails: the parsed decimal is not [d] again.  1.500,
    which is not zero, prints as 1.5 and parses as 15e-1, a different
    magnitude and exponent. *)
Lemma parse_format_roundtrip_counterexample :
  String_ (New 1500 (-3)) = Ok (bytes "1.5") /\
  NewFromMySQL (bytes "1.5") = Parsed (New 15 (-1)) /\
  New 15 (-1) <> New 1500 (-3) /\
  ~ (toQ (New 1500 (-3)) == 0)%Q.
Proof.
  split; [reflexivity|]. split; [reflexivity|].
  split; [discriminate|].
  unfold toQ. cbn [New big value exp]. rewrite scaled_zero. lia.
Qed.

Example roundtrip_examples :
  NewFromMySQL (bytes "-1.5") = Parsed (New (-15) (-1)) /\
  String_ (New (-1500) (-3)) = Ok (bytes "-1.5") /\
  String_ (New 15 2) = Ok (bytes "1500") /\
  String_ (New 0 (-3)) = Ok (bytes "0") /\
  String_ (New (-5) (-3)) = Ok (bytes "-0.005").
Proof. repeat split; reflexivity. Qed.

(** ** Acceptance and rejection by the wire-format parser *)

(** Every error carries the original input. *)
Lemma NewFromMySQL_error_echo (s : list byte) (e : error) :
  NewFromMySQL s = Err e -> echoed e = s.
Proof.
  unfold NewFromMySQL, NewFromMySQL_route.
  destruct (stripSign s) as [neg body].
  assert (Hbig : bigFallback s body neg = Err e -> echoed e = s).
  { unfold bigFallback.
    repeat match goal with
           | |- context [if ?c then _ else _] => destruct c
           | |- context [match SetString ?x with _ => _ end] =>
               destruct (SetString x)
           end; intros H; inversion H; reflexivity. }
  destruct (len body =? 0); [intros H; inversion H; reflexivity|].
  destruct (len body <=? 18); [|exact Hbig].
  destruct (parseDecimal64 body) as [[| |]|dec]; cbn [snd];
    try exact Hbig; intros H; inversion H; reflexivity.
Qed.

(** Every text of the grammar is accepted. *)
Lemma NewFromMySQL_accepts_grammar (s : list byte) :
  in_grammar s ->
  (forall sg ip fr, s = fixed_text sg ip fr -> len (frac_digits fr) <= 2147483648) ->
  exists d, NewFromMySQL s = Parsed d.
Proof.
  intros (sg & ip & fr & -> & Hip & Hfp & Hne) Hlen.
  exists (fixed_value sg ip fr). unfold NewFromMySQL.
  rewrite NewFromMySQL_route_fixed; try assumption; [reflexivity|].
  now apply (Hlen sg ip fr).
Qed.

(** The 64-bit path rejects a second sign, a letter and a second dot, and
    an empty text is rejected before parsing. *)
Example NewFromMySQL_rejections :
  NewFromMySQL (bytes "--1") = Err (ErrParse (bytes "--1") (errUnexpected "-")) /\
  NewFromMySQL (bytes "1e5") = Err (ErrParse (bytes "1e5") (errUnexpected "e")) /\
  NewFromMySQL (bytes "1.2.3") = Err (ErrParse (bytes "1.2.3") errTooManyDots) /\
  NewFromMySQL (bytes "+") = Err (ErrTooShort (bytes "+")) /\
  NewFromMySQL (bytes "1234567890.1234567890.5")
  = Err (ErrTooManyDots (bytes "1234567890.1234567890.5")) /\
  NewFromMySQL (bytes "1234567890123456789x")
  = Err (ErrNotNumber (bytes "1234567890123456789x")).
Proof. repeat split; reflexivity. Qed.

Lemma double_sign_not_in_grammar (rest : list byte) :
  ~ in_grammar ("-"%byte :: "-"%byte :: rest).
Proof.
  intros (sg & ip & fr & E & Hip & Hfp & Hne). unfold fixed_text in E.
  assert (Hbody : forall t, "-"%byte :: t = ip ++ frac_bytes fr -> False).
  { intros t Ht. destruct ip as [|c ip].
    - destruct fr as [fp|]; cbn in Ht; discriminate.
    - inversion Hip as [|? ? Hc _]; subst. cbn in Ht.
      inversion Ht; subst. discriminate. }
  destruct sg as [[|]|]; cbn [sign_bytes app] in E.
  - inversion E as [E']. exact (Hbody _ E').
  - discriminate.
  - exact (Hbody _ E).
Qed.

Lemma lone_dot_not_in_grammar : ~ in_grammar ["."%byte].
Proof.
  intros (sg & ip & fr & E & Hip & Hfp & Hne). unfold fixed_text in E.
  destruct sg as [[|]|]; cbn [sign_bytes app] in E; try discriminate.
  destruct ip as [|c ip].
  - destruct fr as [fp|]; cbn in *; [|contradiction].
    inversion E; subst. contradiction.
  - inversion Hip as [|? ? Hc _]; subst. cbn in E.
    inversion E; subst. discriminate.
Qed.

(** C10: the parser does not reject everything outside the grammar.  A
    text with two signs is rejected by the 64-bit path, but once it is
    longer than 18 bytes it reaches [SetString], which reads the second
    sign itself: the text is accepted (here with the value of the digits,
    the two minus signs cancelling).  A lone dot, which has no digit, is
    accepted as zero by the 64-bit path. *)
Theorem NewFromMySQL_accepts_outside_grammar :
  ~ in_grammar (bytes "--1234567890123456789") /\
  NewFromMySQL (bytes "--1234567890123456789")
  = Parsed (New 1234567890123456789 0) /\
  NewFromMySQL (bytes "--1")
  = Err (ErrParse (bytes "--1") (errUnexpected "-")) /\
  ~ in_grammar (bytes ".") /\
  NewFromMySQL (bytes ".") = Parsed (New 0 0).
Proof.
  split; [apply double_sign_not_in_grammar|].
  split; [reflexivity|]. split; [reflexivity|].
  split; [apply lone_dot_not_in_grammar | reflexivity].
Qed.

(* ------------------------------------------------------------------ *)
(** * Further properties of the package *)

(** ** Alignment of exponents *)

Lemma ensureInitialized_eta (d : Decimal) :
  ensureInitialized d = {| value := Some (big d); exp := exp d |}.
Proof. destruct d as [[v|] e]; reflexivity. Qed.

(** [RescalePair] brings both magnitudes to the smaller exponent. *)
Lemma RescalePair_eval (d d2 : Decimal) :
  - MaxInt32 <= exp d - exp d2 <= MaxInt32 ->
  RescalePair d d2
  = ({| value := Some (big d * 10 ^ (exp d - Z.min (exp d) (exp d2)));
        exp := Z.min (exp d) (exp d2) |},
     {| value := Some (big d2 * 10 ^ (exp d2 - Z.min (exp d) (exp d2)));
        exp := Z.min (exp d) (exp d2) |}).
Proof.
  intros H. unfold RescalePair.
  rewrite !exp_ensureInitialized.
  destruct (Z.eqb_spec (exp d) (exp d2)) as [E | E].
  - rewrite !ensureInitialized_eta, <- E, Z.min_id, Z.sub_diag, !Z.mul_1_r.
    reflexivity.
  - unfold min. destruct (Z.geb_spec (exp d) (exp d2)) as [G | G].
    + replace (exp d2 =? exp d) with false by (symmetry; apply Z.eqb_neq; lia).
      cbn [negb]. rewrite rescale_down by (rewrite ?exp_ensureInitialized; lia).
      rewrite big_ensureInitialized, exp_ensureInitialized, ensureInitialized_eta.
      rewrite Z.min_r by lia. now rewrite Z.sub_diag, Z.mul_1_r.
    + rewrite Z.eqb_refl. cbn [negb].
      rewrite rescale_down by (rewrite ?exp_ensureInitialized; lia).
      rewrite big_ensureInitialized, exp_ensureInitialized, ensureInitialized_eta.
      rewrite Z.min_l by lia. now rewrite Z.sub_diag, Z.mul_1_r.
Qed.

(** [RescalePair] returns two decimals with the same exponent, the smaller
    of the two, each standing for the number it came from. *)
Theorem RescalePair_aligns (d d2 : Decimal) :
  - MaxInt32 <= exp d - exp d2 <= MaxInt32 ->
  exp (fst (RescalePair d d2)) = Z.min (exp d) (exp d2) /\
  exp (snd (RescalePair d d2)) = Z.min (exp d) (exp d2) /\
  (toQ (fst (RescalePair d d2)) == toQ d)%Q /\
  (toQ (snd (RescalePair d d2)) == toQ d2)%Q.
Proof.
  intros H. rewrite (RescalePair_eval d d2 H). cbn [fst snd exp].
  split; [reflexivity|]. split; [reflexivity|].
  split; unfold toQ at 1; cbn [big value exp]; symmetry.
  - apply (toQ_at d (Z.min (exp d) (exp d2))). lia.
  - apply (toQ_at d2 (Z.min (exp d) (exp d2))). lia.
Qed.

Lemma RescalePair_aligns_witness :
  exp (fst (RescalePair (New 15 (-1)) (New 2 3))) = Z.min (-1) 3 /\
  exp (snd (RescalePair (New 15 (-1)) (New 2 3))) = Z.min (-1) 3 /\
  (toQ (fst (RescalePair (New 15 (-1)) (New 2 3))) == toQ (New 15 (-1)))%Q /\
  (toQ (snd (RescalePair (New 15 (-1)) (New 2 3))) == toQ (New 2 3))%Q.
Proof.
  apply (RescalePair_aligns (New 15 (-1)) (New 2 3)).
  unfold MaxInt32. cbn. lia.
Defined.

(** ** Addition, subtraction, negation *)

Lemma toQ_aligned_sum (d d2 : Decimal) (m : Z) :
  m <= exp d -> m <= exp d2 ->
  (inject_Z (big d * 10 ^ (exp d - m) + big d2 * 10 ^ (exp d2 - m)) * pow10 m
   == toQ d + toQ d2)%Q.
Proof.
  intros H1 H2. rewrite (toQ_at d m H1), (toQ_at d2 m H2), inject_Z_plus. ring.
Qed.

(** [Add] is exact: the result has the smaller exponent and stands for the
    sum. *)
Theorem Add_exact (d d2 : Decimal) :
  - MaxInt32 <= exp d - exp d2 <= MaxInt32 ->
  exp (Add d d2) = Z.min (exp d) (exp d2) /\
  (toQ (Add d d2) == toQ d + toQ d2)%Q.
Proof.
  intros H. unfold Add. rewrite (RescalePair_eval d d2 H).
  cbn [exp big value]. split; [reflexivity|].
  unfold toQ at 1. cbn [big value exp]. apply toQ_aligned_sum; lia.
Qed.

Lemma Add_exact_witness :
  exp (Add (New 15 (-1)) (New 2 3)) = Z.min (-1) 3 /\
  (toQ (Add (New 15 (-1)) (New 2 3)) == toQ (New 15 (-1)) + toQ (New 2 3))%Q.
Proof.
  apply (Add_exact (New 15 (-1)) (New 2 3)). unfold MaxInt32. cbn. lia.
Defined.

Lemma toQ_Neg (d : Decimal) : (toQ (Neg d) == - toQ d)%Q.
Proof.
  unfold Neg, toQ. cbn [big value exp].
  rewrite big_ensureInitialized, exp_ensureInitialized, inject_Z_opp. ring.
Qed.

Lemma sub_eval (d d2 : Decimal) :
  - MaxInt32 <= exp d - exp d2 <= MaxInt32 ->
  sub d d2
  = {| value := Some (big d * 10 ^ (exp d - Z.min (exp d) (exp d2))
                      - big d2 * 10 ^ (exp d2 - Z.min (exp d) (exp d2)));
       exp := Z.min (exp d) (exp d2) |}.
Proof. intros H. unfold sub. now rewrite (RescalePair_eval d d2 H). Qed.

Lemma toQ_sub (d d2 : Decimal) :
  - MaxInt32 <= exp d - exp d2 <= MaxInt32 ->
  (toQ (sub d d2) == toQ d - toQ d2)%Q.
Proof.
  intros H. rewrite (sub_eval d d2 H). unfold toQ at 1. cbn [big value exp].
  set (m := Z.min (exp d) (exp d2)).
  rewrite (toQ_at d m), (toQ_at d2 m) by (unfold m; lia).
  unfold Z.sub at 1. rewrite inject_Z_plus, inject_Z_opp. ring.
Qed.

(** [Sub] is exact, and an exactly-zero difference is returned as the
    canonical zero (magnitude 0, exponent 0); any other difference keeps
    the smaller exponent. *)
Theorem Sub_exact_and_canonical_zero (d d2 : Decimal) :
  - MaxInt32 <= exp d - exp d2 <= MaxInt32 ->
  (toQ (Sub d d2) == toQ d - toQ d2)%Q /\
  ((toQ d == toQ d2)%Q -> Sub d d2 = New 0 0) /\
  (~ (toQ d == toQ d2)%Q -> exp (Sub d d2) = Z.min (exp d) (exp d2)).
Proof.
  intros H. pose proof (toQ_sub d d2 H) as Hs. unfold Sub.
  rewrite (sub_eval d d2 H) in *. cbn [big value exp] in *.
  set (n := big d * 10 ^ (exp d - Z.min (exp d) (exp d2))
            - big d2 * 10 ^ (exp d2 - Z.min (exp d) (exp d2))) in *.
  set (m := Z.min (exp d) (exp d2)) in *.
  assert (Hz : n = 0 <-> (toQ d == toQ d2)%Q).
  { rewrite <- (scaled_zero n m).
    change (inject_Z n * pow10 m)%Q with (toQ {| value := Some n; exp := m |}).
    rewrite Hs. split; intros E; lra. }
  destruct (Z.eq_dec n 0) as [E | E].
  - rewrite E in *. cbn [Z.sgn Z.eqb]. split; [|split].
    + rewrite <- Hs. unfold toQ. cbn [big value exp]. ring.
    + intros _. reflexivity.
    + intros Hne. exfalso. apply Hne, Hz. reflexivity.
  - assert (Es : (Z.sgn n =? 0) = false)
      by (apply Z.eqb_neq; rewrite Z.sgn_null_iff; exact E).
    rewrite Es. split; [exact Hs|]. split.
    + intros Heq. exfalso. apply E, Hz, Heq.
    + reflexivity.
Qed.

Lemma Sub_exact_and_canonical_zero_witness :
  (toQ (Sub (New 150 (-2)) (New 15 (-1)))
   == toQ (New 150 (-2)) - toQ (New 15 (-1)))%Q /\
  ((toQ (New 150 (-2)) == toQ (New 15 (-1)))%Q ->
   Sub (New 150 (-2)) (New 15 (-1)) = New 0 0) /\
  (~ (toQ (New 150 (-2)) == toQ (New 15 (-1)))%Q ->
   exp (Sub (New 150 (-2)) (New 15 (-1))) = Z.min (-2) (-1)).
Proof.
  apply (Sub_exact_and_canonical_zero (New 150 (-2)) (New 15 (-1))).
  unfold MaxInt32. cbn. lia.
Defined.

(** [Neg] flips the sign, keeps the exponent, and undoes itself; adding a
    decimal to its negation gives magnitude 0 at the operand's exponent
    (not the canonical zero, which only [Sub] produces). *)
Theorem Neg_involutive_and_cancels (d : Decimal) :
  (toQ (Neg d) == - toQ d)%Q /\ exp (Neg d) = exp d /\
  Neg (Neg d) = ensureInitialized d /\
  Add d (Neg d) = {| value := Some 0; exp := exp d |} /\
  Sub d d = New 0 0.
Proof.
  split; [apply toQ_Neg|].
  split; [unfold Neg; cbn; apply exp_ensureInitialized|].
  split.
  { unfold Neg. cbn [ensureInitialized value exp big].
    rewrite big_ensureInitialized, exp_ensureInitialized, Z.opp_involutive.
    symmetry. apply ensureInitialized_eta. }
  split.
  - unfold Add, RescalePair, Neg. cbn [ensureInitialized value exp big].
    rewrite !exp_ensureInitialized, Z.eqb_refl. cbn [big value exp].
    rewrite !big_ensureInitialized, exp_ensureInitialized. f_equal. f_equal. lia.
  - unfold Sub, sub, RescalePair. rewrite Z.eqb_refl. cbn [big value exp].
    rewrite Z.sub_diag. reflexivity.
Qed.

(** ** Multiplication *)

Lemma Sign_big (d : Decimal) : Sign d = Z.sgn (big d).
Proof. unfold Sign, big. destruct (value d); reflexivity. Qed.

(** For nonzero operands [Mul] either returns the exact product, with the
    exponents added, or aborts - exactly when the sum of the exponents
    leaves the int32 range; the message of the abort shows that sum. *)
Theorem Mul_product_or_abort (d d2 : Decimal) :
  Sign d <> 0 -> Sign d2 <> 0 ->
  (is_int32 (exp d + exp d2) ->
   exists r, Mul d d2 = Ok r /\ exp r = exp d + exp d2 /\
             (toQ r == toQ d * toQ d2)%Q) /\
  (~ is_int32 (exp d + exp d2) ->
   Mul d d2 = Panic ("exponent " ++ string_of_list_byte (itoa (exp d + exp d2))
                     ++ " overflows an int32!")).
Proof.
  intros H1 H2. unfold Mul, mul.
  apply Z.eqb_neq in H1. apply Z.eqb_neq in H2. rewrite H1, H2. cbn [orb].
  rewrite !big_ensureInitialized, !exp_ensureInitialized.
  unfold is_int32. split; intros H.
  - replace ((exp d + exp d2 >? MaxInt32) || (exp d + exp d2 <? MinInt32))
      with false by (symmetry; apply orb_false_iff; split; lia).
    eexists. split; [reflexivity|]. split; [reflexivity|].
    unfold toQ. cbn [big value exp]. rewrite inject_Z_mult, pow10_add. ring.
  - replace ((exp d + exp d2 >? MaxInt32) || (exp d + exp d2 <? MinInt32))
      with true; [reflexivity|].
    symmetry. apply orb_true_iff.
    destruct (Z.gtb_spec (exp d + exp d2) MaxInt32); [now left|].
    right. apply Z.ltb_lt. lia.
Qed.

Lemma Mul_product_or_abort_witness :
  (is_int32 (exp (New 15 (-1)) + exp (New (-2) 3)) ->
   exists r, Mul (New 15 (-1)) (New (-2) 3) = Ok r /\
             exp r = exp (New 15 (-1)) + exp (New (-2) 3) /\
             (toQ r == toQ (New 15 (-1)) * toQ (New (-2) 3))%Q) /\
  (~ is_int32 (exp (New 15 (-1)) + exp (New (-2) 3)) ->
   Mul (New 15 (-1)) (New (-2) 3)
   = Panic ("exponent "
            ++ string_of_list_byte (itoa (exp (New 15 (-1)) + exp (New (-2) 3)))
            ++ " overflows an int32!")).
Proof.
  apply (Mul_product_or_abort (New 15 (-1)) (New (-2) 3)); cbn; lia.
Defined.

(** ** Comparison *)

Lemma bigCmp_cases (x y : Z) :
  (bigCmp x y = -1 <-> x < y) /\ (bigCmp x y = 0 <-> x = y) /\
  (bigCmp x y = 1 <-> y < x).
Proof.
  unfold bigCmp. destruct (Z.compare_spec x y); repeat split; intros; try lia.
Qed.

(** [Cmp] orders decimals as the numbers they stand for, whatever their
    exponents (as long as these are less than [2^31] apart); [Equal] is
    the zero case. *)
Theorem Cmp_orders_numbers (d d2 : Decimal) :
  - MaxInt32 <= exp d - exp d2 <= MaxInt32 ->
  (Cmp d d2 = -1 <-> (toQ d < toQ d2)%Q) /\
  (Cmp d d2 = 0 <-> (toQ d == toQ d2)%Q) /\
  (Cmp d d2 = 1 <-> (toQ d2 < toQ d)%Q) /\
  (Equal d d2 = true <-> (toQ d == toQ d2)%Q).
Proof.
  intros H. unfold Equal. rewrite (Cmp_eval d d2 H), bigCmp_eq, Z.eqb_eq.
  set (m := Z.min (exp d) (exp d2)).
  rewrite (toQ_at d m), (toQ_at d2 m) by (unfold m; lia).
  rewrite !scaled_lt, scaled_eq.
  destruct (bigCmp_cases (big d * 10 ^ (exp d - m)) (big d2 * 10 ^ (exp d2 - m)))
    as (A & B & C).
  split; [exact A|]. split; [exact B|]. split; [exact C | reflexivity].
Qed.

Lemma Cmp_orders_numbers_witness :
  (Cmp (New 150 (-2)) (New 2 0) = -1
   <-> (toQ (New 150 (-2)) < toQ (New 2 0))%Q) /\
  (Cmp (New 150 (-2)) (New 2 0) = 0
   <-> (toQ (New 150 (-2)) == toQ (New 2 0))%Q) /\
  (Cmp (New 150 (-2)) (New 2 0) = 1
   <-> (toQ (New 2 0) < toQ (New 150 (-2)))%Q) /\
  (Equal (New 150 (-2)) (New 2 0) = true
   <-> (toQ (New 150 (-2)) == toQ (New 2 0))%Q).
Proof.
  apply (Cmp_orders_numbers (New 150 (-2)) (New 2 0)).
  unfold MaxInt32. cbn. lia.
Defined.

Lemma CmpAbs_eval (x y : Decimal) :
  - MaxInt32 <= exp x - exp y <= MaxInt32 ->
  CmpAbs x y = bigCmp (Z.abs (big x) * 10 ^ (exp x - Z.min (exp x) (exp y)))
                      (Z.abs (big y) * 10 ^ (exp y - Z.min (exp x) (exp y))).
Proof.
  intros H. unfold CmpAbs.
  rewrite !big_ensureInitialized, !exp_ensureInitialized.
  destruct (Z.eqb_spec (exp x) (exp y)) as [E | E].
  - rewrite E, Z.min_id, Z.sub_diag, !Z.mul_1_r. reflexivity.
  - rewrite RescalePair_eval by (rewrite !exp_ensureInitialized; exact H).
    rewrite !big_ensureInitialized, !exp_ensureInitialized.
    cbn [big value]. unfold bigCmpAbs.
    rewrite !Z.abs_mul, !(Z.abs_eq (10 ^ _)) by (apply Z.pow_nonneg; lia).
    reflexivity.
Qed.

Lemma Qabs_toQ_at (d : Decimal) (m : Z) :
  m <= exp d ->
  (Qabs (toQ d) == inject_Z (Z.abs (big d) * 10 ^ (exp d - m)) * pow10 m)%Q.
Proof.
  intros H. rewrite (toQ_at d m H), scaled_abs, Z.abs_mul.
  rewrite (Z.abs_eq (10 ^ _)) by (apply Z.pow_nonneg; lia). reflexivity.
Qed.

(** [CmpAbs] orders decimals by absolute value, ignoring the signs. *)
Theorem CmpAbs_orders_magnitudes (d d2 : Decimal) :
  - MaxInt32 <= exp d - exp d2 <= MaxInt32 ->
  (CmpAbs d d2 = -1 <-> (Qabs (toQ d) < Qabs (toQ d2))%Q) /\
  (CmpAbs d d2 = 0 <-> (Qabs (toQ d) == Qabs (toQ d2))%Q) /\
  (CmpAbs d d2 = 1 <-> (Qabs (toQ d2) < Qabs (toQ d))%Q).
Proof.
  intros H. rewrite (CmpAbs_eval d d2 H).
  set (m := Z.min (exp d) (exp d2)).
  rewrite (Qabs_toQ_at d m), (Qabs_toQ_at d2 m) by (unfold m; lia).
  rewrite !scaled_lt, scaled_eq. apply bigCmp_cases.
Qed.

Lemma CmpAbs_orders_magnitudes_witness :
  (CmpAbs (New (-150) (-2)) (New 1 0) = -1
   <-> (Qabs (toQ (New (-150) (-2))) < Qabs (toQ (New 1 0)))%Q) /\
  (CmpAbs (New (-150) (-2)) (New 1 0) = 0
   <-> (Qabs (toQ (New (-150) (-2))) == Qabs (toQ (New 1 0)))%Q) /\
  (CmpAbs (New (-150) (-2)) (New 1 0) = 1
   <-> (Qabs (toQ (New 1 0)) < Qabs (toQ (New (-150) (-2))))%Q).
Proof.
  apply (CmpAbs_orders_magnitudes (New (-150) (-2)) (New 1 0)).
  unfold MaxInt32. cbn. lia.
Defined.

(** [abs], [Sign] and [IsZero] read the number's absolute value and sign. *)
Theorem abs_Sign_IsZero (d : Decimal) :
  (toQ (abs d) == Qabs (toQ d))%Q /\ exp (abs d) = exp d /\
  (Sign d = 1 <-> (0 < toQ d)%Q) /\ (Sign d = -1 <-> (toQ d < 0)%Q) /\
  (Sign d = 0 <-> (toQ d == 0)%Q) /\ (IsZero d = true <-> (toQ d == 0)%Q).
Proof.
  split.
  { unfold toQ at 1. rewrite big_abs, exp_abs. symmetry. apply scaled_abs. }
  split; [apply exp_abs|].
  unfold IsZero. rewrite Z.eqb_eq, Sign_big. unfold toQ.
  rewrite scaled_pos, scaled_neg, scaled_zero.
  rewrite Z.sgn_null_iff.
  repeat split; intros H; lia.
Qed.

(** ** Rescaling and truncation *)

Lemma quot_trunc_bounds (v P : Z) :
  0 < P ->
  Z.abs (Z.quot v P) * P <= Z.abs v /\
  Z.abs v < Z.abs (Z.quot v P) * P + P /\
  (0 <= v -> 0 <= Z.quot v P) /\ (v <= 0 -> Z.quot v P <= 0).
Proof.
  intros HP.
  pose proof (Z.quot_rem' (Z.abs v) (Z.abs P)) as Ha.
  rewrite Z.quot_abs, Z.rem_abs, (Z.abs_eq P) in Ha by lia.
  pose proof (Z.rem_bound_abs v P ltac:(lia)) as Hr.
  rewrite (Z.abs_eq P) in Hr by lia.
  split; [lia|]. split; [lia|]. split; intros H.
  - apply Z.quot_pos; lia.
  - pose proof (Z.quot_opp_l v P ltac:(lia)).
    pose proof (Z.quot_pos (- v) P). lia.
Qed.

Lemma scaled_nonneg (a e : Z) : (0 <= inject_Z a * pow10 e)%Q <-> 0 <= a.
Proof.
  rewrite <- (scaled_le 0 a e).
  now setoid_replace (inject_Z 0 * pow10 e)%Q with 0%Q by ring.
Qed.

Lemma scaled_nonpos (a e : Z) : (inject_Z a * pow10 e <= 0)%Q <-> a <= 0.
Proof.
  rewrite <- (scaled_le a 0 e).
  now setoid_replace (inject_Z 0 * pow10 e)%Q with 0%Q by ring.
Qed.

Lemma rescale_up_cuts (d : Decimal) (e : Z) :
  exp d < e -> e - exp d <= MaxInt32 ->
  cut_toward_zero (toQ d) e (rescale d e).
Proof.
  intros H1 H2. rewrite rescale_up by lia.
  set (P := 10 ^ (e - exp d)).
  assert (HP : 0 < P) by (apply Z.pow_pos_nonneg; lia).
  destruct (quot_trunc_bounds (big d) P HP) as (B1 & B2 & B3 & B4).
  assert (Hpe : (pow10 e == inject_Z P * pow10 (exp d))%Q).
  { unfold P. rewrite pow10_Z, <- pow10_add by lia.
    replace (e - exp d + exp d) with e by ring. reflexivity. }
  unfold cut_toward_zero. cbn [exp]. split; [reflexivity|].
  assert (HY : (toQ {| value := Some (Z.quot (big d) P); exp := e |}
                == inject_Z (Z.quot (big d) P * P) * pow10 (exp d))%Q).
  { unfold toQ. cbn [big value exp]. rewrite Hpe, inject_Z_mult. ring. }
  rewrite HY. unfold toQ. rewrite !scaled_abs, Hpe.
  rewrite Z.abs_mul, (Z.abs_eq P) by lia.
  rewrite !scaled_nonneg, !scaled_nonpos, scaled_le.
  split; [exact B1|]. split.
  - apply (proj2 (scaled_lt _ _ (exp d))) in B2.
    rewrite inject_Z_plus in B2. lra.
  - split; intros H; [specialize (B3 H) | specialize (B4 H)]; nia.
Qed.

(** [rescale] changes the exponent: lowering it multiplies the magnitude
    and keeps the number; raising it cuts digits off toward zero (it never
    rounds). *)
Theorem rescale_exact_or_truncates (d : Decimal) (e : Z) :
  - MaxInt32 <= e - exp d <= MaxInt32 ->
  exp (rescale d e) = e /\
  (e <= exp d -> (toQ (rescale d e) == toQ d)%Q) /\
  (exp d < e -> cut_toward_zero (toQ d) e (rescale d e)).
Proof.
  intros H. split; [apply exp_rescale|]. split; intros He.
  - rewrite rescale_down by lia. unfold toQ at 1. cbn [big value exp].
    symmetry. now apply toQ_at.
  - apply rescale_up_cuts; lia.
Qed.

Lemma rescale_exact_or_truncates_witness :
  exp (rescale (New (-12345) (-4)) (-1)) = -1 /\
  (-1 <= exp (New (-12345) (-4)) ->
   (toQ (rescale (New (-12345) (-4)) (-1)) == toQ (New (-12345) (-4)))%Q) /\
  (exp (New (-12345) (-4)) < -1 ->
   cut_toward_zero (toQ (New (-12345) (-4))) (-1)
     (rescale (New (-12345) (-4)) (-1))).
Proof.
  apply (rescale_exact_or_truncates (New (-12345) (-4)) (-1)).
  unfold MaxInt32. cbn. lia.
Defined.

(** The example of the source comment: 1.2345 rescaled to one digit is
    1.2, and back to four digits 1.2000. *)
Example rescale_doc_example :
  rescale (New 12345 (-4)) (-1) = New 12 (-1) /\
  rescale (rescale (New 12345 (-4)) (-1)) (-4) = New 12000 (-4).
Proof. split; reflexivity. Qed.

(** [truncate] cuts a decimal toward zero to [precision] fractional
    digits when it has more of them; with a negative precision, or with no
    more than [precision] fractional digits, it returns the operand as it
    is (integer digits are never cut). *)
Theorem truncate_cuts_fraction (d : Decimal) (precision : Z) :
  precision <= MaxInt32 -> - precision - exp d <= MaxInt32 ->
  (precision < 0 \/ - precision <= exp d ->
   truncate d precision = ensureInitialized d) /\
  (0 <= precision -> exp d < - precision ->
   cut_toward_zero (toQ d) (- precision) (truncate d precision)).
Proof.
  intros Hp Hr. unfold truncate. rewrite exp_ensureInitialized.
  split.
  - intros [H | H].
    + destruct (Z.geb_spec precision 0); [lia | reflexivity].
    + destruct (Z.geb_spec precision 0) as [H0 | H0]; [|reflexivity].
      rewrite int32_id by (unfold is_int32, MinInt32, MaxInt32 in *; lia).
      rewrite Z.gtb_ltb. destruct (Z.ltb_spec (exp d) (- precision)); [lia|].
      reflexivity.
  - intros H0 H.
    rewrite int32_id by (unfold is_int32, MinInt32, MaxInt32 in *; lia).
    destruct (Z.geb_spec precision 0); [|lia].
    rewrite Z.gtb_ltb. destruct (Z.ltb_spec (exp d) (- precision)); [|lia].
    cbn [andb]. rewrite <- (toQ_ensureInitialized d).
    apply rescale_up_cuts; rewrite exp_ensureInitialized; lia.
Qed.

Lemma truncate_cuts_fraction_witness :
  (2 < 0 \/ - 2 <= exp (New (-12345) (-4)) ->
   truncate (New (-12345) (-4)) 2 = ensureInitialized (New (-12345) (-4))) /\
  (0 <= 2 -> exp (New (-12345) (-4)) < - 2 ->
   cut_toward_zero (toQ (New (-12345) (-4))) (- 2)
     (truncate (New (-12345) (-4)) 2)).
Proof.
  apply (truncate_cuts_fraction (New (-12345) (-4)) 2);
    unfold MaxInt32; cbn; lia.
Defined.

(** ** Integrality *)

Lemma isInteger_loop_divides (n : nat) :
  forall q, isInteger_loop n q = true <-> (10 ^ Z.of_nat n | q).
Proof.
  induction n as [|n IH]; intros q.
  - cbn. split; [intros _; apply Z.divide_1_l | reflexivity].
  - cbn [isInteger_loop]. rewrite bigCmp_eq.
    rewrite Nat2Z.inj_succ, Z.pow_succ_r by lia.
    pose proof (Z.quot_rem' q 10) as Hq.
    destruct (Z.eqb_spec (Z.rem q 10) 0) as [E | E]; cbn [negb].
    + rewrite IH. rewrite E, Z.add_0_r in Hq.
      split; intros (k & Hk); exists k.
      * rewrite Hq, Hk. ring.
      * rewrite Hq in Hk at 1. lia.
    + split; [discriminate|]. intros (k & Hk). exfalso. apply E.
      apply Z.rem_divide; [lia|]. exists (k * 10 ^ Z.of_nat n). lia.
Qed.

(** [isInteger] says whether the number is an integer.  With a negative
    exponent it checks that the last [-exp] digits of the magnitude are
    zero; at the int32 minimum the digit count wraps to a negative number,
    no digit is checked and the answer is always true. *)
Theorem isInteger_decides (d : Decimal) (v : Z) :
  value d = Some v -> is_int32 (exp d) ->
  exists b, isInteger d = Ok b /\
            (MinInt32 < exp d ->
             (b = true <-> exists k : Z, (toQ d == inject_Z k)%Q)) /\
            (exp d = MinInt32 -> b = true).
Proof.
  intros Hv Hr. unfold is_int32, MinInt32, MaxInt32 in *.
  assert (Hb : big d = v) by (unfold big; now rewrite Hv).
  unfold isInteger. rewrite Hv. cbn [deref bind].
  destruct (Z.geb_spec (exp d) 0) as [Hge | Hlt].
  - exists true. split; [reflexivity|]. split; [|reflexivity].
    intros _. split; [|reflexivity]. intros _.
    exists (v * 10 ^ exp d). unfold toQ.
    rewrite Hb, inject_Z_mult, pow10_Z by lia. reflexivity.
  - eexists. split; [reflexivity|]. unfold abs32.
    destruct (Z.ltb_spec (exp d) 0) as [_ | ?]; [|lia]. split.
    + intros Hm. rewrite int32_id
        by (unfold is_int32, MinInt32, MaxInt32; lia).
      rewrite isInteger_loop_divides, Z2Nat.id by lia.
      unfold toQ. rewrite Hb. split.
      * intros (k & Hk). exists k. rewrite Hk, inject_Z_mult.
        rewrite pow10_Z, <- Qmult_assoc, <- pow10_add by lia.
        replace (- exp d + exp d) with 0 by ring.
        change (pow10 0) with 1%Q. ring.
      * intros (k & Hk). exists k.
        apply (scaled_eq _ _ (exp d)).
        rewrite Hk, inject_Z_mult, pow10_Z, <- Qmult_assoc, <- pow10_add by lia.
        replace (- exp d + exp d) with 0 by ring.
        change (pow10 0) with 1%Q. ring.
    + intros E. rewrite E. reflexivity.
Qed.

Lemma isInteger_decides_witness :
  exists b, isInteger (New 1500 (-2)) = Ok b /\
            (MinInt32 < exp (New 1500 (-2)) ->
             (b = true <-> exists k : Z, (toQ (New 1500 (-2)) == inject_Z k)%Q)) /\
            (exp (New 1500 (-2)) = MinInt32 -> b = true).
Proof.
  apply (isInteger_decides (New 1500 (-2)) 1500).
  - reflexivity.
  - unfold is_int32, MinInt32, MaxInt32. cbn. lia.
Defined.

Example isInteger_examples :
  isInteger (New 1500 (-2)) = Ok true /\
  isInteger (New 1501 (-2)) = Ok false /\
  isInteger (New 7 3) = Ok true /\
  isInteger (New 1 MinInt32) = Ok true.
Proof. repeat split; reflexivity. Qed.

(** ** Conversion to machine integers *)

Lemma bigInt64_in_range (t : Z) : bigIsInt64 t = true -> bigInt64 t = t.
Proof.
  unfold bigIsInt64, bigInt64, int64, uint64.
  rewrite andb_true_iff, !Z.leb_le. intros (H1 & H2).
  rewrite (Z.mod_small (Z.abs t)) by lia.
  destruct (Z.eq_dec t (-9223372036854775808)) as [-> | Hn]; [reflexivity|].
  rewrite (Z.mod_small (Z.abs t + 9223372036854775808)) by lia.
  destruct (Z.ltb_spec t 0); [|lia].
  rewrite Z.mod_small by lia. lia.
Qed.

Lemma bigUint64_in_range (t : Z) : bigIsUint64 t = true -> bigUint64 t = t.
Proof.
  unfold bigIsUint64, bigUint64, uint64.
  rewrite andb_true_iff, !Z.leb_le. intros (H1 & H2).
  rewrite Z.mod_small by lia. lia.
Qed.

(** [Int64] and [Uint64] return the number with its fraction cut off
    toward zero, together with a flag that is true exactly when that
    integer fits the target type; with the flag false the integer returned
    is only the low 64 bits. *)
Theorem Int64_Uint64_integer_part (d : Decimal) :
  - MaxInt32 <= exp d <= MaxInt32 ->
  exists t : Z,
    (exp d < 0 -> cut_toward_zero (toQ d) 0 {| value := Some t; exp := 0 |}) /\
    (0 <= exp d -> (inject_Z t == toQ d)%Q) /\
    snd (Int64 d) = bigIsInt64 t /\ snd (Uint64 d) = bigIsUint64 t /\
    (snd (Int64 d) = true -> fst (Int64 d) = t) /\
    (snd (Uint64 d) = true -> fst (Uint64 d) = t).
Proof.
  intros H. exists (big (rescale d 0)).
  assert (Hr : rescale d 0 = {| value := Some (big (rescale d 0)); exp := 0 |}).
  { pose proof (exp_rescale d 0) as He. unfold rescale in *.
    destruct (0 >? _); [reflexivity|]. destruct (0 <? _); reflexivity. }
  unfold Int64, Uint64. cbn [fst snd].
  split; [|split].
  - intros He. rewrite <- Hr. apply rescale_up_cuts; lia.
  - intros He. rewrite rescale_down by lia. cbn [big value].
    rewrite Z.sub_0_r. unfold toQ.
    now rewrite inject_Z_mult, pow10_Z by lia.
  - split; [reflexivity|]. split; [reflexivity|].
    split; [apply bigInt64_in_range | apply bigUint64_in_range].
Qed.

Lemma Int64_Uint64_integer_part_witness :
  exists t : Z,
    (exp (New (-12345) (-3)) < 0 ->
     cut_toward_zero (toQ (New (-12345) (-3))) 0 {| value := Some t; exp := 0 |}) /\
    (0 <= exp (New (-12345) (-3)) -> (inject_Z t == toQ (New (-12345) (-3)))%Q) /\
    snd (Int64 (New (-12345) (-3))) = bigIsInt64 t /\
    snd (Uint64 (New (-12345) (-3))) = bigIsUint64 t /\
    (snd (Int64 (New (-12345) (-3))) = true ->
     fst (Int64 (New (-12345) (-3))) = t) /\
    (snd (Uint64 (New (-12345) (-3))) = true ->
     fst (Uint64 (New (-12345) (-3))) = t).
Proof.
  apply (Int64_Uint64_integer_part (New (-12345) (-3))).
  unfold MaxInt32. cbn. lia.
Defined.

(** Integers survive the constructors: what [NewFromInt] and
    [NewFromUint] build converts back to the same integer with a true
    flag, stands for that integer, and prints as its decimal digits. *)
Theorem NewFromInt_round_trip (v u : Z) :
  -9223372036854775808 <= v <= 9223372036854775807 ->
  0 <= u <= 18446744073709551615 ->
  Int64 (NewFromInt v) = (v, true) /\ Uint64 (NewFromUint u) = (u, true) /\
  (toQ (NewFromInt v) == inject_Z v)%Q /\
  String_ (NewFromInt v) = Ok (itoa v) /\
  NewFromInt v = New v 0.
Proof.
  intros Hv Hu.
  assert (Hi : bigIsInt64 v = true)
    by (unfold bigIsInt64; apply andb_true_iff; rewrite !Z.leb_le; lia).
  assert (Hi' : bigIsUint64 u = true)
    by (unfold bigIsUint64; apply andb_true_iff; rewrite !Z.leb_le; lia).
  split; [|split; [|split; [|split]]].
  - unfold Int64, NewFromInt, rescale. cbn [ensureInitialized value exp big].
    cbn [Z.gtb Z.ltb Z.compare]. cbn [big value].
    now rewrite Hi, bigInt64_in_range.
  - unfold Uint64, NewFromUint, rescale. cbn [ensureInitialized value exp big].
    cbn [Z.gtb Z.ltb Z.compare]. cbn [big value].
    now rewrite Hi', bigUint64_in_range.
  - unfold toQ, NewFromInt. cbn [big value exp].
    change (pow10 0) with 1%Q. ring.
  - unfold String_. rewrite format_exp_nonneg
      by (unfold NewFromInt, MaxInt32; cbn; lia).
    unfold NewFromInt. cbn [big value exp]. now rewrite Z.mul_1_r.
  - reflexivity.
Qed.

Lemma NewFromInt_round_trip_witness :
  Int64 (NewFromInt (-10)) = (-10, true) /\
  Uint64 (NewFromUint 123) = (123, true) /\
  (toQ (NewFromInt (-10)) == inject_Z (-10))%Q /\
  String_ (NewFromInt (-10)) = Ok (itoa (-10)) /\
  NewFromInt (-10) = New (-10) 0.
Proof. apply (NewFromInt_round_trip (-10) 123); lia. Defined.

(** ** Default-precision division *)

(** [div] is the rounding division at [divisionPrecision] = 16 places: the
    result has exponent -16 and is the multiple of [10^-16] nearest to the
    quotient, ties away from zero. *)
Theorem div_rounds_to_16_places (d d2 : Decimal) :
  big d2 <> 0 -> divRound_in_range d d2 16 ->
  exists y, div d d2 = Ok y /\ exp y = - 16 /\
            rounded_half_away (toQ d) (toQ d2) 16 y.
Proof.
  intros Hnz Hin. unfold div. change (int32 divisionPrecision) with 16.
  destruct (divRound_decision d d2 16 Hnz Hin) as (q & r & y & _ & Hy & He & _).
  destruct (divRound_rounds d d2 16 Hnz Hin) as (y' & Hy' & Hr).
  assert (y' = y) by congruence. subst y'.
  exists y. split; [exact Hy|]. split; [exact He | exact Hr].
Qed.

Lemma div_rounds_to_16_places_witness :
  exists y, div (New 2 0) (New 3 0) = Ok y /\ exp y = - 16 /\
            rounded_half_away (toQ (New 2 0)) (toQ (New 3 0)) 16 y.
Proof.
  apply (div_rounds_to_16_places (New 2 0) (New 3 0)).
  - cbn. lia.
  - unfold divRound_in_range, quoRem_in_range, is_int32, MinInt32, MaxInt32.
    cbn. lia.
Defined.

(** The examples of the source comment on [divisionPrecision]. *)
Example div_doc_examples :
  (do y <- div (New 2 0) (New 3 0); String_ y) = Ok (bytes "0.6666666666666667") /\
  (do y <- div (New 2 0) (New 30000 0); String_ y)
  = Ok (bytes "0.0000666666666667") /\
  (do y <- div (New 20000 0) (New 3 0); String_ y)
  = Ok (bytes "6666.6666666666666667").
Proof. repeat split; reflexivity. Qed.

(** ** Round and the fixed-places formatter *)

Lemma exp_Round_wrapped (d : Decimal) (places : Z) :
  exp (Round d places) = int32 (- places).
Proof.
  rewrite Round_unfold.
  destruct (Z.eqb_spec (exp d) (int32 (- places))) as [E | E]; [exact E|].
  cbn [exp]. rewrite exp_rescale, int32_idem_add.
  replace (int32 (- places) - 1 + 1) with (int32 (- places)) by ring.
  apply int32_id, int32_range.
Qed.

(** Rounding twice to the same number of places changes nothing more, on
    every input: the result of [Round] already has the exponent the early
    return tests for. *)
Theorem Round_idempotent (d : Decimal) (places : Z) :
  Round (Round d places) places = Round d places.
Proof.
  rewrite (Round_unfold (Round d places)), exp_Round_wrapped.
  now rewrite Z.eqb_refl.
Qed.

Lemma value_Round (d : Decimal) (v places : Z) :
  value d = Some v -> exists w, value (Round d places) = Some w.
Proof.
  intros Hv. rewrite Round_unfold.
  destruct (exp d =? int32 (- places)); eexists; [exact Hv | reflexivity].
Qed.

(** [StringFixed] (and [FormatMySQL], which is the same on bytes) prints
    exactly [places] digits after the dot when [places] is positive,
    without trimming, and an integer without a dot otherwise. *)
Theorem StringFixed_prints_places (d : Decimal) (v places : Z) :
  value d = Some v -> Round_in_range d places ->
  FormatMySQL d places = StringFixed d places /\
  (0 < places ->
   exists w ip fp,
     StringFixed d places = Ok (neg_sign w ++ ip ++ "."%byte :: fp) /\
     digits ip /\ ip <> [] /\ digits fp /\ len fp = places) /\
  (places <= 0 ->
   StringFixed d places
   = Ok (itoa (big (Round d places) * 10 ^ (- places)))).
Proof.
  intros Hv Hr. pose proof (exp_Round d places Hr) as He.
  destruct (value_Round d v places Hv) as (w & Hw).
  split; [reflexivity|]. unfold StringFixed. split; intros Hp.
  - exists w, (int_part w (- places)), (frac_part w (- places)).
    rewrite (format_exp_neg _ w false Hw) by lia. rewrite He.
    destruct (format_parts w (- places) ltac:(lia)) as (H1 & H2 & H3 & H4 & _).
    repeat split; try assumption. lia.
  - destruct Hr as (Hr1 & _). unfold MinInt32, MaxInt32 in *.
    rewrite format_exp_nonneg by (rewrite He; unfold MaxInt32; lia).
    now rewrite He.
Qed.

Lemma StringFixed_prints_places_witness :
  FormatMySQL (New 545 (-2)) 3 = StringFixed (New 545 (-2)) 3 /\
  (0 < 3 ->
   exists w ip fp,
     StringFixed (New 545 (-2)) 3 = Ok (neg_sign w ++ ip ++ "."%byte :: fp) /\
     digits ip /\ ip <> [] /\ digits fp /\ len fp = 3) /\
  (3 <= 0 ->
   StringFixed (New 545 (-2)) 3
   = Ok (itoa (big (Round (New 545 (-2)) 3) * 10 ^ (- 3)))).
Proof.
  apply (StringFixed_prints_places (New 545 (-2)) 545 3).
  - reflexivity.
  - unfold Round_in_range, is_int32, MinInt32, MaxInt32. cbn. lia.
Defined.

(** ** The general parser: examples *)

Example NewFromString_examples :
  NewFromString (bytes "-123.45") = SParsed (New (-12345) (-2)) /\
  NewFromString (bytes ".0001") = SParsed (New 1 (-4)) /\
  NewFromString (bytes "1.47000") = SParsed (New 147000 (-5)) /\
  NewFromString (bytes "1.5e3") = SParsed (New 15 2) /\
  NewFromString (bytes "15E-3") = SParsed (New 15 (-3)) /\
  NewFromString (bytes "1.2.3") = SErr (SErrTooManyDots (bytes "1.2.3")) /\
  NewFromString (bytes "abc") = SErr (SErrConvert (bytes "abc")) /\
  NewFromString (bytes "") = SErr (SErrConvert (bytes "")) /\
  NewFromString (bytes ".") = SErr (SErrConvert (bytes ".")) /\
  NewFromString (bytes "1e") = SErr (SErrExponentNotNumeric (bytes "1e")) /\
  NewFromString (bytes "1e99999999999")
  = SErr (SErrFractionalTooLong (bytes "1e99999999999")) /\
  NewFromString (bytes "1.5e2147483647")
  = SParsed (New 15 2147483646) /\
  NewFromString (bytes "15e2147483647")
  = SParsed (New 15 2147483647) /\
  NewFromString (bytes "1.5e-2147483648")
  = SErr (SErrFractionalTooLong (bytes "1.5e-2147483648")).
Proof. repeat split; reflexivity. Qed.

(** ** The general parser on texts of the grammar *)

Lemma fold_digits_ge (ds : list byte) (n : Z) :
  digits ds -> 0 <= n -> n <= fold_left parse_step ds n.
Proof.
  intros Hd Hn. rewrite fold_digits_scale.
  pose proof (parseDigits_bound ds Hd) as Hb. rewrite parseDigits_fold in Hb.
  pose proof (len_nonneg ds).
  assert (0 < 10 ^ len ds) by (apply Z.pow_pos_nonneg; lia). nia.
Qed.

Lemma ParseUint_loop_digits (ds : list byte) :
  forall n maxVal,
    digits ds -> 0 <= n -> fold_left parse_step ds n <= maxVal ->
    maxVal < 18446744073709551616 ->
    ParseUint_loop ds n maxVal = inr (fold_left parse_step ds n).
Proof.
  induction ds as [|c ds IH]; intros n maxVal Hd Hn Hf Hm; [reflexivity|].
  inversion Hd as [|? ? Hc Hds]; subst. cbn [ParseUint_loop fold_left] in *.
  rewrite Hc. pose proof (is_digit_digit_of c Hc) as Hdv.
  assert (Hstep : 0 <= parse_step n c) by (unfold parse_step; lia).
  pose proof (fold_digits_ge ds (parse_step n c) Hds Hstep) as Hge.
  unfold parse_step in *.
  destruct (Z.geb_spec n cutoff) as [Hc' | _]; [unfold cutoff in Hc'; lia|].
  unfold uint64. rewrite (Z.mod_small (n * 10)) by lia.
  rewrite (Z.mod_small (n * 10 + digit_of c)) by lia.
  destruct (Z.ltb_spec (n * 10 + digit_of c) (n * 10)) as [? | _]; [lia|].
  destruct (Z.gtb_spec (n * 10 + digit_of c) maxVal) as [? | _]; [lia|].
  cbn [orb]. apply IH; assumption || lia.
Qed.

Lemma stripSign_signed (sg : option bool) (ds : list byte) :
  digits ds -> stripSign (sign_bytes sg ++ ds) = (is_neg sg, ds).
Proof.
  intros Hd. pose proof (stripSign_fixed sg ds None Hd) as H.
  unfold fixed_text in H. cbn [frac_bytes] in H. now rewrite app_nil_r in H.
Qed.

Lemma signed_nonempty (sg : option bool) (ds : list byte) :
  ds <> [] -> sign_bytes sg ++ ds <> [].
Proof. intros H E. apply app_eq_nil in E. now destruct E. Qed.

(** [ParseInt] on a sign and digits whose number fits. *)
Lemma ParseInt_signed (sg : option bool) (ds : list byte) (bits : Z) :
  digits ds -> ds <> [] -> 1 <= bits <= 64 ->
  (if is_neg sg then parseDigits ds <= 2 ^ (bits - 1)
   else parseDigits ds < 2 ^ (bits - 1)) ->
  ParseInt (sign_bytes sg ++ ds) bits
  = inr (if is_neg sg then - parseDigits ds else parseDigits ds).
Proof.
  intros Hd Hne Hb Hfit. unfold ParseInt.
  pose proof (signed_nonempty sg ds Hne) as Hne'.
  destruct (sign_bytes sg ++ ds) as [|c0 t0] eqn:E0; [contradiction|].
  rewrite <- E0, (stripSign_signed sg ds Hd).
  unfold ParseUint. destruct ds as [|c ds']; [contradiction|].
  set (ds := c :: ds') in *.
  assert (Hp : 2 ^ bits = 2 * 2 ^ (bits - 1)).
  { replace bits with (bits - 1 + 1) at 1 by ring.
    rewrite Z.pow_add_r by lia. lia. }
  assert (Hp1 : 0 < 2 ^ (bits - 1)) by (apply Z.pow_pos_nonneg; lia).
  assert (Hp64 : 2 ^ bits <= 2 ^ 64) by (apply Z.pow_le_mono_r; lia).
  change (2 ^ 64) with 18446744073709551616 in Hp64.
  assert (Hle : parseDigits ds <= 2 ^ (bits - 1))
    by (destruct (is_neg sg); lia).
  rewrite ParseUint_loop_digits; try assumption; try lia;
    [|rewrite <- parseDigits_fold; lia].
  rewrite <- parseDigits_fold.
  destruct (is_neg sg); cbn [negb andb].
  - destruct (Z.gtb_spec (parseDigits ds) (2 ^ (bits - 1))); [lia | reflexivity].
  - destruct (Z.geb_spec (parseDigits ds) (2 ^ (bits - 1))); [lia | reflexivity].
Qed.

Lemma SetString_signed (sg : option bool) (ds : list byte) :
  digits ds -> ds <> [] ->
  SetString (sign_bytes sg ++ ds)
  = Some (if is_neg sg then - parseDigits ds else parseDigits ds).
Proof.
  intros Hd Hne. unfold SetString. rewrite (stripSign_signed sg ds Hd).
  rewrite (forallb_digits ds Hd).
  destruct (Z.eqb_spec (len ds) 0) as [E | _]; [|reflexivity].
  destruct ds; [contradiction | rewrite len_cons in E].
  pose proof (len_nonneg ds). lia.
Qed.

Lemma digits_no_mark (ds : list byte) : digits ds -> Forall no_mark ds.
Proof.
  apply Forall_impl. intros c Hc. unfold no_mark.
  now rewrite (is_digit_not c "E" Hc eq_refl), (is_digit_not c "e" Hc eq_refl).
Qed.

Lemma fixed_text_no_mark (sg : option bool) (ip : list byte)
    (fr : option (list byte)) :
  digits ip -> digits (frac_digits fr) -> Forall no_mark (fixed_text sg ip fr).
Proof.
  intros Hip Hfp. unfold fixed_text.
  apply Forall_app. split.
  { destruct sg as [[|]|]; repeat constructor. }
  apply Forall_app. split; [now apply digits_no_mark|].
  destruct fr as [fp|]; cbn [frac_bytes frac_digits] in *; [|constructor].
  constructor; [reflexivity | now apply digits_no_mark].
Qed.

Lemma IndexAny_Ee_none (s : list byte) : Forall no_mark s -> IndexAny_Ee s = -1.
Proof.
  induction 1 as [|c s Hc _ IH]; [reflexivity|].
  cbn [IndexAny_Ee]. unfold no_mark in Hc. now rewrite Hc, IH.
Qed.

Lemma IndexAny_Ee_at (s t : list byte) (c : byte) :
  Forall no_mark s -> c = "e"%byte \/ c = "E"%byte ->
  IndexAny_Ee (s ++ c :: t) = len s.
Proof.
  intros Hs Hc. induction Hs as [|x s Hx _ IH].
  - destruct Hc; subst c; reflexivity.
  - cbn [app IndexAny_Ee]. unfold no_mark in Hx. rewrite Hx, IH, len_cons.
    pose proof (len_nonneg s).
    destruct (Z.eqb_spec (len s) (-1)); [lia | reflexivity].
Qed.

Lemma dotScan_no_dot (s : list byte) :
  forall i p, Forall (fun c => Byte.eqb c "." = false) s -> dotScan s i p = Some p.
Proof.
  induction s as [|c s IH]; intros i p H; [reflexivity|].
  inversion H as [|? ? Hc Hs]; subst. cbn [dotScan]. rewrite Hc. now apply IH.
Qed.

Lemma digits_no_dot (ds : list byte) :
  digits ds -> Forall (fun c => Byte.eqb c "." = false) ds.
Proof. apply Forall_impl. intros c Hc. exact (is_digit_not c "." Hc eq_refl). Qed.

Lemma sign_no_dot (sg : option bool) :
  Forall (fun c => Byte.eqb c "." = false) (sign_bytes sg).
Proof. destruct sg as [[|]|]; repeat constructor. Qed.

Lemma dotScan_at (a fp : list byte) :
  forall i, Forall (fun c => Byte.eqb c "." = false) a ->
            Forall (fun c => Byte.eqb c "." = false) fp ->
            0 <= i ->
            dotScan (a ++ "."%byte :: fp) i (-1) = Some (i + len a).
Proof.
  induction a as [|c a IH]; intros i Ha Hfp Hi.
  - cbn [app dotScan]. change (Byte.eqb "." ".") with true. cbn match.
    change (-1 >? -1) with false. cbn match.
    rewrite (dotScan_no_dot fp _ _ Hfp). change (len []) with 0.
    now rewrite Z.add_0_r.
  - inversion Ha as [|? ? Hc Ha']; subst. cbn [app dotScan]. rewrite Hc.
    rewrite IH by (assumption || lia). rewrite len_cons. f_equal. lia.
Qed.

Lemma NewFromString_mantissa_fixed (original : list byte) (sg : option bool)
    (ip : list byte) (fr : option (list byte)) (exp0 : Z) :
  digits ip -> digits (frac_digits fr) -> ip ++ frac_digits fr <> [] ->
  NewFromString_mantissa original (fixed_text sg ip fr) exp0
  = if (exp0 - len (frac_digits fr) <? MinInt32)
       || (exp0 - len (frac_digits fr) >? MaxInt32)
    then SErr (SErrFractionalTooLong original)
    else SParsed {| value := Some (if is_neg sg
                                   then - parseDigits (ip ++ frac_digits fr)
                                   else parseDigits (ip ++ frac_digits fr));
                    exp := exp0 - len (frac_digits fr) |}.
Proof.
  intros Hip Hfp Hne. unfold NewFromString_mantissa.
  assert (Hds : digits (ip ++ frac_digits fr))
    by (apply Forall_app; split; assumption).
  assert (Hint : forall intString e1,
             intString = sign_bytes sg ++ (ip ++ frac_digits fr) ->
             e1 = exp0 - len (frac_digits fr) ->
             match (if len intString <=? 18
                    then match ParseInt intString 64 with
                         | inr v => Some v
                         | inl _ => None
                         end
                    else SetString intString) with
             | None => SErr (SErrConvert (fixed_text sg ip fr))
             | Some v =>
                 if (e1 <? MinInt32) || (e1 >? MaxInt32)
                 then SErr (SErrFractionalTooLong original)
                 else SParsed {| value := Some v; exp := int32 e1 |}
             end
             = if (e1 <? MinInt32) || (e1 >? MaxInt32)
               then SErr (SErrFractionalTooLong original)
               else SParsed
                      {| value := Some (if is_neg sg
                                        then - parseDigits (ip ++ frac_digits fr)
                                        else parseDigits (ip ++ frac_digits fr));
                         exp := e1 |}).
  { intros intString e1 -> _.
    assert (Hv : (if len (sign_bytes sg ++ ip ++ frac_digits fr) <=? 18
                  then match ParseInt (sign_bytes sg ++ ip ++ frac_digits fr) 64 with
                       | inr v => Some v
                       | inl _ => None
                       end
                  else SetString (sign_bytes sg ++ ip ++ frac_digits fr))
                 = Some (if is_neg sg then - parseDigits (ip ++ frac_digits fr)
                         else parseDigits (ip ++ frac_digits fr))).
    { destruct (Z.leb_spec (len (sign_bytes sg ++ ip ++ frac_digits fr)) 18)
        as [Hle | Hgt].
      - rewrite ParseInt_signed; try assumption; try lia; [reflexivity|].
        pose proof (parseDigits_bound _ Hds) as Hb.
        rewrite len_app in Hle. pose proof (len_nonneg (sign_bytes sg)).
        assert (10 ^ len (ip ++ frac_digits fr) <= 10 ^ 18)
          by (apply Z.pow_le_mono_r; lia).
        change (2 ^ (64 - 1)) with 9223372036854775808.
        change (10 ^ 18) with 1000000000000000000 in *.
        destruct (is_neg sg); lia.
      - now apply SetString_signed. }
    rewrite Hv.
    destruct ((e1 <? MinInt32) || (e1 >? MaxInt32)) eqn:Er; [reflexivity|].
    apply orb_false_iff in Er. destruct Er as (E1 & E2).
    apply Z.ltb_ge in E1. rewrite Z.gtb_ltb in E2. apply Z.ltb_ge in E2.
    now rewrite int32_id by (unfold is_int32; lia). }
  destruct fr as [fp|]; cbn [frac_digits] in *.
  - unfold fixed_text. cbn [frac_bytes].
    replace (sign_bytes sg ++ ip ++ "."%byte :: fp)
      with ((sign_bytes sg ++ ip) ++ "."%byte :: fp)
      by (now rewrite <- app_assoc).
    rewrite dotScan_at;
      [| apply Forall_app; split; [apply sign_no_dot | now apply digits_no_dot]
       | now apply digits_no_dot | lia].
    rewrite Z.add_0_l.
    pose proof (len_nonneg (sign_bytes sg ++ ip)) as Hl0.
    destruct (Z.eqb_spec (len (sign_bytes sg ++ ip)) (-1)) as [? | _]; [lia|].
    rewrite slice_to_app, slice_from_app.
    rewrite (len_app (sign_bytes sg ++ ip) ("."%byte :: fp)), len_cons.
    pose proof (len_nonneg fp) as Hf0.
    replace (exp0 + - len fp) with (exp0 - len fp) by ring.
    destruct (Z.ltb_spec (len (sign_bytes sg ++ ip) + 1)
                (len (sign_bytes sg ++ ip) + (len fp + 1))) as [_ | Hge].
    + rewrite <- !app_assoc. apply Hint; reflexivity.
    + assert (fp = []) by (destruct fp; [reflexivity | rewrite len_cons in Hge;
                           pose proof (len_nonneg fp); lia]).
      subst fp. rewrite <- !app_assoc. apply Hint; [|reflexivity].
      now rewrite app_nil_r.
  - assert (Ht : fixed_text sg ip None = sign_bytes sg ++ ip)
      by (unfold fixed_text; cbn [frac_bytes]; now rewrite app_nil_r).
    rewrite Ht in *. rewrite !app_nil_r in *.
    rewrite dotScan_no_dot
      by (apply Forall_app; split; [apply sign_no_dot | now apply digits_no_dot]).
    change (-1 =? -1) with true. cbn match.
    change (len []) with 0 in *. rewrite Z.sub_0_r in *.
    now apply Hint.
Qed.

Lemma NewFromString_fixed (sg : option bool) (ip : list byte)
    (fr : option (list byte)) :
  digits ip -> digits (frac_digits fr) -> ip ++ frac_digits fr <> [] ->
  len (frac_digits fr) <= 2147483648 ->
  NewFromString (fixed_text sg ip fr) = SParsed (fixed_value sg ip fr).
Proof.
  intros Hip Hfp Hne Hlen. unfold NewFromString.
  rewrite (IndexAny_Ee_none _ (fixed_text_no_mark sg ip fr Hip Hfp)).
  change (negb (-1 =? -1)) with false. cbn match.
  rewrite (NewFromString_mantissa_fixed _ sg ip fr 0 Hip Hfp Hne).
  pose proof (len_nonneg (frac_digits fr)).
  destruct (Z.ltb_spec (0 - len (frac_digits fr)) MinInt32) as [? | _];
    [unfold MinInt32 in *; lia|].
  rewrite Z.gtb_ltb.
  destruct (Z.ltb_spec MaxInt32 (0 - len (frac_digits fr))) as [? | _];
    [unfold MaxInt32 in *; lia|].
  reflexivity.
Qed.

(** On every text of the fixed-format grammar [NewFromString] and
    [NewFromMySQL] agree: both return the decimal the text denotes, with
    the digits as magnitude and the count of fractional digits as negated
    exponent (trailing zeros kept). *)
Theorem NewFromString_agrees_with_NewFromMySQL (sg : option bool)
    (ip : list byte) (fr : option (list byte)) :
  digits ip -> digits (frac_digits fr) -> ip ++ frac_digits fr <> [] ->
  len (frac_digits fr) <= 2147483648 ->
  NewFromString (fixed_text sg ip fr) = SParsed (fixed_value sg ip fr) /\
  NewFromMySQL (fixed_text sg ip fr) = Parsed (fixed_value sg ip fr).
Proof.
  intros Hip Hfp Hne Hlen. split.
  - now apply NewFromString_fixed.
  - unfold NewFromMySQL.
    now rewrite (NewFromMySQL_route_fixed sg ip fr Hip Hfp Hne Hlen).
Qed.

Lemma NewFromString_agrees_with_NewFromMySQL_witness :
  NewFromString (fixed_text (Some true) (bytes "12") (Some (bytes "345")))
  = SParsed (fixed_value (Some true) (bytes "12") (Some (bytes "345"))) /\
  NewFromMySQL (fixed_text (Some true) (bytes "12") (Some (bytes "345")))
  = Parsed (fixed_value (Some true) (bytes "12") (Some (bytes "345"))).
Proof.
  apply (NewFromString_agrees_with_NewFromMySQL (Some true) (bytes "12")
           (Some (bytes "345"))).
  - exact digits_bytes_12.
  - exact digits_bytes_345.
  - discriminate.
  - cbn. lia.
Defined.

Lemma ParseInt_itoa (k : Z) : is_int32 k -> ParseInt (itoa k) 32 = inr k.
Proof.
  intros Hk. unfold is_int32, MinInt32, MaxInt32 in Hk.
  destruct (utoa_spec (Z.abs k) (Z.abs_nonneg k)) as (Hp & Hd & Hne).
  rewrite itoa_neg_sign, neg_sign_sign_of.
  rewrite ParseInt_signed; try assumption; try lia.
  - now rewrite Hp, signed_abs.
  - rewrite Hp. change (2 ^ (32 - 1)) with 2147483648.
    unfold sign_of. destruct (Z.ltb_spec k 0); cbn [is_neg]; lia.
Qed.

(** Scientific notation: after a text of the grammar, an [e] or [E] and a
    signed integer exponent add that exponent to the one the decimal point
    gives.  The text is rejected exactly when the combined exponent leaves
    the int32 range, with an error that shows the whole input. *)
Theorem NewFromString_scientific (sg : option bool) (ip : list byte)
    (fr : option (list byte)) (c : byte) (k : Z) :
  digits ip -> digits (frac_digits fr) -> ip ++ frac_digits fr <> [] ->
  c = "e"%byte \/ c = "E"%byte -> is_int32 k ->
  NewFromString (fixed_text sg ip fr ++ c :: itoa k)
  = if (k - len (frac_digits fr) <? MinInt32)
       || (k - len (frac_digits fr) >? MaxInt32)
    then SErr (SErrFractionalTooLong (fixed_text sg ip fr ++ c :: itoa k))
    else SParsed {| value := value (fixed_value sg ip fr);
                    exp := k - len (frac_digits fr) |}.
Proof.
  intros Hip Hfp Hne Hc Hk. unfold NewFromString.
  rewrite (IndexAny_Ee_at _ (itoa k) c (fixed_text_no_mark sg ip fr Hip Hfp) Hc).
  pose proof (len_nonneg (fixed_text sg ip fr)) as Hl.
  destruct (Z.eqb_spec (len (fixed_text sg ip fr)) (-1)) as [? | _]; [lia|].
  cbn [negb]. rewrite slice_from_app, slice_to_app, (ParseInt_itoa k Hk).
  now rewrite (NewFromString_mantissa_fixed _ sg ip fr k Hip Hfp Hne).
Qed.

Lemma NewFromString_scientific_witness :
  NewFromString (fixed_text (Some true) (bytes "12") (Some (bytes "345"))
                 ++ "E"%byte :: itoa (-7))
  = if (-7 - len (frac_digits (Some (bytes "345"))) <? MinInt32)
       || (-7 - len (frac_digits (Some (bytes "345"))) >? MaxInt32)
    then SErr (SErrFractionalTooLong
                 (fixed_text (Some true) (bytes "12") (Some (bytes "345"))
                  ++ "E"%byte :: itoa (-7)))
    else SParsed {| value := value (fixed_value (Some true) (bytes "12")
                                      (Some (bytes "345")));
                    exp := -7 - len (frac_digits (Some (bytes "345"))) |}.
Proof.
  apply (NewFromString_scientific (Some true) (bytes "12") (Some (bytes "345"))
           "E"%byte (-7)).
  - exact digits_bytes_12.
  - exact digits_bytes_345.
  - discriminate.
  - now right.
  - unfold is_int32, MinInt32, MaxInt32. lia.
Defined.

(** ** Round trips through the general parser *)

(** What the formatter prints for a decimal with a negative exponent,
    untrimmed, is the grammar text of that very decimal. *)
Lemma format_untrimmed_text (d : Decimal) (v : Z) :
  value d = Some v -> MinInt32 <= exp d < 0 ->
  format d [] false
  = Ok (fixed_text (sign_of v) (int_part v (exp d)) (Some (frac_part v (exp d)))) /\
  fixed_value (sign_of v) (int_part v (exp d)) (Some (frac_part v (exp d))) = d /\
  digits (int_part v (exp d)) /\ digits (frac_part v (exp d)) /\
  int_part v (exp d) <> [] /\ len (frac_part v (exp d)) = - exp d.
Proof.
  intros Hv [Hlo He].
  destruct (format_parts v (exp d) He) as (H1 & H2 & H3 & H4 & H5).
  split.
  { rewrite (format_exp_neg d v false Hv He). unfold fixed_text.
    now rewrite neg_sign_sign_of. }
  split.
  { unfold fixed_value. cbn [frac_digits]. rewrite H5, H4, signed_abs, Z.opp_involutive.
    destruct d as [val e]. cbn [value exp] in *. now subst val. }
  repeat split; assumption.
Qed.

(** What the formatter prints for a decimal with a non-negative exponent is
    the grammar text of the integer it stands for. *)
Lemma format_integral_text (d : Decimal) (trim : bool) :
  0 <= exp d <= MaxInt32 ->
  format d [] trim
  = Ok (fixed_text (sign_of (big d * 10 ^ exp d))
          (utoa (Z.abs (big d * 10 ^ exp d))) None) /\
  fixed_value (sign_of (big d * 10 ^ exp d))
    (utoa (Z.abs (big d * 10 ^ exp d))) None = New (big d * 10 ^ exp d) 0 /\
  digits (utoa (Z.abs (big d * 10 ^ exp d))) /\
  utoa (Z.abs (big d * 10 ^ exp d)) <> [].
Proof.
  intros He. set (V := big d * 10 ^ exp d).
  destruct (utoa_spec (Z.abs V) (Z.abs_nonneg V)) as (Hp & Hd & Hne).
  split.
  { rewrite (format_exp_nonneg d trim He). fold V. unfold fixed_text.
    cbn [frac_bytes]. now rewrite app_nil_r, itoa_neg_sign, neg_sign_sign_of. }
  split.
  { unfold fixed_value, New. cbn [frac_digits].
    now rewrite app_nil_r, Hp, signed_abs. }
  split; assumption.
Qed.

(** The MySQL text round-trips exactly.  For a negative exponent, parsing
    what [StringMySQL] prints gives back the very same decimal, digits and
    exponent, with either parser; for a non-negative exponent it gives the
    integer the decimal stands for, with exponent 0. *)
Theorem StringMySQL_round_trip (d : Decimal) (v : Z) :
  value d = Some v -> is_int32 (exp d) ->
  exists s, StringMySQL d = Ok s /\
            NewFromMySQL s
            = Parsed (if exp d <? 0 then d else New (v * 10 ^ exp d) 0) /\
            NewFromString s
            = SParsed (if exp d <? 0 then d else New (v * 10 ^ exp d) 0).
Proof.
  intros Hv Hr. unfold is_int32 in Hr. unfold StringMySQL.
  assert (Hb : big d = v) by (unfold big; now rewrite Hv).
  destruct (Z.ltb_spec (exp d) 0) as [He | He].
  - destruct (format_untrimmed_text d v Hv (conj (proj1 Hr) He))
      as (Hs & Hval & Hip & Hfp & Hne & Hl).
    eexists. split; [exact Hs|].
    assert (Hne' : int_part v (exp d) ++ frac_digits (Some (frac_part v (exp d))) <> []).
    { intros E. apply app_eq_nil in E. now destruct E. }
    assert (Hlen : len (frac_digits (Some (frac_part v (exp d)))) <= 2147483648).
    { cbn [frac_digits]. rewrite Hl. unfold MinInt32 in Hr. lia. }
    split.
    + unfold NewFromMySQL.
      now rewrite (NewFromMySQL_route_fixed _ _ (Some _) Hip Hfp Hne' Hlen), Hval.
    + now rewrite (NewFromString_fixed _ _ (Some _) Hip Hfp Hne' Hlen), Hval.
  - destruct (format_integral_text d false (conj He (proj2 Hr)))
      as (Hs & Hval & Hip & Hne).
    rewrite Hb in *.
    eexists. split; [exact Hs|].
    assert (Hne' : utoa (Z.abs (v * 10 ^ exp d)) ++ frac_digits None <> []).
    { cbn [frac_digits]. now rewrite app_nil_r. }
    assert (Hfp : digits (frac_digits None)) by constructor.
    assert (Hlen : len (frac_digits None) <= 2147483648) by (cbn; lia).
    split.
    + unfold NewFromMySQL.
      now rewrite (NewFromMySQL_route_fixed _ _ _ Hip Hfp Hne' Hlen), Hval.
    + now rewrite (NewFromString_fixed _ _ _ Hip Hfp Hne' Hlen), Hval.
Qed.

Lemma StringMySQL_round_trip_witness :
  exists s, StringMySQL (New (-1500) (-3)) = Ok s /\
            NewFromMySQL s
            = Parsed (if exp (New (-1500) (-3)) <? 0 then New (-1500) (-3)
                      else New (-1500 * 10 ^ exp (New (-1500) (-3))) 0) /\
            NewFromString s
            = SParsed (if exp (New (-1500) (-3)) <? 0 then New (-1500) (-3)
                       else New (-1500 * 10 ^ exp (New (-1500) (-3))) 0).
Proof.
  apply (StringMySQL_round_trip (New (-1500) (-3)) (-1500)).
  - reflexivity.
  - unfold is_int32, MinInt32, MaxInt32. cbn. lia.
Defined.

(** The canonical text read by the general parser: [NewFromString] accepts
    whatever [String] prints, and the decimal it returns stands for the
    same number ([RequireFromString] returns it without aborting). *)
Theorem String_NewFromString_round_trip (d : Decimal) (v : Z) :
  value d = Some v -> is_int32 (exp d) ->
  exists s d', String_ d = Ok s /\ NewFromString s = SParsed d' /\
               RequireFromString s = Ok d' /\ (toQ d' == toQ d)%Q.
Proof.
  intros Hv Hr. unfold is_int32 in Hr.
  assert (Hb : big d = v) by (unfold big; now rewrite Hv).
  assert (Hreq : forall s d', NewFromString s = SParsed d' ->
                              RequireFromString s = Ok d').
  { intros s d' H. unfold RequireFromString. now rewrite H. }
  destruct (Z.le_gt_cases 0 (exp d)) as [He | He].
  - destruct (format_integral_text d true (conj He (proj2 Hr)))
      as (Hs & Hval & Hip & Hne).
    rewrite Hb in *.
    assert (Hne' : utoa (Z.abs (v * 10 ^ exp d)) ++ frac_digits None <> []).
    { cbn [frac_digits]. now rewrite app_nil_r. }
    assert (Hfp : digits (frac_digits None)) by constructor.
    assert (Hlen : len (frac_digits None) <= 2147483648) by (cbn; lia).
    pose proof (NewFromString_fixed (sign_of (v * 10 ^ exp d)) _ None
                  Hip Hfp Hne' Hlen) as Hp.
    rewrite Hval in Hp.
    do 2 eexists. split; [exact Hs|]. split; [exact Hp|].
    split; [exact (Hreq _ _ Hp)|].
    unfold toQ, New. cbn [big value exp]. rewrite Hb.
    rewrite inject_Z_mult, pow10_Z by lia.
    change (pow10 0) with 1%Q. ring.
  - destruct (format_parts v (exp d) He) as (H1 & H2 & H3 & H4 & H5).
    destruct (trimZeros_spec (frac_part v (exp d))) as (z & Hz).
    pose proof (trimZeros_digits _ H3) as H3'.
    set (ip := int_part v (exp d)) in *.
    set (fp := frac_part v (exp d)) in *.
    set (fp' := trimZeros fp) in *.
    assert (Hl : len fp' + Z.of_nat z = - exp d)
      by (rewrite <- H4, Hz, len_app, len_repeat; reflexivity).
    pose proof (len_nonneg fp') as Hl0.
    assert (Hp : NewFromString (fixed_text (sign_of v) ip (frac_of fp'))
                 = SParsed (fixed_value (sign_of v) ip (frac_of fp'))).
    { apply NewFromString_fixed; rewrite ?frac_digits_frac_of;
        try assumption.
      - intros E. apply app_eq_nil in E. destruct E as (E & _). contradiction.
      - unfold MinInt32 in Hr. lia. }
    exists (fixed_text (sign_of v) ip (frac_of fp')),
           (fixed_value (sign_of v) ip (frac_of fp')).
    split.
    { unfold String_. rewrite (format_exp_neg d v true Hv He).
      fold ip fp fp'. now rewrite neg_sign_sign_of, dot_frac_frac_of. }
    split; [exact Hp|]. split; [exact (Hreq _ _ Hp)|].
    unfold fixed_value, toQ. cbn [big value exp].
    rewrite frac_digits_frac_of, Hb.
    assert (Hn : Z.abs v = parseDigits (ip ++ fp') * 10 ^ Z.of_nat z).
    { rewrite <- H5, Hz, !parseDigits_fold, app_assoc, fold_digits_app.
      apply fold_digits_zeros. }
    rewrite <- (signed_abs v) at 2. rewrite Hn.
    assert (Hexp : - len fp' = Z.of_nat z + exp d) by (clear - Hl; lia).
    rewrite Hexp, pow10_add, <- pow10_Z by lia.
    destruct (is_neg (sign_of v));
      rewrite ?inject_Z_opp, ?inject_Z_mult; ring.
Qed.

Lemma String_NewFromString_round_trip_witness :
  exists s d', String_ (New (-1500) (-3)) = Ok s /\
               NewFromString s = SParsed d' /\
               RequireFromString s = Ok d' /\
               (toQ d' == toQ (New (-1500) (-3)))%Q.
Proof.
  apply (String_NewFromString_round_trip (New (-1500) (-3)) (-1500)).
  - reflexivity.
  - unfold is_int32, MinInt32, MaxInt32. cbn. lia.
Defined.

(** ** The largest form and Clamp on an intact limit table *)

Lemma limitsBigTab_nth (n : nat) :
  (n < 20)%nat -> nth_error limitsBigTab n = Some (10 ^ Z.of_nat n - 1).
Proof.
  intros H. do 20 (destruct n as [|n]; [reflexivity|]). lia.
Qed.

Lemma fold_digits_nines (n : nat) (a : Z) :
  fold_left parse_step (repeat "9"%byte n) a
  = a * 10 ^ Z.of_nat n + (10 ^ Z.of_nat n - 1).
Proof.
  revert a. induction n as [|n IH]; intros a.
  - cbn. lia.
  - cbn [repeat fold_left]. rewrite IH. unfold parse_step.
    change (digit_of "9") with 9.
    rewrite Nat2Z.inj_succ, Z.pow_succ_r by lia. ring.
Qed.

Lemma digits_repeat_9 (n : nat) : digits (repeat "9"%byte n).
Proof. induction n; constructor; [reflexivity | assumption]. Qed.

Lemma SetString_nines (n : Z) :
  0 < n <= 350 -> SetString (slice_to nines n) = Some (10 ^ n - 1).
Proof.
  intros H. unfold slice_to, nines.
  assert (E : firstn (Z.to_nat n) (repeat "9"%byte 350)
              = repeat "9"%byte (Z.to_nat n)).
  { replace 350%nat with (Z.to_nat n + (350 - Z.to_nat n))%nat by lia.
    rewrite repeat_app, firstn_app, repeat_length, Nat.sub_diag.
    cbn [firstn]. rewrite app_nil_r. apply firstn_all2.
    rewrite repeat_length. lia. }
  rewrite E, SetString_digits.
  - unfold parseDigits. rewrite fold_digits_nines, Z2Nat.id by lia.
    f_equal; lia.
  - destruct (Z.to_nat n) eqn:En; [lia | discriminate].
  - apply digits_repeat_9.
Qed.

Lemma load_intact (h : heap) (n : nat) :
  firstn 20 h = limitsBigTab -> (n < 20)%nat ->
  load h (Some n) = Some (10 ^ Z.of_nat n - 1).
Proof.
  intros Ht Hn. cbn [load]. rewrite <- (limitsBigTab_nth n Hn), <- Ht.
  rewrite nth_error_firstn.
  destruct (Nat.ltb_spec n 20); [reflexivity | lia].
Qed.

Lemma load_grown (h : heap) (x : Z) (p : option loc) (v : Z) :
  load h p = Some v -> load (h ++ [x]) p = Some v.
Proof.
  destruct p as [l|]; [|discriminate]. cbn [load]. intros H.
  rewrite nth_error_app1; [exact H|]. apply nth_error_Some. now rewrite H.
Qed.

Lemma nth_error_store (h : heap) (l : loc) (x : Z) :
  (l < List.length h)%nat -> nth_error (store l x h) l = Some x.
Proof.
  revert l. induction h as [|y h IH]; intros l Hl; [cbn in Hl; lia|].
  destruct l as [|l]; [reflexivity|].
  cbn [store nth_error]. apply IH. cbn in Hl. lia.
Qed.

(** What [largestForm] returns on an intact table, and what it leaves of
    the heap. *)
Lemma largestForm_spec (h : heap) (integral fractional : Z) :
  firstn 20 h = limitsBigTab ->
  0 <= integral + fractional < 350 -> MinInt32 < fractional <= MaxInt32 ->
  exists r h' l,
    largestForm h integral fractional = Ok (r, h') /\
    r = mkRef (Some l) (- fractional) /\
    nth_error h' l = Some (10 ^ (integral + fractional) - 1) /\
    firstn (List.length h) h' = h /\
    (forall p v, load h p = Some v -> load h' p = Some v).
Proof.
  intros Ht Hn Hf. unfold largestForm.
  assert (Hn32 : int32 (integral + fractional) = integral + fractional)
    by (apply int32_id; unfold is_int32, MinInt32, MaxInt32; lia).
  assert (Hf32 : int32 (- fractional) = - fractional)
    by (apply int32_id; unfold is_int32, MinInt32, MaxInt32 in *; lia).
  rewrite Hn32, Hf32. set (n := integral + fractional) in *.
  change (Z.of_nat (List.length limitsBigTab)) with 20.
  change (len nines) with 350.
  destruct (Z.ltb_spec n 20) as [Hs | Hs].
  - destruct (Z.ltb_spec n 0) as [? | _]; [lia|].
    exists (mkRef (Some (Z.to_nat n)) (- fractional)), h, (Z.to_nat n).
    split; [reflexivity|]. split; [reflexivity|].
    split; [|split; [apply firstn_all | tauto]].
    pose proof (load_intact h (Z.to_nat n) Ht) as Hl. cbn [load] in Hl.
    rewrite Hl, Z2Nat.id by lia. reflexivity.
  - destruct (Z.ltb_spec n 350) as [_ | ?]; [|lia].
    rewrite SetString_nines by lia. cbv beta iota zeta delta [alloc].
    exists (mkRef (Some (List.length h)) (- fractional)),
           (h ++ [10 ^ n - 1]), (List.length h).
    split; [reflexivity|]. split; [reflexivity|].
    split; [now rewrite nth_error_app2, Nat.sub_diag by lia|].
    split.
    + rewrite firstn_app, Nat.sub_diag, firstn_all. apply app_nil_r.
    + intros p v. apply load_grown.
Qed.

(** On an intact table [largestForm] returns the largest number with the
    given counts of integral and fractional digits, [10^(i+f) - 1] with
    exponent [-f], and writes to no existing cell; a digit count of 350
    or more, or a negative one, aborts. *)
Theorem largestForm_largest (h : heap) (integral fractional : Z) :
  firstn 20 h = limitsBigTab ->
  is_int32 (integral + fractional) -> MinInt32 < fractional <= MaxInt32 ->
  (0 <= integral + fractional < 350 ->
   exists r h', largestForm h integral fractional = Ok (r, h') /\
                view h' r = New (10 ^ (integral + fractional) - 1) (- fractional) /\
                firstn (List.length h) h' = h) /\
  (350 <= integral + fractional ->
   largestForm h integral fractional = Panic "largestForm: too large") /\
  (integral + fractional < 0 ->
   largestForm h integral fractional = Panic "index out of range").
Proof.
  intros Ht Hr Hf. split; [|split].
  - intros Hn.
    destruct (largestForm_spec h integral fractional Ht Hn Hf)
      as (r & h' & l & Hl & -> & Hv & Hfr & _).
    exists (mkRef (Some l) (- fractional)), h'.
    split; [exact Hl|]. split; [|exact Hfr].
    unfold view, New. cbn [load ptr rexp]. now rewrite Hv.
  - intros Hn. unfold largestForm. rewrite (int32_id _ Hr).
    change (Z.of_nat (List.length limitsBigTab)) with 20.
    change (len nines) with 350.
    destruct (Z.ltb_spec (integral + fractional) 20); [lia|].
    destruct (Z.ltb_spec (integral + fractional) 350); [lia | reflexivity].
  - intros Hn. unfold largestForm. rewrite (int32_id _ Hr).
    change (Z.of_nat (List.length limitsBigTab)) with 20.
    destruct (Z.ltb_spec (integral + fractional) 20); [|lia].
    destruct (Z.ltb_spec (integral + fractional) 0); [reflexivity | lia].
Qed.

Lemma largestForm_largest_witness :
  (0 <= 20 + 5 < 350 ->
   exists r h', largestForm init_heap 20 5 = Ok (r, h') /\
                view h' r = New (10 ^ (20 + 5) - 1) (- 5) /\
                firstn (List.length init_heap) h' = init_heap) /\
  (350 <= 20 + 5 ->
   largestForm init_heap 20 5 = Panic "largestForm: too large") /\
  (20 + 5 < 0 -> largestForm init_heap 20 5 = Panic "index out of range").
Proof.
  apply (largestForm_largest init_heap 20 5).
  - reflexivity.
  - unfold is_int32, MinInt32, MaxInt32. lia.
  - unfold MinInt32, MaxInt32. lia.
Defined.

Lemma CmpAbs_le (x y : Decimal) :
  - MaxInt32 <= exp x - exp y <= MaxInt32 ->
  (CmpAbs x y <=? 0) = true <-> (Qabs (toQ x) <= Qabs (toQ y))%Q.
Proof.
  intros H. rewrite (CmpAbs_eval x y H).
  set (m := Z.min (exp x) (exp y)).
  rewrite (Qabs_toQ_at x m), (Qabs_toQ_at y m) by (unfold m; lia).
  rewrite scaled_le, Z.leb_le. unfold bigCmp.
  destruct (Z.compare_spec (Z.abs (big x) * 10 ^ (exp x - m))
                           (Z.abs (big y) * 10 ^ (exp y - m))); lia.
Qed.

(** On an intact limit table [Clamp] saturates: an operand within the
    largest form for the digit counts comes back unchanged; a larger
    positive one becomes the largest form and a larger negative one its
    negation. *)
Theorem Clamp_saturates (h : heap) (d : DecimalRef) (v integral fractional : Z) :
  firstn 20 h = limitsBigTab -> load h (ptr d) = Some v ->
  0 <= integral + fractional < 350 -> MinInt32 < fractional <= MaxInt32 ->
  - MaxInt32 <= rexp d + fractional <= MaxInt32 ->
  exists r h',
    Clamp h d integral fractional = Ok (r, h') /\
    let limit := New (10 ^ (integral + fractional) - 1) (- fractional) in
    ((Qabs (toQ (view h d)) <= toQ limit)%Q -> r = d /\ view h' r = view h d) /\
    ((toQ limit < toQ (view h d))%Q -> view h' r = limit) /\
    ((toQ (view h d) < - toQ limit)%Q -> view h' r = Neg limit).
Proof.
  intros Ht Hload Hn Hf He.
  destruct (largestForm_spec h integral fractional Ht Hn Hf)
    as (lim & h1 & l & Hl & -> & Hv & Hfr & Hkeep).
  set (n := integral + fractional) in *.
  assert (Hpos : 0 <= 10 ^ n - 1).
  { assert (0 < 10 ^ n) by (apply Z.pow_pos_nonneg; lia). lia. }
  assert (Hd : view h1 d = view h d).
  { unfold view. now rewrite Hload, (Hkeep _ _ Hload). }
  assert (Hlim : view h1 (mkRef (Some l) (- fractional)) = New (10 ^ n - 1) (- fractional)).
  { unfold view, New. cbn [load ptr rexp]. now rewrite Hv. }
  assert (HL : (Qabs (toQ (New (10 ^ n - 1) (- fractional)))
                == toQ (New (10 ^ n - 1) (- fractional)))%Q).
  { apply Qabs_pos. unfold toQ, New. cbn [big value exp].
    now apply scaled_nonneg. }
  assert (HL0 : (0 <= toQ (New (10 ^ n - 1) (- fractional)))%Q).
  { unfold toQ, New. cbn [big value exp]. now apply scaled_nonneg. }
  assert (Hx : (toQ (view h d) == inject_Z v * pow10 (rexp d))%Q).
  { unfold toQ, view, big. cbn [value exp]. rewrite Hload. reflexivity. }
  unfold Clamp. rewrite Hl. cbv beta iota zeta delta [bind].
  rewrite Hd, Hlim.
  pose proof (CmpAbs_le (view h d) (New (10 ^ n - 1) (- fractional))) as Hc.
  cbn [exp view New] in Hc. specialize (Hc ltac:(lia)).
  rewrite HL in Hc.
  destruct (CmpAbs (view h d) (New (10 ^ n - 1) (- fractional)) <=? 0) eqn:Ec.
  - exists d, h1. split; [reflexivity|]. cbv zeta.
    assert (Hle : (Qabs (toQ (view h d)) <= toQ (New (10 ^ n - 1) (- fractional)))%Q)
      by now apply Hc.
    split; [intros _; split; [reflexivity | exact Hd]|].
    split; intros Hlt; exfalso.
    + pose proof (Qle_Qabs (toQ (view h d))). lra.
    + pose proof (Qle_Qabs (- toQ (view h d))) as Hq.
      rewrite Qabs_opp in Hq. lra.
  - assert (Hgt : ~ (Qabs (toQ (view h d)) <= toQ (New (10 ^ n - 1) (- fractional)))%Q).
    { intros Hle. apply Hc in Hle. discriminate. }
    rewrite (Hkeep _ _ Hload). cbv beta iota zeta delta [deref].
    destruct (Z.ltb_spec (Z.sgn v) 0) as [Hs | Hs].
    + assert (Hneg : (toQ (view h d) < 0)%Q).
      { rewrite Hx. apply scaled_neg. lia. }
      eexists _, _. split; [reflexivity|]. cbv zeta.
      split; [intros Hle; contradiction|].
      split; [intros Hlt; exfalso; lra|].
      intros _. unfold NegInPlace. cbn [ptr rexp].
      unfold view, Neg, New. cbn [ptr rexp load value exp big].
      rewrite nth_error_store by (apply nth_error_Some; now rewrite Hv).
      now rewrite (nth_error_nth _ _ 0 Hv).
    + assert (Hnn : (0 <= toQ (view h d))%Q).
      { rewrite Hx. apply scaled_nonneg. lia. }
      exists (mkRef (Some l) (- fractional)), h1. split; [reflexivity|].
      cbv zeta.
      split; [intros Hle; contradiction|].
      split; [intros _; exact Hlim|].
      intros Hlt; exfalso; lra.
Qed.

Lemma Clamp_saturates_witness :
  exists r h',
    Clamp (init_heap ++ [(-12345678)%Z]) (mkRef (Some 20%nat) (-3)%Z) 3 2 = Ok (r, h') /\
    let limit := New (10 ^ (3 + 2) - 1) (- 2) in
    ((Qabs (toQ (view (init_heap ++ [(-12345678)%Z]) (mkRef (Some 20%nat) (-3)%Z)))
      <= toQ limit)%Q ->
     r = mkRef (Some 20%nat) (-3) /\
     view h' r = view (init_heap ++ [(-12345678)%Z]) (mkRef (Some 20%nat) (-3)%Z)) /\
    ((toQ limit < toQ (view (init_heap ++ [(-12345678)%Z]) (mkRef (Some 20%nat) (-3)%Z)))%Q ->
     view h' r = limit) /\
    ((toQ (view (init_heap ++ [(-12345678)%Z]) (mkRef (Some 20%nat) (-3)%Z)) < - toQ limit)%Q ->
     view h' r = Neg limit).
Proof.
  apply (Clamp_saturates (init_heap ++ [-12345678]) (mkRef (Some 20%nat) (-3))
           (-12345678) 3 2).
  - reflexivity.
  - reflexivity.
  - lia.
  - unfold MinInt32, MaxInt32. lia.
  - unfold MaxInt32. cbn. lia.
Defined.

Lemma Clamp_nonneg_frame_witness :
  firstn (List.length (init_heap ++ [12345678]))
         ((init_heap ++ [12345678]) ++ [10 ^ 25 - 1])
  = init_heap ++ [12345678].
Proof.
  apply (Clamp_nonneg_frame (init_heap ++ [12345678]) _
           (mkRef (Some 20%nat) (-3)) (mkRef (Some 20%nat) (-3)) 12345678 20 5).
  - reflexivity.
  - lia.
  - reflexivity.
Defined.

(** ** What the wire-format parser accepts *)

Lemma NewFromMySQL_error_echo_witness :
  echoed (ErrParse (bytes "1e5") (errUnexpected "e")) = bytes "1e5".
Proof.
  apply (NewFromMySQL_error_echo (bytes "1e5")
           (ErrParse (bytes "1e5") (errUnexpected "e"))).
  reflexivity.
Defined.

Lemma parseDecimal64_loop_ok (s : list byte) :
  forall i n dot n' dot',
    parseDecimal64_loop s i n dot = inr (n', dot') ->
    Forall plain_byte s /\ (dot' = dot \/ i <= dot' < i + len s).
Proof.
  induction s as [|c rest IH]; intros i n dot n' dot' H.
  - cbn in H. inversion H; subst. split; [constructor | now left].
  - cbn [parseDecimal64_loop] in H. rewrite len_cons.
    pose proof (len_nonneg rest) as Hl.
    destruct (Byte.eqb c ".") eqn:Ec.
    + apply Byte.byte_dec_bl in Ec. subst c.
      destruct (dot >? -1); [discriminate|].
      destruct (IH _ _ _ _ _ H) as (Hf & Hd).
      split; [constructor; [right; now right | exact Hf]|]. right. lia.
    + destruct (is_digit c) eqn:Hc; [|discriminate].
      destruct (n >=? cutoff); [discriminate|].
      destruct (_ <? _); [discriminate|].
      destruct (IH _ _ _ _ _ H) as (Hf & Hd).
      split; [constructor; [now left | exact Hf]|].
      destruct Hd as [-> | Hd]; [now left | right; lia].
Qed.

Lemma parseDecimal64_ok (s : list byte) (d : Decimal) :
  parseDecimal64 s = inr d -> s <> [] -> len s < 2147483648 ->
  Forall plain_byte s /\ (exists n, value d = Some n) /\ - len s < exp d <= 0.
Proof.
  unfold parseDecimal64. intros H Hne Hlen.
  destruct (parseDecimal64_loop s 0 0 (-1)) as [e | [n dot]] eqn:El;
    [discriminate|].
  inversion H; subst d; clear H. cbn [value exp].
  destruct (parseDecimal64_loop_ok s _ _ _ _ _ El) as (Hf & Hd).
  split; [exact Hf|]. split; [now exists n|].
  assert (0 < len s).
  { destruct s; [contradiction|]. rewrite len_cons.
    pose proof (len_nonneg s). lia. }
  destruct Hd as [-> | Hd]; [cbn; lia|].
  destruct (Z.eqb_spec dot (-1)); [lia|]. cbn [negb].
  rewrite (int32_id (len s - dot - 1))
    by (unfold is_int32, MinInt32, MaxInt32; lia).
  rewrite int32_id by (unfold is_int32, MinInt32, MaxInt32; lia). lia.
Qed.

Lemma stripSign_cases (s0 s : list byte) (neg : bool) :
  stripSign s0 = (neg, s) ->
  s0 = s \/ s0 = "+"%byte :: s \/ s0 = "-"%byte :: s.
Proof.
  destruct s0 as [|c rest]; cbn [stripSign].
  - intros H. inversion H. now left.
  - destruct (Byte.eqb c "+") eqn:E1.
    { apply Byte.byte_dec_bl in E1. subst c. intros H. inversion H.
      right. now left. }
    destruct (Byte.eqb c "-") eqn:E2.
    { apply Byte.byte_dec_bl in E2. subst c. intros H. inversion H.
      right. now right. }
    intros H. inversion H. now left.
Qed.

Lemma digits_wire (l : list byte) : digits l -> Forall wire_byte l.
Proof. intros H. eapply Forall_impl; [|exact H]. intros c Hc. left. now left. Qed.

Lemma plain_wire (l : list byte) : Forall plain_byte l -> Forall wire_byte l.
Proof. intros H. eapply Forall_impl; [|exact H]. intros c Hc. now left. Qed.

Lemma stripSign_wire (s0 s : list byte) (neg : bool) :
  stripSign s0 = (neg, s) -> Forall wire_byte s -> Forall wire_byte s0.
Proof.
  intros H Hs. destruct (stripSign_cases _ _ _ H) as [-> | [-> | ->]].
  - exact Hs.
  - constructor; [now right | exact Hs].
  - constructor; [left; right; now left | exact Hs].
Qed.

Lemma stripSign_len (s0 s : list byte) (neg : bool) :
  stripSign s0 = (neg, s) -> len s <= len s0.
Proof.
  intros H. destruct (stripSign_cases _ _ _ H) as [-> | [-> | ->]];
    rewrite ?len_cons; lia.
Qed.

Lemma SetString_ok (x : list byte) (v : Z) :
  SetString x = Some v -> Forall wire_byte x.
Proof.
  unfold SetString. destruct (stripSign x) as [neg body] eqn:Es.
  destruct (negb (len body =? 0)); [|discriminate]. cbn [andb].
  destruct (forallb is_digit body) eqn:Ef; [|discriminate]. intros _.
  apply (stripSign_wire _ _ _ Es), digits_wire.
  apply Forall_forall. now apply forallb_forall.
Qed.

Lemma IndexByte_ge (s : list byte) (c : byte) : -1 <= IndexByte s c.
Proof.
  induction s as [|x rest IH]; cbn [IndexByte]; [lia|].
  destruct (Byte.eqb x c); [lia|].
  destruct (Z.eqb_spec (IndexByte rest c) (-1)); lia.
Qed.

Lemma IndexByte_split (s : list byte) (c : byte) :
  0 <= IndexByte s c ->
  s = slice_to s (IndexByte s c) ++ c :: slice_from s (IndexByte s c + 1) /\
  len (slice_to s (IndexByte s c)) = IndexByte s c.
Proof.
  unfold slice_to, slice_from.
  induction s as [|x rest IH]; cbn [IndexByte]; [lia|].
  destruct (Byte.eqb x c) eqn:E.
  - apply Byte.byte_dec_bl in E. subst x. intros _. split; reflexivity.
  - pose proof (IndexByte_ge rest c) as Hge.
    destruct (Z.eqb_spec (IndexByte rest c) (-1)) as [? | Hn]; [lia|].
    intros _. destruct (IH ltac:(lia)) as (IH1 & IH2).
    replace (Z.to_nat (IndexByte rest c + 1 + 1))
      with (S (Z.to_nat (IndexByte rest c + 1))) by lia.
    set (k1 := Z.to_nat (IndexByte rest c + 1)) in *.
    assert (Hf : firstn k1 (x :: rest)
                 = x :: firstn (Z.to_nat (IndexByte rest c)) rest).
    { unfold k1. replace (Z.to_nat (IndexByte rest c + 1))
        with (S (Z.to_nat (IndexByte rest c))) by lia. reflexivity. }
    change (skipn (S k1) (x :: rest)) with (skipn k1 rest).
    rewrite Hf. cbn [app]. split.
    + f_equal. exact IH1.
    + rewrite len_cons. lia.
Qed.

Lemma bigFallback_ok (original s : list byte) (neg : bool) (d : Decimal) :
  bigFallback original s neg = Parsed d -> s <> [] -> len s < 2147483648 ->
  Forall wire_byte s /\ (exists n, value d = Some n) /\ - len s < exp d <= 0.
Proof.
  unfold bigFallback. intros H Hne Hlen.
  assert (Hpos : 0 < len s).
  { destruct s; [contradiction|]. rewrite len_cons.
    pose proof (len_nonneg s). lia. }
  destruct (Z.geb_spec (IndexByte s ".") 0) as [Hp | Hp].
  - destruct (negb _); [discriminate|].
    destruct (IndexByte_split s "." Hp) as (Hsplit & Hlp).
    set (p := IndexByte s ".") in *.
    set (a := slice_to s p) in *. set (b := slice_from s (p + 1)) in *.
    clearbody a b.
    assert (Hls : len s = p + 1 + len b).
    { rewrite Hsplit at 1. rewrite len_app, len_cons. lia. }
    pose proof (len_nonneg b) as Hb.
    assert (Hwire : forall v, SetString (if p + 1 <? len s then a ++ b else a)
                              = Some v -> Forall wire_byte s).
    { intros v Hv. apply SetString_ok in Hv. rewrite Hsplit.
      assert (Ha : Forall wire_byte a /\ Forall wire_byte b).
      { destruct (Z.ltb_spec (p + 1) (len s)).
        - now apply Forall_app in Hv.
        - split; [exact Hv|]. destruct b as [|y b]; [constructor|].
          rewrite len_cons in Hls. pose proof (len_nonneg b). lia. }
      apply Forall_app. split; [tauto|].
      constructor; [left; right; now right | tauto]. }
    destruct (SetString _) as [v|] eqn:Ev; [|discriminate].
    inversion H; subst d; clear H. cbn [value exp].
    split; [exact (Hwire v eq_refl)|]. split; [eexists; reflexivity|].
    rewrite (int32_id (len b)) by (unfold is_int32, MinInt32, MaxInt32; lia).
    rewrite int32_id by (unfold is_int32, MinInt32, MaxInt32; lia). lia.
  - destruct (SetString s) as [v|] eqn:Ev; [|discriminate].
    inversion H; subst d; clear H. cbn [value exp].
    split; [exact (SetString_ok s v Ev)|]. split; [eexists; reflexivity | lia].
Qed.

(** [NewFromMySQL] accepts numerals only: every byte of an accepted text
    is a digit, a sign or a dot (no exponent marks, letters or blanks).
    The decimal returned has an allocated magnitude and an exponent
    between minus the length of the text and zero. *)
Theorem NewFromMySQL_accepts_numerals_only (s : list byte) (d : Decimal) :
  NewFromMySQL s = Parsed d -> len s < 2147483648 ->
  Forall wire_byte s /\ (exists n, value d = Some n) /\ - len s < exp d <= 0.
Proof.
  unfold NewFromMySQL, NewFromMySQL_route. intros H Hlen.
  destruct (stripSign s) as [neg body] eqn:Es.
  pose proof (stripSign_len _ _ _ Es) as Hlb.
  assert (Hbig : bigFallback s body neg = Parsed d -> body <> [] ->
                 Forall wire_byte s /\ (exists n, value d = Some n) /\
                 - len s < exp d <= 0).
  { intros Hf Hne.
    destruct (bigFallback_ok s body neg d Hf Hne ltac:(lia)) as (A & B & C).
    split; [exact (stripSign_wire _ _ _ Es A)|]. split; [exact B | lia]. }
  destruct (Z.eqb_spec (len body) 0) as [? | Hn0]; [discriminate|].
  assert (Hne : body <> []) by (intros ->; now apply Hn0).
  destruct (len body <=? 18); [|now apply Hbig].
  destruct (parseDecimal64 body) as [[| |]|dec] eqn:Ep; cbn [snd] in H;
    try discriminate; try (now apply Hbig).
  destruct (parseDecimal64_ok body dec Ep Hne ltac:(lia)) as (A & (n & B) & C).
  assert (Hd : exp d = exp dec /\ exists m, value d = Some m).
  { destruct neg; inversion H; subst d; cbn [value exp];
      split; try reflexivity; eexists; try reflexivity; exact B. }
  destruct Hd as (He & Hv). rewrite He.
  split; [exact (stripSign_wire _ _ _ Es (plain_wire _ A))|].
  split; [exact Hv | lia].
Qed.

Lemma NewFromMySQL_accepts_numerals_only_witness :
  Forall wire_byte (bytes "-12.345") /\
  (exists n, value (New (-12345) (-3)) = Some n) /\
  - len (bytes "-12.345") < exp (New (-12345) (-3)) <= 0.
Proof.
  apply (NewFromMySQL_accepts_numerals_only (bytes "-12.345") (New (-12345) (-3))).
  - reflexivity.
  - cbn. lia.
Defined.

(** ** The remainder *)

(** Rounding the tenfold quotient to the nearest integer and then cutting
    its last digit gives the quotient, or one more when the remainder is
    at least 19/20 of the divisor. *)
Lemma round_then_cut (A B : Z) :
  0 <= A -> 0 < B ->
  (10 * A / B + (if 2 * ((10 * A) mod B) <? B then 0 else 1)) / 10
  = if 20 * (A mod B) <? 19 * B then A / B else A / B + 1.
Proof.
  intros HA HB.
  pose proof (Z.div_mod A B ltac:(lia)) as E1.
  pose proof (Z.mod_pos_bound A B HB) as B1.
  set (Q := A / B) in *. set (R := A mod B) in *.
  pose proof (Z.div_mod (10 * R) B ltac:(lia)) as E2.
  pose proof (Z.mod_pos_bound (10 * R) B HB) as B2.
  assert (HT : 0 <= 10 * R / B <= 9).
  { split; [apply Z.div_pos; lia|].
    apply Z.lt_succ_r, Z.div_lt_upper_bound; lia. }
  assert (E3 : 10 * A / B = 10 * Q + 10 * R / B).
  { replace (10 * A) with (10 * R + (10 * Q) * B) by lia.
    rewrite Z.div_add by lia. lia. }
  assert (E4 : (10 * A) mod B = (10 * R) mod B).
  { replace (10 * A) with (10 * R + (10 * Q) * B) by lia.
    now rewrite Z.mod_add by lia. }
  rewrite E3, E4.
  set (T := 10 * R / B) in *. set (U := (10 * R) mod B) in *.
  destruct (Z.ltb_spec (2 * U) B) as [H2 | H2];
    destruct (Z.ltb_spec (20 * R) (19 * B)) as [H19 | H19].
  - replace (10 * Q + T + 0) with (T + Q * 10) by lia.
    rewrite Z.div_add, Z.div_small by lia. lia.
  - exfalso. nia.
  - assert (T + 1 <= 9) by nia.
    replace (10 * Q + T + 1) with ((T + 1) + Q * 10) by lia.
    rewrite Z.div_add, Z.div_small by lia. lia.
  - assert (T = 9) by nia.
    replace (10 * Q + T + 1) with (0 + (Q + 1) * 10) by lia.
    rewrite Z.div_add, Z.div_small by lia. lia.
Qed.

Lemma mod_arith (a b : Z) :
  b <> 0 ->
  a - b * Z.quot (Z.quot (a * 10 ^ 1) b
                  + (if bigCmp (2 * Z.abs (Z.rem (a * 10 ^ 1) b)) (Z.abs b) <? 0
                     then 0
                     else if Z.sgn a * Z.sgn b <? 0 then -1 else 1))
                 (10 ^ 1)
  = if 20 * Z.abs (Z.rem a b) <? 19 * Z.abs b then Z.rem a b
    else Z.rem a b - Z.sgn a * Z.abs b.
Proof.
  intros Hb. change (10 ^ 1) with 10. rewrite bigCmp_lt.
  destruct (Z.eq_dec a 0) as [-> | Ha].
  { rewrite Z.mul_0_l, Z.quot_0_l, Z.rem_0_l by lia.
    change (Z.abs 0) with 0. rewrite !Z.mul_0_r.
    destruct (Z.ltb_spec 0 (Z.abs b)); [|lia].
    rewrite Z.add_0_r. change (Z.quot 0 10) with 0.
    destruct (Z.ltb_spec 0 (19 * Z.abs b)); lia. }
  assert (HA : 0 < Z.abs a) by lia. assert (HB : 0 < Z.abs b) by lia.
  pose proof (round_then_cut (Z.abs a) (Z.abs b) ltac:(lia) HB) as Hk.
  rewrite (Z.quot_div (a * 10) b Hb), (Z.rem_mod (a * 10) b Hb).
  rewrite (Z.rem_mod a b Hb).
  replace (Z.sgn (a * 10)) with (Z.sgn a) by lia.
  replace (Z.abs (a * 10)) with (10 * Z.abs a) by lia.
  pose proof (Z.mod_pos_bound (10 * Z.abs a) (Z.abs b) HB) as Bm.
  pose proof (Z.mod_pos_bound (Z.abs a) (Z.abs b) HB) as Bm'.
  assert (Hq : 0 <= 10 * Z.abs a / Z.abs b) by (apply Z.div_pos; lia).
  set (q := 10 * Z.abs a / Z.abs b) in *.
  set (u := (10 * Z.abs a) mod Z.abs b) in *.
  set (r := Z.abs a mod Z.abs b) in *.
  rewrite !Z.abs_mul. replace (Z.abs (Z.sgn a)) with 1 by lia.
  rewrite !Z.mul_1_l, (Z.abs_eq u), (Z.abs_eq r) by lia.
  set (dl := if 2 * u <? Z.abs b then 0 else 1) in *.
  assert (Hdl : 0 <= dl <= 1) by (unfold dl; destruct (2 * u <? Z.abs b); lia).
  assert (Hadj : Z.sgn a * Z.sgn b * q
                 + (if 2 * u <? Z.abs b then 0
                    else if Z.sgn a * Z.sgn b <? 0 then -1 else 1)
                 = Z.sgn a * Z.sgn b * (q + dl)).
  { unfold dl. destruct (2 * u <? Z.abs b); [ring|].
    destruct (Z.ltb_spec (Z.sgn a * Z.sgn b) 0); lia. }
  rewrite Hadj.
  assert (Hquot : Z.quot (Z.sgn a * Z.sgn b * (q + dl)) 10
                  = Z.sgn a * Z.sgn b * ((q + dl) / 10)).
  { rewrite (Z.quot_div _ 10) by lia.
    rewrite Z.sgn_mul, Z.abs_mul. change (Z.sgn 10) with 1.
    change (Z.abs 10) with 10.
    destruct (Z.eq_dec (q + dl) 0) as [E0 | E0].
    - rewrite E0. cbn. lia.
    - rewrite (Z.abs_eq (q + dl)) by lia.
      replace (Z.sgn (q + dl)) with 1 by lia.
      replace (Z.abs (Z.sgn a * Z.sgn b)) with 1 by lia.
      replace (Z.sgn (Z.sgn a * Z.sgn b)) with (Z.sgn a * Z.sgn b) by lia.
      rewrite (Z.mul_1_l (q + dl)). ring. }
  rewrite Hquot. fold dl in Hk. rewrite Hk.
  pose proof (Z.div_mod (Z.abs a) (Z.abs b) ltac:(lia)) as Ed. fold r in Ed.
  assert (Eb : b * (Z.sgn a * Z.sgn b) = Z.sgn a * Z.abs b).
  { rewrite <- (Z.sgn_abs b) at 1. ring_simplify.
    replace (Z.sgn b ^ 2) with 1 by lia. ring. }
  assert (Ea : a = Z.sgn a * Z.abs a) by (rewrite Z.mul_comm, Z.abs_sgn; reflexivity).
  destruct (20 * r <? 19 * Z.abs b).
  - rewrite Z.mul_assoc, Eb. rewrite Ea at 1. rewrite Ed at 1. ring.
  - rewrite Z.mul_assoc, Eb. rewrite Ea at 1. rewrite Ed at 1. ring.
Qed.

(** [mod] on integers gives the remainder of the truncated division only
    while that remainder is below 19/20 of the divisor.  From there on
    the quotient, which is rounded to one decimal place before its
    fraction is cut, is one too far from zero, and the result is off by
    one divisor and has the opposite sign. *)
Theorem mod_of_integers (a b : Z) :
  b <> 0 ->
  mod_ (New a 0) (New b 0)
  = Ok (New (if 20 * Z.abs (Z.rem a b) <? 19 * Z.abs b then Z.rem a b
             else Z.rem a b - Z.sgn a * Z.abs b) 0).
Proof.
  intros Hb. unfold mod_.
  change (int32 (int32 (- exp (New a 0)) + 1)) with 1.
  rewrite divRound_eval.
  - cbn [bind]. unfold truncate.
    cbn [ensureInitialized value exp].
    change ((0 >=? 0) && (int32 (- 0) >? - (1))) with true. cbn match.
    change (int32 (- 0)) with 0.
    rewrite rescale_up by (cbn [exp]; unfold MaxInt32; lia).
    cbn [big value exp]. change (0 - - (1)) with 1.
    unfold mul. cbn [ensureInitialized New value exp big].
    change ((0 + 0 >? MaxInt32) || (0 + 0 <? MinInt32)) with false.
    cbn match. cbn [bind]. change (0 + 0) with 0.
    rewrite sub_eval by (cbn [New exp]; unfold MaxInt32; lia).
    cbn [New big value exp]. change (Z.min 0 0) with 0.
    change (0 - 0) with 0. change (10 ^ 0) with 1.
    rewrite !Z.mul_1_r. unfold New. f_equal. f_equal. f_equal.
    unfold quoRem_aa, quoRem_bb, divRound_adjust, quoRem_aa, quoRem_bb.
    cbn [New big value exp]. change (0 - 0 + 1 <? 0) with false. cbn match.
    change (0 - 0 + 1) with 1.
    exact (mod_arith a b Hb).
  - exact Hb.
  - unfold divRound_in_range, quoRem_in_range, is_int32, MinInt32, MaxInt32.
    cbn [New exp]. lia.
Qed.

Lemma mod_of_integers_witness :
  mod_ (New 299 0) (New 300 0)
  = Ok (New (if 20 * Z.abs (Z.rem 299 300) <? 19 * Z.abs 300 then Z.rem 299 300
             else Z.rem 299 300 - Z.sgn 299 * Z.abs 300) 0).
Proof.
  apply (mod_of_integers 299 300). lia.
Defined.

Example mod_examples :
  mod_ (New 7 0) (New 3 0) = Ok (New 1 0) /\
  mod_ (New (-7) 0) (New 3 0) = Ok (New (-1) 0) /\
  mod_ (New 299 0) (New 300 0) = Ok (New (-1) 0) /\
  mod_ (New 39 0) (New 20 0) = Ok (New (-1) 0).
Proof. repeat split; reflexivity. Qed.

(** ** The scale of Div *)

(** For nonzero operands without positive exponents (and exponents and
    increment within 2^28), [Div] works at one scale only: the sum of the
    two counts of fractional digits and the increment, rounded up to the
    next multiple of 9.  [fracLeft] and [fracRight] are taken off the
    increment and added back, which leaves [s1 + s2 + increment]. *)
Theorem Div_scale_rounds_the_sum (d d2 : Decimal) (incr : Z) :
  Sign d <> 0 -> big d2 <> 0 -> Div_in_range d d2 incr ->
  exp d <= 0 -> exp d2 <= 0 ->
  Div_scale d d2 incr = round_up_9 (- exp d - exp d2 + incr) /\
  exists q, Div d d2 incr = Ok q /\
            exp q = - round_up_9 (- exp d - exp d2 + incr).
Proof.
  intros Hs Hnz Hin H1 H2.
  pose proof (Div_scale_in_range d d2 incr Hin) as Hr.
  pose proof (Div_scale_sum d d2 incr Hin H1 H2) as Hsum.
  split; [exact Hsum|].
  unfold Div. apply Z.eqb_neq in Hs. rewrite Hs. rewrite <- Hsum.
  revert Hr. generalize (Div_scale d d2 incr). intros sc Hr.
  rewrite (quoRem_eval d d2 sc Hnz Hr). cbn [bind fst].
  eexists. split; reflexivity.
Qed.

Lemma Div_scale_rounds_the_sum_witness :
  Div_scale (New 15 (-10)) (New 325 (-10)) 4
  = round_up_9 (- exp (New 15 (-10)) - exp (New 325 (-10)) + 4) /\
  exists q, Div (New 15 (-10)) (New 325 (-10)) 4 = Ok q /\
            exp q = - round_up_9 (- exp (New 15 (-10)) - exp (New 325 (-10)) + 4).
Proof.
  apply (Div_scale_rounds_the_sum (New 15 (-10)) (New 325 (-10)) 4).
  - cbn. lia.
  - cbn. lia.
  - unfold Div_in_range. cbn. lia.
  - cbn. lia.
  - cbn. lia.
Defined.

Example Div_scale_examples :
  Div_scale (New 15 (-10)) (New 325 (-10)) 4 = 27 /\
  Div_scale (New 15 (-1)) (New 325 (-2)) 4 = 9 /\
  Div_scale (New 2 0) (New 3 0) 4 = 9.
Proof. repeat split; reflexivity. Qed.

(** ** Round and the sign *)

(** [Round] is symmetric in sign on every operand and every number of
    places, the wrapping ones included: rounding the negation gives the
    negation of the rounded decimal, digit for digit, and so the negated
    number. *)
Theorem Round_symmetric_in_sign (d : Decimal) (places : Z) :
  Round (Neg d) places = Neg (Round d places) /\
  exp (Round (Neg d) places) = exp (Round d places) /\
  (toQ (Round (Neg d) places) == - toQ (Round d places))%Q.
Proof.
  rewrite Round_Neg. split; [reflexivity|]. split.
  - unfold Neg. cbn [exp]. apply exp_ensureInitialized.
  - apply toQ_Neg.
Qed.
